(** * Frame-semantic parsing scorer (semafor/scoring/frameparseval.py)

    A shallow embedding of the scorer: [Span] (a union of integer ranges used
    as a dictionary key), [PRCounter] (the precision/recall table), the
    non-target extraction, the prediction indexer and the sentence scorer,
    followed by the properties established about them.

    Conventions of the embedding:
    - Python integers are [Z]; Python floats are the kernel's binary64
      floats ([PrimFloat.float]); Python [set]s are [gset]s and [dict]s are
      [gmap]s; exceptions are the [Err] results of the [result] type.
    - Byte strings stand for the JSON text values; [lower]/[upper] act on the
      ASCII letters.
    - Diagnostics printed to the error stream are not part of the state; the
      exceptions that computing a diagnostic can raise are. *)

From Stdlib Require Import ZArith List Ascii String Bool Lia Floats.
From Stdlib Require Uint63.
From stdpp Require Import gmap strings list fin_maps fin_sets sorting.

Open Scope Z_scope.

(** ** Exceptions *)

Inductive error : Type :=
| InvalidSpan            (* Exception('Span() constructor must ...') *)
| NonAdjacentSpanError   (* Exception('Cannot add non-adjacent spans: ...') *)
| AssertFalse            (* assert False, in Span.__add__ *)
| AssertNPositive        (* assert N>0, in PRCounter.__setitem__ *)
| AssertTNonNegative     (* assert entry['T']>=0, in PRCounter.__setitem__ *)
| AssertFrameSizes       (* assert len(gold_frames)==len(pred_frames)==..., in score_sentence *)
| ValueError             (* min()/max() of an empty sequence *)
| IndexError             (* sequence index out of range *)
| KeyError               (* missing dictionary key *)
| TypeError              (* '' + int, when adding table cells *)
| ZeroDivisionError      (* int / 0, when dividing table cells *)
| UnicodeEncodeError.    (* str() of a text with a character above 127 *)

Inductive result (A : Type) : Type :=
| Ok (a : A)
| Err (e : error).
Arguments Ok {A} a.
Arguments Err {A} e.

Definition bind {A B} (r : result A) (f : A → result B) : result B :=
  match r with
  | Ok a => f a
  | Err e => Err e
  end.

Notation "'let*' x ':=' r 'in' k" := (bind r (fun x => k))
  (at level 10, x pattern, r at level 100, k at level 200).

Fixpoint mapM {A B} (f : A → result B) (l : list A) : result (list B) :=
  match l with
  | [] => Ok []
  | x :: l' => let* y := f x in let* ys := mapM f l' in Ok (y :: ys)
  end.

Fixpoint foldM {A S} (f : S → A → result S) (s : S) (l : list A) : result S :=
  match l with
  | [] => Ok s
  | x :: l' => let* s' := f s x in foldM f s' l'
  end.

(** ** Span *)

Module Span.

(** [slice(start, stop)] *)
Definition slice : Type := Z * Z.

Record t : Type := mk { _s : list slice }.

#[global] Instance t_eq_dec : EqDecision t.
Proof. solve_decision. Defined.

#[global] Instance t_countable : Countable t.
Proof.
  refine (inj_countable' _s mk _).
  intros []; reflexivity.
Defined.

(** [range(start, stop)] *)
Definition range (start stop : Z) : list Z := seqZ start (stop - start).

(** [__iter__]: the ranges' indices, range by range *)
Definition iter (self : t) : list Z :=
  flat_map (fun s : slice => range s.1 s.2) (_s self).

(** [set(span)] *)
Definition to_set (self : t) : gset Z := list_to_set (iter self).

(** [__len__] *)
Definition len (self : t) : Z := Z.of_nat (size (to_set self)).

(** [i in span]: there is no [__contains__], the test runs over [__iter__] *)
Definition contains (i : Z) (self : t) : bool := bool_decide (i ∈ iter self).

(** Truth value of a Python set *)
Definition nonempty (X : gset Z) : bool := bool_decide (X ≠ ∅).

Definition encompasses (self that : t) : bool :=
  bool_decide (to_set that ⊆ to_set self).

Definition overlaps_partially (self that : t) : bool :=
  nonempty (to_set that ∖ to_set self) && nonempty (to_set self ∖ to_set that).

Definition overlaps (self that : t) : bool :=
  nonempty (to_set that ∩ to_set self).

(** [args[::2]] *)
Fixpoint stride2 (args : list Z) : list Z :=
  match args with
  | a :: _ :: rest => a :: stride2 rest
  | [a] => [a]
  | [] => []
  end.

(** [zip(a, b)] *)
Fixpoint zip (a b : list Z) : list slice :=
  match a, b with
  | x :: a', y :: b' => (x, y) :: zip a' b'
  | _, _ => []
  end.

(** Tuple comparison [p <= q] *)
Definition pair_leb (p q : slice) : bool :=
  (p.1 <? q.1) || ((p.1 =? q.1) && (p.2 <=? q.2)).

Fixpoint insert_sorted (p : slice) (l : list slice) : list slice :=
  match l with
  | [] => [p]
  | q :: l' => if pair_leb p q then p :: q :: l' else q :: insert_sorted p l'
  end.

(** [sorted(pairs)]: ascending in the tuple order (pairs that compare equal
    are identical, so every sorting algorithm gives this list) *)
Definition sorted (l : list slice) : list slice :=
  foldr insert_sorted [] l.

(** [Span(start, stop)], as the constructor leaves it for one pair *)
Definition single (start stop : Z) : t := mk [(start, stop)].

(** The loop of [__init__] over the sorted pairs; [s] is [self._s] *)
Fixpoint init_loop (s : list slice) (first : bool) (ps : list slice)
  : result (list slice) :=
  match ps with
  | [] => Ok s
  | (start, stop) :: ps' =>
      if first then init_loop (s ++ [(start, stop)]) false ps'
      else if overlaps (mk s) (single start stop) then Err InvalidSpan
      else match last s with
           | None => Err IndexError
           | Some l =>
               if l.2 =? start
               then init_loop (<[Nat.pred (length s) := (l.1, stop)]> s) false ps'
               else init_loop (s ++ [(start, stop)]) false ps'
           end
  end.

(** [Span(args)], for the argument tuple [args] *)
Definition init (args : list Z) : result t :=
  if bool_decide (args = []) || negb (Nat.even (length args))
  then Err InvalidSpan
  else let* s := init_loop [] true (sorted (zip (stride2 args) (stride2 (tail args)))) in
       Ok (mk s).

(** [min(s.start for s in self._s)] *)
Definition minstart (self : t) : result Z :=
  match _s self with
  | [] => Err ValueError
  | s :: rest => Ok (foldl Z.min s.1 (fst <$> rest))
  end.

(** [max(s.stop for s in self._s)] *)
Definition maxstop (self : t) : result Z :=
  match _s self with
  | [] => Err ValueError
  | s :: rest => Ok (foldl Z.max s.2 (snd <$> rest))
  end.

(** [__add__] *)
Definition add (self that : t) : result t :=
  match _s self, _s that with
  | [a], [b] =>
      if a.2 =? b.1 then init [a.1; b.2]
      else if b.2 =? a.1 then init [b.1; a.2]
      else Err NonAdjacentSpanError
  | _, _ => Err AssertFalse
  end.

(** [__lt__]; [or] evaluates its right operand only when the left is false *)
Definition lt (self that : t) : result bool :=
  let* a := minstart self in
  let* b := minstart that in
  if a <? b then Ok true
  else let* c := maxstop self in
       let* d := maxstop that in
       Ok (c <? d).

(** [__eq__] *)
Definition eq (self that : t) : bool := bool_decide (_s self = _s that).

(** [__hash__] *)
Definition hash (self : t) : Z :=
  foldr Z.add 0 ((fun s : slice => 17 * s.2 + s.1) <$> _s self).

(** [contiguous] *)
Definition contiguous (self : t) : result bool :=
  let* b := maxstop self in
  let* a := minstart self in
  Ok (b - a =? len self).

(** [subspans] *)
Definition subspans (self : t) : list t :=
  (fun s : slice => single s.1 s.2) <$> _s self.

(** [__call__(sequence, typ)]: [sequence[i]] for a Python list, negative
    indices counting from the end *)
Definition getitem {A} (sequence : list A) (i : Z) : result A :=
  let n := Z.of_nat (length sequence) in
  let j := if i <? 0 then i + n else i in
  if (j <? 0) || (n <=? j) then Err IndexError
  else match sequence !! Z.to_nat j with
       | Some x => Ok x
       | None => Err IndexError
       end.

Definition call_list {A} (self : t) (sequence : list A) : result (list A) :=
  mapM (getitem sequence) (iter self).

(** [' '.join(...)] *)
Fixpoint join (sep : string) (l : list string) : string :=
  match l with
  | [] => EmptyString
  | [x] => x
  | x :: l' => x +:+ sep +:+ join sep l'
  end.

(** [str(text)]: the strings of a deserialized JSON line are unicode, and so
    is the text joined from them; [str] encodes it in ASCII and raises on a
    character above 127. A character of the model stands for a code point
    (below 256). *)
Definition is_ascii (c : ascii) : bool := (N_of_ascii c <? 128)%N.

Fixpoint all_ascii (text : string) : bool :=
  match text with
  | EmptyString => true
  | String c text' => is_ascii c && all_ascii text'
  end.

Definition str (text : string) : result string :=
  if all_ascii text then Ok text else Err UnicodeEncodeError.

Definition call_str (self : t) (sequence : list string) : result string :=
  let* toks := call_list self sequence in str (join " " toks).

End Span.

(** ** PRCounter *)

(** [int / int] under [from __future__ import division], and the division of
    two integer table cells: the quotient as a binary64 float. The operands
    are converted exactly when they are below [2^53], which covers every
    count of a table held in memory. *)
Definition Z2F (z : Z) : float := PrimFloat.of_uint63 (Uint63.of_Z z).

Definition truediv (a b : Z) : float := (Z2F a / Z2F b)%float.

(** Truth value of a Python float: [x != 0.0] (true for NaN) *)
Definition float_truth (x : float) : bool := negb (x =? 0)%float.

Module PRCounter.

(** One row of the table, by [COLUMNS]. [N] is [None] for the cell [''];
    [T] and [Acc] are [None] for a null cell ([None], or the NaN that null
    cells become under the table's arithmetic). *)
Record Row : Type := mkRow {
  Numer : Z;
  PDenom : Z;
  RDenom : Z;
  P : float;
  R : float;
  F : float;
  T : option Z;
  N : option Z;
  Acc : option float
}.

(** [self._df]: the rows in the order they were appended, with their labels *)
Abbreviation t := (list (string * Row)).

(** [PRCounter()] *)
Definition empty : t := [].

Definition labels (self : t) : list string := self.*1.

(** [df[e][row]], for a table whose labels are distinct *)
Definition get (self : t) (row : string) : option Row :=
  (list_to_map self : gmap string Row) !! row.

(** The value assigned to a row: [(gold_set, pred_set)] or
    [(N, gold_set, pred_set)] *)
Inductive value (A : Type) `{Countable A} : Type :=
| Pair (gold_set pred_set : gset A)
| Triple (N : Z) (gold_set pred_set : gset A).
Arguments Pair {A _ _} gold_set pred_set.
Arguments Triple {A _ _} N gold_set pred_set.

Section setitem.
Context {A : Type} `{Countable A}.

(** [len(s)] *)
Definition len (s : gset A) : Z := Z.of_nat (size s).

(** Truth value of a set *)
Definition truth (s : gset A) : bool := negb (len s =? 0).

Definition gold_of (v : value A) : gset A :=
  match v with Pair g _ => g | Triple _ g _ => g end.
Definition pred_of (v : value A) : gset A :=
  match v with Pair _ p => p | Triple _ _ p => p end.
Definition N_of (v : value A) : option Z :=
  match v with Pair _ _ => None | Triple n _ _ => Some n end.

(** [entry['F']] *)
Definition F_entry (p r : float) : float :=
  if float_truth (p + r) then (2 * p * r / (p + r))%float else nan.

(** [entry['T']] when [N] is given *)
Definition T_entry (n : Z) (gold_set pred_set : gset A) : Z :=
  if (len gold_set =? len pred_set) && (len pred_set =? n)
  then len (gold_set ∩ pred_set)
  else n - len (pred_set ∖ gold_set) - len (gold_set ∖ pred_set).

(** [__setitem__] *)
Definition setitem (self : t) (k : string) (v : value A) : result t :=
  let gold_set := gold_of v in
  let pred_set := pred_of v in
  let* _ :=
    match N_of v with
    | Some n =>
        if (truth gold_set || truth pred_set) && negb (0 <? n)
        then Err AssertNPositive else Ok tt
    | None => Ok tt
    end in
  let numer := len (gold_set ∩ pred_set) in
  let pdenom := len pred_set in
  let rdenom := len gold_set in
  let p := if negb (pdenom =? 0) then truediv numer pdenom else nan in
  let r := if negb (rdenom =? 0) then truediv numer rdenom else nan in
  let f := F_entry p r in
  let* ta :=
    match N_of v with
    | None => Ok (None, None)
    | Some n =>
        let t := T_entry n gold_set pred_set in
        if negb (0 <=? t) then Err AssertTNonNegative
        else Ok (Some t, Some (if n =? 0 then nan else truediv t n))
    end in
  Ok (self ++ [(k, mkRow numer pdenom rdenom p r f ta.1 (N_of v) ta.2)]).

End setitem.

(** The row appended for a label the other table lacks:
    ['' if df[e][row]=='' else 0] in every column *)
Definition fill_row (r : Row) : Row :=
  mkRow 0 0 0 0 0 0 (Some 0)
        (match N r with None => None | Some _ => Some 0 end) (Some 0%float).

(** [dst] extended with a filled row for each row of [src] it lacks *)
Definition fill (src dst : t) : t :=
  dst ++ ((fun kr : string * Row => (kr.1, fill_row kr.2))
            <$> filter (fun kr : string * Row => kr.1 ∉ labels dst) src).

(** Cell addition in the columns [T] (integers and nulls; a null operand gives
    a null) and [N] (integers and ['']: [''+''] is [''], and [''] cannot be
    added to an integer) *)
Definition add_T (a b : option Z) : option Z :=
  match a, b with
  | Some x, Some y => Some (x + y)
  | _, _ => None
  end.

Definition add_N (a b : option Z) : result (option Z) :=
  match a, b with
  | Some x, Some y => Ok (Some (x + y))
  | None, None => Ok None
  | _, _ => Err TypeError
  end.

Definition add_Acc (a b : option float) : option float :=
  match a, b with
  | Some x, Some y => Some (x + y)%float
  | _, _ => None
  end.

(** [me + you], row by row *)
Definition add_row (a b : Row) : result Row :=
  let* n := add_N (N a) (N b) in
  Ok (mkRow (Numer a + Numer b) (PDenom a + PDenom b) (RDenom a + RDenom b)
            (P a + P b) (R a + R b) (F a + F b)
            (add_T (T a) (T b)) n (add_Acc (Acc a) (Acc b))).

(** [new_df = me + you]. The table library's arithmetic is taken as follows:
    the two tables are aligned on their labels (distinct within a table) and
    added cell by cell; after the fills both carry the same labels, so no
    label is left without a partner. The rows are listed in the order of
    [me]; the order matters to rendering only. *)
Definition df_add (me you : t) : result t :=
  mapM (fun kr : string * Row =>
          match get you kr.1 with
          | Some r' => let* r := add_row kr.2 r' in Ok (kr.1, r)
          | None => Err KeyError
          end) me.

(** The recomputed ratio columns: column division is the division of
    floats (0/0 is NaN). [denom[denom>0]] keeps the rows whose [denom] is
    positive; the quotient is null (NaN) in the others. *)
Definition F_ratio (p r : float) : float :=
  let denom := (p + r)%float in
  if (0 <? denom)%float then (2 * p * r / denom)%float else nan.

(** The column [N] holds Python objects when one of its cells is ['']; it is
    a column of machine integers otherwise *)
Definition object_N (df : t) : bool :=
  existsb (fun kr : string * Row =>
             match N kr.2 with None => true | Some _ => false end) df.

(** A cell of [new_df['T'] / new_df['N']]. A null [T] gives a null. In a
    column of machine integers the quotient is the division of floats (0/0 is
    NaN); in a column of objects the two integers are divided as Python
    integers, and the division by 0 raises: [__add__] has no guard like the
    [N==0] of [__setitem__]. *)
Definition Acc_ratio (object_N : bool) (t n : option Z) : result (option float) :=
  match t, n with
  | Some t, Some n =>
      if object_N && (n =? 0) then Err ZeroDivisionError
      else Ok (Some (truediv t n))
  | _, _ => Ok None
  end.

Definition recompute (object_N : bool) (r : Row) : result Row :=
  let p := truediv (Numer r) (PDenom r) in
  let r' := truediv (Numer r) (RDenom r) in
  let* acc := Acc_ratio object_N (T r) (N r) in
  Ok (mkRow (Numer r) (PDenom r) (RDenom r) p r' (F_ratio p r')
            (T r) (N r) acc).

(** [__add__] *)
Definition add (self that : t) : result t :=
  let you := fill self that in
  let me := fill that self in
  let* new_df := df_add me you in
  mapM (fun kr : string * Row =>
          let* r := recompute (object_N new_df) kr.2 in Ok (kr.1, r)) new_df.

End PRCounter.

(** ** Strings *)

Definition lower_ascii (c : ascii) : ascii :=
  let n := N_of_ascii c in
  if ((65 <=? n) && (n <=? 90))%N then ascii_of_N (n + 32) else c.

Definition upper_ascii (c : ascii) : ascii :=
  let n := N_of_ascii c in
  if ((97 <=? n) && (n <=? 122))%N then ascii_of_N (n - 32) else c.

Fixpoint map_string (f : ascii → ascii) (s : string) : string :=
  match s with
  | EmptyString => EmptyString
  | String c s' => String (f c) (map_string f s')
  end.

(** [s.lower()], [s.upper()] *)
Definition lower (s : string) : string := map_string lower_ascii s.
Definition upper (s : string) : string := map_string upper_ascii s.

(** [d[:3]] *)
Definition first3 (d : string) : string := substring 0 3 d.

Definition DATE_NAMES_base : list string :=
  [ "monday"; "tuesday"; "wednesday"; "thursday"; "friday"; "saturday";
    "sunday"; "january"; "february"; "march"; "april"; "may"; "june"; "july";
    "august"; "september"; "october"; "november"; "december" ]%string.

(** [DATE_NAMES], after [DATE_NAMES += [v for d in DATE_NAMES for v in [d[:3], d[:3]+'.']]] *)
Definition DATE_NAMES : list string :=
  DATE_NAMES_base
  ++ flat_map (fun d => [first3 d; first3 d +:+ "."]%string) DATE_NAMES_base.

(** ** The annotation records (deserialized JSON) *)

(** An entry of ['spans'] *)
Record Range : Type := mkRange { start : Z; end_ : Z }.

(** A frame's ['target']; ['name'] may be absent in a prediction *)
Record Target : Type := mkTarget { t_spans : list Range; t_name : option string }.

(** An entry of ['frameElements'] *)
Record FrameElement : Type := mkFE { fe_spans : list Range; fe_name : string }.

Record AnnotationSet : Type := mkAnnotationSet { frameElements : list FrameElement }.

(** An entry of ['frames']; ['annotationSets'] may be absent in a prediction *)
Record Frame : Type := mkFrame {
  target : Target;
  annotationSets : option (list AnnotationSet)
}.

(** An entry of ['wsl'], ['ner'] or ['pos'] *)
Record Entry : Type := mkEntry {
  e_start : Z;
  e_end : Z;
  e_name : string;
  e_text : string
}.

Record Sentence : Type := mkSentence {
  tokens : list string;
  frames : list Frame;
  wsl : list Entry;
  ner : list Entry;
  pos : list Entry
}.

(** [errors = {'miss': Counter(), 'extra': Counter()}] *)
Record Errors : Type := mkErrors {
  miss : gmap string Z;
  extra : gmap string Z
}.

(** [counter[k] += 1] *)
Definition incr (counter : gmap string Z) (k : string) : gmap string Z :=
  <[k := default 0 (counter !! k) + 1]> counter.

(** A dictionary built entry by entry: a later entry replaces an earlier one
    with the same key *)
Definition dict_of {K V} `{Countable K} (l : list (K * V)) : gmap K V :=
  foldl (fun m kv => <[kv.1 := kv.2]> m) ∅ l.

(** ** Prediction indexer *)

Definition span_from_element (spans : list Range) : result Span.t :=
  Span.init (flat_map (fun sp => [start sp; end_ sp]) spans).

(** [{span_from_element(fe): fe['name'] for fe in fes}] *)
Definition args_by_span (fes : list FrameElement) : result (gmap Span.t string) :=
  foldM (fun m fe =>
           let* sp := span_from_element (fe_spans fe) in
           Ok (<[sp := fe_name fe]> m)) ∅ fes.

(** [sets[0]['frameElements']] *)
Definition first_frameElements (sets : list AnnotationSet) : result (list FrameElement) :=
  match sets with
  | [] => Err IndexError
  | a :: _ => Ok (frameElements a)
  end.

Definition predictions : Type :=
  gset Z * gmap Span.t (option string) * gmap Span.t (gmap Span.t string).

Definition get_predictions_step (acc : predictions) (frame : Frame) : result predictions :=
  let '(target_coverage, frame_names, arguments) := acc in
  let* target_span := span_from_element (t_spans (target frame)) in
  let target_coverage := target_coverage ∪ Span.to_set target_span in
  let frame_names := <[target_span := t_name (target frame)]> frame_names in
  let* args :=
    match annotationSets frame with
    | Some sets => let* fes := first_frameElements sets in args_by_span fes
    | None => Ok ∅
    end in
  Ok (target_coverage, frame_names, <[target_span := args]> arguments).

Definition get_predictions_by_span (frames : list Frame) : result predictions :=
  foldM get_predictions_step (∅, ∅, ∅) frames.

(** ** Non-target extraction *)

Definition entry_span (entry : Entry) : Span.t :=
  Span.single (e_start entry) (e_end entry).

(** The test of the [excluded_ner_spans] comprehension *)
Definition ner_excluded (v : string * string) : bool :=
  let '(ner_type, text) := v in
  negb (String.eqb ner_type "wea")
  && negb (String.eqb ner_type "date" && bool_decide (lower text ∈ DATE_NAMES)).

(** [{sp for sp, (ner_type, text) in ner.items() if ...}] *)
Definition excluded_ner_spans (ner : gmap Span.t (string * string)) : gset Span.t :=
  dom (filter (fun kv : Span.t * (string * string) => ner_excluded kv.2 = true) ner).

(** [{Span(entry['start'], entry['end']): (entry['name'].lower(), entry['text']) ...}] *)
Definition typed_spans (entries : list Entry) : gmap Span.t (string * string) :=
  dict_of ((fun entry => (entry_span entry, (lower (e_name entry), e_text entry)))
             <$> entries).

Definition get_non_targets (gold_sentence : Sentence)
  : gmap Span.t (string * string) * gset Span.t * gmap Span.t string :=
  let wsl := typed_spans (wsl gold_sentence) in
  let ner := typed_spans (ner gold_sentence) in
  let poses := dict_of ((fun entry => (entry_span entry, upper (e_name entry)))
                          <$> pos gold_sentence) in
  let excluded_spans := dom wsl ∪ excluded_ner_spans ner in
  (wsl, excluded_spans, poses).

(** ** Sentence scorer *)

(** The state of the loop over the gold frames *)
Record gold_state : Type := mkGold {
  gold_target_spans : gset Span.t;
  gold_frame_target_coverage : gset Z;
  gold_frames : gmap Span.t (option string);
  gold_args : gmap Span.t (gmap Span.t string);
  excluded_spans : gset Span.t
}.

(** The diagnostics of one gold frame: nothing is kept of the printed text
    (the ['text'] of a span entry and the entity names are only printed), but
    rendering a span over the tokens can raise [IndexError] *)
Definition overlap_diagnostics (toks : list string) (target_span : Span.t)
    (excluded : gset Span.t) : result unit :=
  foldM (fun _ sp =>
           if Span.overlaps target_span sp
           then let* _ := Span.call_str target_span toks in
                let* _ := Span.call_str sp toks in Ok tt
           else Ok tt) tt (elements excluded).

Definition gold_step (toks : list string) (wsl : gmap Span.t (string * string))
    (st : gold_state) (frame : Frame) : result gold_state :=
  let* target_span := span_from_element (t_spans (target frame)) in
  let spans := {[target_span]} ∪ gold_target_spans st in
  let coverage := gold_frame_target_coverage st ∪ Span.to_set target_span in
  let* name := match t_name (target frame) with
               | Some n => Ok n
               | None => Err KeyError
               end in
  let frames := <[target_span := Some name]> (gold_frames st) in
  let* sets := match annotationSets frame with
               | Some sets => Ok sets
               | None => Err KeyError
               end in
  let* fes := first_frameElements sets in
  let* args := args_by_span fes in
  let gargs := <[target_span := args]> (gold_args st) in
  let* excluded :=
    if bool_decide (target_span ∈ excluded_spans st) then
      if bool_decide (target_span ∈ dom wsl) then
        let* _ := Span.call_str target_span toks in
        Ok (excluded_spans st ∖ {[target_span]})
      else Ok (excluded_spans st)
    else if 1 <? Span.len target_span then
      let* _ := overlap_diagnostics toks target_span (excluded_spans st) in
      Ok (excluded_spans st)
    else Ok (excluded_spans st) in
  Ok (mkGold spans coverage frames gargs excluded).

(** The tally of one missed or extra target span *)
Definition tally (toks : list string) (poses : gmap Span.t string)
    (counter : gmap string Z) (sp : Span.t) : result (gmap string Z) :=
  if Span.len sp =? 1 then
    let pos := default "?"%string (poses !! sp) in
    let counter := incr counter pos in
    let* text := Span.call_str sp toks in
    Ok (incr counter (text +:+ "_" +:+ pos))
  else
    let* text := Span.call_str sp toks in
    Ok (incr counter text).

(** Truth value of a frame name ([None] and [''] are false) *)
Definition name_truth (name : option string) : bool :=
  match name with
  | Some n => negb (String.eqb n EmptyString)
  | None => false
  end.

(** [any(d.values())] *)
Definition any_name (d : gmap Span.t (option string)) : bool :=
  existsb name_truth (map_to_list d).*2.

Definition any_args (d : gmap Span.t (gmap Span.t string)) : bool :=
  existsb (fun args : gmap Span.t string => negb (bool_decide (args = ∅)))
          (map_to_list d).*2.

(** [for span in d.keys(): if span not in keep: del d[span]] *)
Definition restrict {V} (keep : gset Span.t) (d : gmap Span.t V) : gmap Span.t V :=
  foldr (fun span acc => if decide (span ∈ keep) then acc else delete span acc)
        d (map_to_list d).*1.

(** [set(d.items())] *)
Definition items {V} `{Countable V} (d : gmap Span.t V) : gset (Span.t * V) :=
  list_to_set (map_to_list d).

(** [set((tspan,arg) for tspan, args in d.items() for arg in args)] *)
Definition arg_spans (d : gmap Span.t (gmap Span.t string)) : gset (Span.t * Span.t) :=
  list_to_set (flat_map (fun ta : Span.t * gmap Span.t string =>
                           (fun arg => (ta.1, arg)) <$> (map_to_list ta.2).*1)
                        (map_to_list d)).

(** [set((tspan,)+arg for tspan, args in d.items() for arg in args.items())] *)
Definition labeled_args (d : gmap Span.t (gmap Span.t string))
  : gset (Span.t * Span.t * string) :=
  list_to_set (flat_map (fun ta : Span.t * gmap Span.t string =>
                           (fun arg : Span.t * string => (ta.1, arg.1, arg.2))
                             <$> map_to_list ta.2)
                        (map_to_list d)).

(** The rows recorded when some arguments were predicted *)
Definition score_arguments (sentence_stats : PRCounter.t)
    (correct_target_spans : gset Span.t)
    (gold_args pred_args : gmap Span.t (gmap Span.t string)) : result PRCounter.t :=
  let* sentence_stats :=
    PRCounter.setitem sentence_stats "Argument spans with correct targets"
      (PRCounter.Pair (arg_spans gold_args) (arg_spans pred_args)) in
  let* sentence_stats :=
    PRCounter.setitem sentence_stats "Arguments, labeled, with correct targets"
      (PRCounter.Pair (labeled_args gold_args) (labeled_args pred_args)) in
  let gold_args := restrict correct_target_spans gold_args in
  let pred_args := restrict correct_target_spans pred_args in
  let* sentence_stats :=
    PRCounter.setitem sentence_stats "Argument spans (correct targets only)"
      (PRCounter.Pair (arg_spans gold_args) (arg_spans pred_args)) in
  PRCounter.setitem sentence_stats "Arguments, labeled (correct targets only)"
    (PRCounter.Pair (labeled_args gold_args) (labeled_args pred_args)).

(** The rows recorded when some frame names were predicted *)
Definition score_frames (sentence_stats : PRCounter.t)
    (gold_frames pred_frames : gmap Span.t (option string))
    (gold_args pred_args : gmap Span.t (gmap Span.t string)) : result PRCounter.t :=
  let correct_target_spans := dom gold_frames ∩ dom pred_frames in
  let* sentence_stats :=
    PRCounter.setitem sentence_stats "Frames with correct targets (ignore P)"
      (PRCounter.Pair (items gold_frames) (items pred_frames)) in
  let gold_frames := restrict correct_target_spans gold_frames in
  let pred_frames := restrict correct_target_spans pred_frames in
  if negb (bool_decide (size gold_frames = size pred_frames)
           && bool_decide (size pred_frames = size correct_target_spans))
  then Err AssertFrameSizes
  else
    let* sentence_stats :=
      PRCounter.setitem sentence_stats "Frames (correct targets only)"
        (PRCounter.Triple (Z.of_nat (size correct_target_spans))
                          (items gold_frames) (items pred_frames)) in
    if any_args pred_args
    then score_arguments sentence_stats correct_target_spans gold_args pred_args
    else Ok sentence_stats.

Definition score_sentence (gold predicted : Sentence) (errors : Errors)
  : result (PRCounter.t * Errors) :=
  let sentence_stats := PRCounter.empty in
  let num_tokens := Z.of_nat (length (tokens gold)) in
  let* (pred_target_coverage, pred_frames, pred_args) :=
    get_predictions_by_span (frames predicted) in
  let gold_target_coverage : gset Z := list_to_set (Span.range 0 num_tokens) in
  let '(wsl, excluded, poses) := get_non_targets gold in
  let* st := foldM (gold_step (tokens gold) wsl) (mkGold ∅ ∅ ∅ ∅ excluded) (frames gold) in
  let gold_target_coverage :=
    set_fold (fun span acc => acc ∖ Span.to_set span) gold_target_coverage
             (excluded_spans st) in
  let gold_target_spans :=
    set_fold (fun tkn acc =>
                if decide (tkn ∈ gold_frame_target_coverage st) then acc
                else {[Span.single tkn (tkn + 1)]} ∪ acc)
             (gold_target_spans st) gold_target_coverage in
  let* sentence_stats :=
    PRCounter.setitem sentence_stats "Targets by token"
      (PRCounter.Triple num_tokens gold_target_coverage pred_target_coverage) in
  let* sentence_stats :=
    PRCounter.setitem sentence_stats "Targets by span"
      (PRCounter.Pair gold_target_spans (dom pred_frames)) in
  let* miss := foldM (tally (tokens gold) poses) (miss errors)
                     (elements (gold_target_spans ∖ dom pred_frames)) in
  let* extra := foldM (tally (tokens gold) poses) (extra errors)
                      (elements (dom pred_frames ∖ gold_target_spans)) in
  let errors := mkErrors miss extra in
  let* sentence_stats :=
    if any_name pred_frames
    then score_frames sentence_stats (gold_frames st) pred_frames (gold_args st) pred_args
    else Ok sentence_stats in
  Ok (sentence_stats, errors).

(** ** Vocabulary of the statements, and sample sentences *)

(** [r] does not raise the size assertion *)
Definition sizes_hold {A} (r : result A) : Prop := r ≠ Err AssertFrameSizes.

(** A predicted frame carries a frame name *)
Definition frame_has_name (frame : Frame) : bool :=
  name_truth (t_name (target frame)).

(** A predicted frame carries arguments: its first annotation set has a
    frame element *)
Definition frame_has_args (frame : Frame) : bool :=
  match annotationSets frame with
  | Some (a :: _) => negb (bool_decide (frameElements a = []))
  | _ => false
  end.

(** The target span of a frame *)
Definition target_span (frame : Frame) : result Span.t :=
  span_from_element (t_spans (target frame)).

Definition no_errors : Errors := mkErrors ∅ ∅.

Definition rows_targets : list string :=
  ["Targets by token"; "Targets by span"]%string.

Definition rows_frames : list string :=
  rows_targets
  ++ ["Frames with correct targets (ignore P)"; "Frames (correct targets only)"]%string.

Definition rows_of (r : result (PRCounter.t * Errors)) : option (list string) :=
  match r with
  | Ok (c, _) => Some (PRCounter.labels c)
  | Err _ => None
  end.

(** Three tokens, one gold frame "Motion" on the third *)
Definition gold_motion : Sentence :=
  mkSentence ["a"; "b"; "c"]%string
    [mkFrame (mkTarget [mkRange 2 3] (Some "Motion"%string)) (Some [mkAnnotationSet []])]
    [] [] [mkEntry 0 1 "dt" "a"; mkEntry 2 3 "vb" "c"]%string.

(** The same target, named, without arguments *)
Definition pred_motion : Sentence :=
  mkSentence ["a"; "b"; "c"]%string
    [mkFrame (mkTarget [mkRange 2 3] (Some "Motion"%string)) None] [] [] [].

(** The same target twice: first named, then without a name *)
Definition pred_twice : Sentence :=
  mkSentence ["a"; "b"; "c"]%string
    [mkFrame (mkTarget [mkRange 2 3] (Some "Motion"%string)) None;
     mkFrame (mkTarget [mkRange 2 3] None) None] [] [] [].

(** A named target on the first token: no target of [gold_motion] is
    predicted *)
Definition pred_elsewhere : Sentence :=
  mkSentence ["a"; "b"; "c"]%string
    [mkFrame (mkTarget [mkRange 0 1] (Some "Motion"%string)) None] [] [] [].

(** One token, the letter e with an acute accent (code point 233), and no
    frame *)
Definition gold_accent : Sentence :=
  mkSentence [String (ascii_of_N 233) EmptyString] [] [] [] [].

(** A target without a name, beyond the end of an empty gold sentence *)
Definition gold_no_tokens : Sentence := mkSentence [] [] [] [] [].
Definition pred_unnamed : Sentence :=
  mkSentence ["a"]%string [mkFrame (mkTarget [mkRange 0 1] None) None] [] [] [].

(** The mantissa [p] of at most 53 bits, shifted to 53 bits *)
Definition shl53 (p : positive) : positive :=
  match (53 - Zpos (digits2_pos p))%Z with
  | Zpos k => Pos.iter xO p k
  | _ => p
  end.

(** The double of a float, on its specification *)
Definition sf_double (x : spec_float) : spec_float :=
  match x with
  | S754_finite s m e => S754_finite s m (e + 1)
  | _ => x
  end.

(** A float that is NaN or carries the sign [+] *)
Definition sf_nonneg (x : spec_float) : Prop :=
  match x with
  | S754_nan => True
  | S754_zero s | S754_infinity s | S754_finite s _ _ => s = false
  end.

(** The quotient of the cells [T] and [N] as floats, null when one is null *)
Definition Acc_quotient (t n : option Z) : option float :=
  match t, n with
  | Some t, Some n => Some (truediv t n)
  | _, _ => None
  end.

(** A row with its ratio cells computed from its count cells *)
Definition ratios (r : PRCounter.Row) : PRCounter.Row :=
  let p := truediv (PRCounter.Numer r) (PRCounter.PDenom r) in
  let r' := truediv (PRCounter.Numer r) (PRCounter.RDenom r) in
  PRCounter.mkRow (PRCounter.Numer r) (PRCounter.PDenom r) (PRCounter.RDenom r)
                  p r' (PRCounter.F_ratio p r') (PRCounter.T r) (PRCounter.N r)
                  (Acc_quotient (PRCounter.T r) (PRCounter.N r)).

(** The table of the summed rows with their ratios: what [a + b] returns
    when none of its divisions raises *)
Definition merged (a b : PRCounter.t) : result PRCounter.t :=
  let* new_df := PRCounter.df_add (PRCounter.fill b a) (PRCounter.fill a b) in
  Ok ((fun kr : string * PRCounter.Row => (kr.1, ratios kr.2)) <$> new_df).

(** A row with [T] whose [N] is 0 *)
Definition zero_row (r : PRCounter.Row) : bool :=
  match PRCounter.T r, PRCounter.N r with
  | Some _, Some n => n =? 0
  | _, _ => false
  end.

(** A table that holds a row without [N] and a row with [T] whose [N] is 0:
    the division of its [T] by its [N] raises *)
Definition zero_division (c : PRCounter.t) : bool :=
  PRCounter.object_N c && existsb (fun kr : string * PRCounter.Row => zero_row kr.2) c.

(** A row whose ratio cells are the ratios of its count cells, the counts
    being non-negative *)
Definition row_ok (r : PRCounter.Row) : Prop :=
  0 ≤ PRCounter.Numer r ∧ 0 ≤ PRCounter.PDenom r ∧ 0 ≤ PRCounter.RDenom r
  ∧ (∀ t, PRCounter.T r = Some t → 0 ≤ t)
  ∧ (∀ n, PRCounter.N r = Some n → 0 ≤ n)
  ∧ PRCounter.P r = truediv (PRCounter.Numer r) (PRCounter.PDenom r)
  ∧ PRCounter.R r = truediv (PRCounter.Numer r) (PRCounter.RDenom r)
  ∧ PRCounter.F r = PRCounter.F_ratio (PRCounter.P r) (PRCounter.R r)
  ∧ PRCounter.Acc r = Acc_quotient (PRCounter.T r) (PRCounter.N r).

(** The tables a program can build: [PRCounter()], [c[k] = v], [a + b] *)
Inductive reachable : PRCounter.t → Prop :=
| reach_empty : reachable PRCounter.empty
| reach_setitem {A} `{Countable A} (c : PRCounter.t) (k : string)
    (v : PRCounter.value A) (c' : PRCounter.t) :
    reachable c → PRCounter.setitem c k v = Ok c' → reachable c'
| reach_add (a b c : PRCounter.t) :
    reachable a → reachable b → PRCounter.add a b = Ok c → reachable c.

(** The doubles of the counts of a table are below [2^53], where the
    conversion of an integer to a float is exact *)
Definition small (c : PRCounter.t) : Prop :=
  ∀ k r, (k, r) ∈ c →
    2 * PRCounter.Numer r < 2 ^ 53
    ∧ 2 * PRCounter.PDenom r < 2 ^ 53
    ∧ 2 * PRCounter.RDenom r < 2 ^ 53
    ∧ (∀ t, PRCounter.T r = Some t → 2 * t < 2 ^ 53)
    ∧ (∀ n, PRCounter.N r = Some n → 2 * n < 2 ^ 53).

(** [r'] has the doubled counts of [r] (an unset cell staying unset) and its
    ratios *)
Definition doubled (r r' : PRCounter.Row) : Prop :=
  PRCounter.Numer r' = 2 * PRCounter.Numer r
  ∧ PRCounter.PDenom r' = 2 * PRCounter.PDenom r
  ∧ PRCounter.RDenom r' = 2 * PRCounter.RDenom r
  ∧ PRCounter.N r' = Z.mul 2 <$> PRCounter.N r
  ∧ PRCounter.T r' = Z.mul 2 <$> PRCounter.T r
  ∧ PRCounter.P r' = PRCounter.P r
  ∧ PRCounter.R r' = PRCounter.R r
  ∧ PRCounter.F r' = PRCounter.F r
  ∧ PRCounter.Acc r' = PRCounter.Acc r.

(** Two outcomes of merging agree: the same failure, or tables with the same
    row under every label *)
Definition agree (x y : result PRCounter.t) : Prop :=
  match x, y with
  | Ok c, Ok c' => ∀ k, PRCounter.get c k = PRCounter.get c' k
  | Err e, Err e' => e = e'
  | _, _ => False
  end.

(** The row of a merged table under one label, from the rows of the operands
    under that label: a missing row counts as the filled row *)
Definition row_sum (x y : option PRCounter.Row) : option (result PRCounter.Row) :=
  match x, y with
  | Some r, Some r' =>
      Some (let* z := PRCounter.add_row r r' in Ok (ratios z))
  | Some r, None =>
      Some (let* z := PRCounter.add_row r (PRCounter.fill_row r) in
            Ok (ratios z))
  | None, Some r' =>
      Some (let* z := PRCounter.add_row (PRCounter.fill_row r') r' in
            Ok (ratios z))
  | None, None => None
  end.

(** The row of [(a + b) + c] and of [a + (b + c)] under one label *)
Definition row_sum_l (x y z : option PRCounter.Row) : option (result PRCounter.Row) :=
  match row_sum x y with
  | None => row_sum None z
  | Some (Ok r) => row_sum (Some r) z
  | Some (Err e) => Some (Err e)
  end.

Definition row_sum_r (x y z : option PRCounter.Row) : option (result PRCounter.Row) :=
  match row_sum y z with
  | None => row_sum x None
  | Some (Ok r) => row_sum x (Some r)
  | Some (Err e) => Some (Err e)
  end.

(** The count cells of a row are non-negative *)
Definition nonneg_counts (r : PRCounter.Row) : Prop :=
  0 ≤ PRCounter.Numer r ∧ 0 ≤ PRCounter.PDenom r ∧ 0 ≤ PRCounter.RDenom r
  ∧ (∀ t, PRCounter.T r = Some t → 0 ≤ t)
  ∧ (∀ n, PRCounter.N r = Some n → 0 ≤ n).

(** The sum of a row with itself *)
Definition self_sum (r : PRCounter.Row) : PRCounter.Row :=
  PRCounter.mkRow
    (PRCounter.Numer r + PRCounter.Numer r)
    (PRCounter.PDenom r + PRCounter.PDenom r)
    (PRCounter.RDenom r + PRCounter.RDenom r)
    (PRCounter.P r + PRCounter.P r) (PRCounter.R r + PRCounter.R r)
    (PRCounter.F r + PRCounter.F r)
    (PRCounter.add_T (PRCounter.T r) (PRCounter.T r))
    ((fun n => n + n) <$> PRCounter.N r)
    (PRCounter.add_Acc (PRCounter.Acc r) (PRCounter.Acc r)).

(** The count of a column under a label, zero when the table lacks the label *)
Definition count (col : PRCounter.Row → Z) (c : PRCounter.t) (k : string) : Z :=
  default 0 (col <$> PRCounter.get c k).

(** Two sample tables: the target rows of one sentence, and a table with a
    target row and a frame row *)
Definition table_step {A} `{Countable A} (c : PRCounter.t) (k : string)
    (v : PRCounter.value A) : PRCounter.t :=
  match PRCounter.setitem c k v with
  | Ok c' => c'
  | Err _ => c
  end.

Definition table_a1 : PRCounter.t :=
  Eval vm_compute in
    table_step PRCounter.empty "Targets by token"
               (PRCounter.Triple 5 ({[1; 2]} : gset Z) {[2; 3]}).

Definition table_a : PRCounter.t :=
  Eval vm_compute in
    table_step table_a1 "Targets by span" (PRCounter.Pair ({[1]} : gset Z) {[1; 4]}).

Definition table_b1 : PRCounter.t :=
  Eval vm_compute in
    table_step PRCounter.empty "Targets by token"
               (PRCounter.Triple 3 ({[0; 1; 2]} : gset Z) {[1]}).

Definition table_b : PRCounter.t :=
  Eval vm_compute in
    table_step table_b1 "Frames (correct targets only)"
               (PRCounter.Triple 1 ({[7]} : gset Z) {[7]}).

(** Six tokens: the entities "Monday" (a date), "2024" (a date), "gun" (a
    weapon) and "Bob" (a person), and one multiword expression *)
Definition gold_entities : Sentence :=
  mkSentence ["Monday"; "2024"; "gun"; "Bob"; "New"; "York"]%string [] 
    [mkEntry 4 6 "MWE" "New York"]%string
    [mkEntry 0 1 "DATE" "Monday"; mkEntry 1 2 "date" "2024";
     mkEntry 2 3 "WEA" "gun"; mkEntry 3 4 "PER" "Bob"]%string
    [].

(** Unfold the row sums and normalise the sums of counts *)
Ltac row_sum_crush :=
  unfold row_sum_l, row_sum_r, row_sum, PRCounter.add_row, PRCounter.add_N,
    PRCounter.add_T, PRCounter.fill_row, ratios;
  cbn [bind PRCounter.N PRCounter.T PRCounter.Numer PRCounter.PDenom
       PRCounter.RDenom];
  rewrite ?Z.add_0_r, ?Z.add_0_l, ?Z.add_assoc;
  try reflexivity.

(** The (start, stop) pairs of an argument tuple *)
Definition pairs_of (args : list Z) : list Span.slice :=
  Span.zip (Span.stride2 args) (Span.stride2 (tail args)).

(** The index [i] lies in the range [p] *)
Definition covers (p : Span.slice) (i : Z) : Prop := p.1 ≤ i < p.2.

#[global] Instance covers_dec (p : Span.slice) (i : Z) : Decision (covers p i).
Proof. unfold covers. apply _. Defined.

(** The number of ranges of [l] that hold the index [i] *)
Definition cover_count (i : Z) (l : list Span.slice) : nat :=
  length (filter (fun p => covers p i) l).

(** A range with [start <= stop] *)
Definition forward (p : Span.slice) : Prop := p.1 ≤ p.2.

(** Ranges in the order of their starts *)
Definition by_start (p q : Span.slice) : Prop := p.1 ≤ q.1.

(** The counts of a row are in order: the correct items are among the
    predicted and among the gold ones; a row with [N] has [0 <= T <= N], and
    a row without [N] has no [T] *)
Definition bounded (r : PRCounter.Row) : Prop :=
  0 ≤ PRCounter.Numer r ≤ PRCounter.PDenom r
  ∧ PRCounter.Numer r ≤ PRCounter.RDenom r
  ∧ match PRCounter.N r, PRCounter.T r with
    | Some n, Some t => 0 ≤ t ≤ n
    | None, None => True
    | _, _ => False
    end.

(** The rows of the two tables under a common label both carry [N], or both
    lack it *)
Definition same_sizing (a b : PRCounter.t) : Prop :=
  ∀ k x y, PRCounter.get a k = Some x → PRCounter.get b k = Some y →
           (is_Some (PRCounter.N x) ↔ is_Some (PRCounter.N y)).

(** The labels [score_sentence] assigns, in the order it assigns them *)
Definition rows_all : list string :=
  rows_frames
  ++ ["Argument spans with correct targets";
      "Arguments, labeled, with correct targets";
      "Argument spans (correct targets only)";
      "Arguments, labeled (correct targets only)"]%string.

(** The labels assigned with a number of slots [N] *)
Definition sized_labels : list string :=
  ["Targets by token"; "Frames (correct targets only)"]%string.

(** A table whose labels are distinct and whose rows carry [N] exactly under
    the sized labels *)
Definition well_labeled (c : PRCounter.t) : Prop :=
  NoDup (PRCounter.labels c)
  ∧ ∀ k r, (k, r) ∈ c → (is_Some (PRCounter.N r) ↔ k ∈ sized_labels).

(** ** The main program *)

(** One pair of lines: [scores] is [None] before the first pair *)
Definition main_step (st : option PRCounter.t * Errors)
    (lines : Sentence * Sentence) : result (option PRCounter.t * Errors) :=
  let* (sent_scores, errors) := score_sentence lines.1 lines.2 st.2 in
  match st.1 with
  | None => Ok (Some sent_scores, errors)
  | Some scores =>
      let* scores := PRCounter.add scores sent_scores in Ok (Some scores, errors)
  end.

(** The loop over [zip(gold_file, pred_file)], on the deserialized lines: the
    final scores ([None] when a file has no line) and the error tallies *)
Definition main (gold_lines pred_lines : list Sentence)
  : result (option PRCounter.t * Errors) :=
  foldM main_step (None, no_errors) (zip gold_lines pred_lines).

(** A table built by row assignments that carries the first [n] labels of
    [rows_all], with [N] exactly under the sized labels *)
Definition shaped (n : nat) (c : PRCounter.t) : Prop :=
  reachable c
  ∧ PRCounter.labels c = take n rows_all
  ∧ ∀ k r, (k, r) ∈ c → (is_Some (PRCounter.N r) ↔ k ∈ sized_labels).

(** The state of the main loop holds no scores yet, or a well-labeled table
    built by row assignments and merges *)
Definition main_inv (st : option PRCounter.t * Errors) : Prop :=
  ∀ c, st.1 = Some c →
       well_labeled c ∧ reachable c ∧ PRCounter.labels c ⊆ rows_all.

(** Two results that both succeed, or fail with the same exception *)
Definition same_outcome {A B} (r1 : result A) (r2 : result B) : Prop :=
  match r1, r2 with
  | Ok _, Ok _ => True
  | Err e1, Err e2 => e1 = e2
  | _, _ => False
  end.

(** The table of one pair of sentences (scored with fresh error tallies; the
    empty table if scoring fails) *)
Definition sentence_table (lines : Sentence * Sentence) : PRCounter.t :=
  match score_sentence lines.1 lines.2 no_errors with
  | Ok (c, _) => c
  | Err _ => PRCounter.empty
  end.

(** The sum of a count column under one label over the tables of the
    sentence pairs *)
Definition total (col : PRCounter.Row → Z) (k : string)
    (pairs : list (Sentence * Sentence)) : Z :=
  foldr (fun lines acc => count col (sentence_table lines) k + acc) 0 pairs.

(** Every tally of [m] is at most the tally of [m'] *)
Definition tallies_le (m m' : gmap string Z) : Prop :=
  ∀ k, default 0 (m !! k) ≤ default 0 (m' !! k).

(** [r] raises no exception other than those of [L] *)
Definition raises_only {A} (L : list error) (r : result A) : Prop :=
  ∀ e, r = Err e → e ∈ L.

(** A range that holds an index: [start < stop] *)
Definition proper (p : Span.slice) : Prop := p.1 < p.2.

(** The range [q] begins after an index that follows the range [p] *)
Definition gap (p q : Span.slice) : Prop := p.2 < q.1.

(** Ranges that hold an index each, in ascending order, no two of them
    overlapping or adjacent *)
Definition gapped (s : list Span.slice) : Prop :=
  StronglySorted gap s ∧ Forall proper s.

(** A table with a row without [N] and a row whose [N] is 0: no frame target
    was predicted correctly *)
Definition table_z1 : PRCounter.t :=
  Eval vm_compute in
    table_step PRCounter.empty "Targets by span" (PRCounter.Pair ({[1]} : gset Z) {[1]}).

Definition table_z : PRCounter.t :=
  Eval vm_compute in
    table_step table_z1 "Frames (correct targets only)"
               (PRCounter.Triple 0 (∅ : gset Z) ∅).

(** One of the two tables holds a row without [N], and under some label of
    theirs every row they hold has the [N] 0 *)
Definition zero_sum (a b : PRCounter.t) : Prop :=
  (∃ k r, ((k, r) ∈ a ∨ (k, r) ∈ b) ∧ PRCounter.N r = None)
  ∧ ∃ k, (k ∈ PRCounter.labels a ∨ k ∈ PRCounter.labels b)
         ∧ (∀ x, (k, x) ∈ a → PRCounter.N x = Some 0)
         ∧ (∀ y, (k, y) ∈ b → PRCounter.N y = Some 0).

(** Decide a closed goal by evaluating its decision procedure *)
Ltac decide_by_eval :=
  match goal with
  | |- ?P => apply (bool_decide_unpack P); vm_compute; exact I
  end.

(** * Properties *)

(** ** Span: index sets *)

Lemma elem_of_iter (i : Z) (sp : Span.t) :
  i ∈ Span.iter sp ↔ ∃ s, s ∈ Span._s sp ∧ s.1 ≤ i < s.2.
Proof.
  unfold Span.iter, Span.range. rewrite list_elem_of_In, in_flat_map.
  split; intros (s & Hs & Hi); exists s.
  - apply list_elem_of_In in Hs. apply list_elem_of_In, elem_of_seqZ in Hi.
    split; [done | lia].
  - split; [by apply list_elem_of_In |].
    apply list_elem_of_In, elem_of_seqZ. lia.
Qed.

Lemma elem_of_to_set (i : Z) (sp : Span.t) :
  i ∈ Span.to_set sp ↔ ∃ s, s ∈ Span._s sp ∧ s.1 ≤ i < s.2.
Proof. unfold Span.to_set. rewrite elem_of_list_to_set. apply elem_of_iter. Qed.

Lemma elem_of_single (i start stop : Z) :
  i ∈ Span.to_set (Span.single start stop) ↔ start ≤ i < stop.
Proof.
  rewrite elem_of_to_set. simpl. split.
  - intros (s & Hs & Hi). apply list_elem_of_singleton in Hs. by subst.
  - intros Hi. exists (start, stop). split; [apply list_elem_of_singleton|]; done.
Qed.

Lemma init_single (start stop : Z) :
  Span.init [start; stop] = Ok (Span.single start stop).
Proof. reflexivity. Qed.

Lemma nonempty_true (X : gset Z) : Span.nonempty X = true ↔ ∃ i, i ∈ X.
Proof.
  unfold Span.nonempty. rewrite bool_decide_eq_true. split.
  - intros HX. by apply set_choose_L.
  - intros [i Hi] ->. by apply not_elem_of_empty in Hi.
Qed.

(** [overlaps_partially] holds exactly when each span has an index that the
    other lacks; whether the two spans share an index plays no part. *)
Lemma difference_empty_subseteq (X Y : gset Z) : X ∖ Y = ∅ → X ⊆ Y.
Proof.
  intros He i Hi. destruct (decide (i ∈ Y)) as [|Hn]; [done|].
  assert (Hd : i ∈ X ∖ Y) by (apply elem_of_difference; done).
  rewrite He in Hd. by apply not_elem_of_empty in Hd.
Qed.

(** [overlaps_partially] holds exactly when each span has an index that the
    other lacks; whether the two spans share an index plays no part. *)
Lemma overlaps_partially_iff (a b : Span.t) :
  Span.overlaps_partially a b = true
  ↔ ¬ (Span.to_set b ⊆ Span.to_set a) ∧ ¬ (Span.to_set a ⊆ Span.to_set b).
Proof.
  unfold Span.overlaps_partially.
  rewrite andb_true_iff, !nonempty_true. split.
  - intros [[i Hi] [j Hj]].
    apply elem_of_difference in Hi as [Hi1 Hi2].
    apply elem_of_difference in Hj as [Hj1 Hj2].
    split; intros Hsub; [apply Hi2 | apply Hj2]; by apply Hsub.
  - intros [Hba Hab]. split.
    + destruct (decide (Span.to_set b ∖ Span.to_set a = ∅)) as [He|Hne].
      * exfalso. by apply Hba, difference_empty_subseteq.
      * by apply set_choose_L.
    + destruct (decide (Span.to_set a ∖ Span.to_set b = ∅)) as [He|Hne].
      * exfalso. by apply Hab, difference_empty_subseteq.
      * by apply set_choose_L.
Qed.

Example overlaps_partially_3_6_5_8 :
  Span.overlaps_partially (Span.single 3 6) (Span.single 5 8) = true.
Proof. reflexivity. Qed.

Example overlaps_partially_3_6_3_6 :
  Span.overlaps_partially (Span.single 3 6) (Span.single 3 6) = false.
Proof. reflexivity. Qed.

(** C3. [overlaps_partially] is documented by its name and by the scorer's
    description as "the index sets intersect and neither contains the
    other". On [Span(3,6)] and [Span(7,9)], which share no index (so that
    [overlaps] is false), it answers true: the intersection is never tested. *)
Theorem overlaps_partially_disjoint :
  let a := Span.single 3 6 in
  let b := Span.single 7 9 in
  Span.init [3; 6] = Ok a ∧ Span.init [7; 9] = Ok b
  ∧ Span.to_set a ∩ Span.to_set b = ∅
  ∧ Span.overlaps a b = false
  ∧ Span.overlaps_partially a b = true.
Proof.
  do 2 (split; [reflexivity|]). split; [|split; reflexivity].
  apply set_eq. intros i. rewrite elem_of_intersection, !elem_of_single.
  split; [lia | by intros ?%not_elem_of_empty].
Qed.

(** ** Span: addition *)

Lemma to_set_single_union (a b c : Z) :
  a ≤ b → b ≤ c →
  Span.to_set (Span.single a c)
  = Span.to_set (Span.single a b) ∪ Span.to_set (Span.single b c).
Proof.
  intros Hab Hbc. apply set_eq. intros i.
  rewrite elem_of_union, !elem_of_single. lia.
Qed.

Lemma add_single (a1 a2 b1 b2 : Z) :
  Span.add (Span.single a1 a2) (Span.single b1 b2)
  = if a2 =? b1 then Ok (Span.single a1 b2)
    else if b2 =? a1 then Ok (Span.single b1 a2)
    else Err NonAdjacentSpanError.
Proof. reflexivity. Qed.

Example add_3_6_6_9 :
  Span.add (Span.single 3 6) (Span.single 6 9) = Ok (Span.single 3 9)
  ∧ Span.eq (Span.single 3 9) (Span.single 3 9) = true.
Proof. split; reflexivity. Qed.

Example add_3_6_7_9 :
  Span.add (Span.single 3 6) (Span.single 7 9) = Err NonAdjacentSpanError.
Proof. reflexivity. Qed.

(** C4, as the claim states it, fails on a reversed range, which the
    constructor accepts: [Span(3,6) + Span(6,4)] is [Span(3,4)], which covers
    index 3 only, while the operands cover 3, 4 and 5. *)
Lemma add_reversed_not_union :
  Span.init [6; 4] = Ok (Span.single 6 4)
  ∧ Span.add (Span.single 3 6) (Span.single 6 4) = Ok (Span.single 3 4)
  ∧ Span.to_set (Span.single 3 4)
    ≠ Span.to_set (Span.single 3 6) ∪ Span.to_set (Span.single 6 4).
Proof.
  do 2 (split; [reflexivity|]). intros Heq.
  assert (Hin : 4 ∈ Span.to_set (Span.single 3 6) ∪ Span.to_set (Span.single 6 4)).
  { apply elem_of_union. left. apply elem_of_single. lia. }
  rewrite <- Heq in Hin. apply elem_of_single in Hin. lia.
Qed.

(** C4 (amended). Addition is defined between two single-range Spans only
    (an assertion fails otherwise). When the left operand's stop equals the
    right operand's start the result is the single-range Span from the left
    start to the right stop; failing that, when the right operand's stop
    equals the left operand's start, it is the single-range Span from the
    right start to the left stop; otherwise the addition fails with the
    non-adjacency error. When both operands have [start <= stop], the result
    covers exactly the union of their indices. *)
Theorem add_spec (a b : Span.t) :
  (length (Span._s a) ≠ 1%nat ∨ length (Span._s b) ≠ 1%nat →
   Span.add a b = Err AssertFalse)
  ∧ (∀ a1 a2 b1 b2,
       Span._s a = [(a1, a2)] → Span._s b = [(b1, b2)] →
       (a2 = b1 → Span.add a b = Ok (Span.single a1 b2))
       ∧ (a2 ≠ b1 → b2 = a1 → Span.add a b = Ok (Span.single b1 a2))
       ∧ (a2 ≠ b1 → b2 ≠ a1 → Span.add a b = Err NonAdjacentSpanError)
       ∧ (a1 ≤ a2 → b1 ≤ b2 → ∀ c, Span.add a b = Ok c →
          length (Span._s c) = 1%nat
          ∧ Span.to_set c = Span.to_set a ∪ Span.to_set b)).
Proof.
  destruct a as [sa], b as [sb]. simpl. split.
  - intros Hlen. unfold Span.add. simpl.
    destruct sa as [|x [|x' sa]]; try reflexivity;
      destruct sb as [|y [|y' sb]]; try reflexivity.
    simpl in Hlen. destruct Hlen as [Hn|Hn]; by destruct Hn.
  - intros a1 a2 b1 b2 -> ->.
    change (Span.mk [(a1, a2)]) with (Span.single a1 a2).
    change (Span.mk [(b1, b2)]) with (Span.single b1 b2).
    rewrite add_single. repeat split.
    + intros ->. by rewrite Z.eqb_refl.
    + intros Hne ->. rewrite (proj2 (Z.eqb_neq _ _) Hne). by rewrite Z.eqb_refl.
    + intros Hne Hne'.
      by rewrite (proj2 (Z.eqb_neq _ _) Hne), (proj2 (Z.eqb_neq _ _) Hne').
    + destruct (a2 =? b1) eqn:E1; [|destruct (b2 =? a1) eqn:E2]; [| |done];
        injection H1 as <-; reflexivity.
    + destruct (Z.eqb_spec a2 b1) as [->|Hne]; [|destruct (Z.eqb_spec b2 a1) as [->|Hne']];
        [| |done]; injection H1 as <-.
      * by apply to_set_single_union.
      * rewrite (union_comm_L (Span.to_set (Span.single a1 a2))).
        by apply to_set_single_union.
Qed.

(** ** Span: ordering *)

Lemma lt_single (a1 a2 b1 b2 : Z) :
  Span.lt (Span.single a1 a2) (Span.single b1 b2) = Ok ((a1 <? b1) || (a2 <? b2)).
Proof. unfold Span.lt. simpl. by destruct (a1 <? b1). Qed.

(** [a < b] is the disjunction of the two comparisons *)
Lemma lt_spec (a b : Span.t) (ma mb xa xb : Z) :
  Span.minstart a = Ok ma → Span.minstart b = Ok mb →
  Span.maxstop a = Ok xa → Span.maxstop b = Ok xb →
  Span.lt a b = Ok ((ma <? mb) || (xa <? xb)).
Proof.
  intros Ha Hb Hxa Hxb. unfold Span.lt. rewrite Ha, Hb, Hxa, Hxb. simpl.
  by destruct (ma <? mb).
Qed.

(** The two parts of C8 that hold *)
Lemma lt_minstart (a b : Span.t) (ma mb xa xb : Z) :
  Span.minstart a = Ok ma → Span.minstart b = Ok mb →
  Span.maxstop a = Ok xa → Span.maxstop b = Ok xb →
  (ma < mb → Span.lt a b = Ok true)
  ∧ (ma = mb → xa < xb → Span.lt a b = Ok true).
Proof.
  intros Ha Hb Hxa Hxb. rewrite (lt_spec a b ma mb xa xb) by done. split.
  - intros Hlt. by rewrite (proj2 (Z.ltb_lt _ _) Hlt).
  - intros _ Hlt. rewrite (proj2 (Z.ltb_lt _ _) Hlt). by rewrite orb_true_r.
Qed.

(** C8. An ordering by minimum start, then by maximum stop, never has
    [b < a] when [a.minstart < b.minstart]. [__lt__] is the bare disjunction
    of the two comparisons, without the tie on [minstart] that the second
    one needs: on [a = Span(0,10)] and [b = Span(1,5)] both [a < b] and
    [b < a] hold. *)
Theorem lt_both_ways :
  let a := Span.single 0 10 in
  let b := Span.single 1 5 in
  Span.init [0; 10] = Ok a ∧ Span.init [1; 5] = Ok b
  ∧ Span.minstart a = Ok 0 ∧ Span.minstart b = Ok 1
  ∧ Span.lt a b = Ok true
  ∧ Span.lt b a = Ok true.
Proof. repeat split; reflexivity. Qed.

(** ** Span: equality, hashing and degenerate ranges *)

Lemma eq_iff (a b : Span.t) : Span.eq a b = true ↔ Span._s a = Span._s b.
Proof. unfold Span.eq. apply bool_decide_eq_true. Qed.

Lemma eq_iff_Leibniz (a b : Span.t) : Span.eq a b = true ↔ a = b.
Proof.
  rewrite eq_iff. destruct a, b. simpl. split; [by intros -> | by intros [= ->]].
Qed.

Lemma hash_ext (a b : Span.t) : Span._s a = Span._s b → Span.hash a = Span.hash b.
Proof. unfold Span.hash. by intros ->. Qed.

(** C7. Equality and the hash read the stored ranges, not the covered
    indices: [Span(2,2, 3,6)] and [Span(3,6)] are both constructed, cover the
    same indices 3, 4, 5, and are neither equal nor hashed alike. *)
Theorem eq_by_ranges :
  (∀ a b, Span.eq a b = true ↔ Span._s a = Span._s b)
  ∧ (∀ a b, Span._s a = Span._s b → Span.hash a = Span.hash b)
  ∧ ∃ a b,
      Span.init [2; 2; 3; 6] = Ok a ∧ Span.init [3; 6] = Ok b
      ∧ Span.to_set a = Span.to_set b
      ∧ Span.iter a = Span.iter b
      ∧ Span.eq a b = false
      ∧ Span.hash a ≠ Span.hash b.
Proof.
  split; [apply eq_iff|]. split; [apply hash_ext|].
  exists (Span.mk [(2, 2); (3, 6)]), (Span.single 3 6).
  repeat split; try reflexivity. by vm_compute.
Qed.

Lemma range_empty (start stop : Z) : stop ≤ start → Span.range start stop = [].
Proof. intros Hle. unfold Span.range. apply seqZ_nil. lia. Qed.

(** C10. The constructor takes a pair with [stop <= start] as it is
    ([Span(k,k)], [Span(6,3)]): the Span holds that one range, which gives
    no index to iteration, membership or length, and which equality and the
    hash read all the same. Next to other ranges such a range is kept too
    when it touches none of them: [Span(2,2, 3,6)] covers what [Span(3,6)]
    covers and differs from it. *)
Theorem degenerate_range (start stop : Z) :
  stop ≤ start →
  ∃ sp,
    Span.init [start; stop] = Ok sp
    ∧ Span._s sp = [(start, stop)]
    ∧ Span.iter sp = []
    ∧ (∀ i, Span.contains i sp = false)
    ∧ Span.len sp = 0
    ∧ Span.hash sp = 17 * stop + start
    ∧ (∀ start' stop',
         Span.eq sp (Span.single start' stop') = true
         ↔ start' = start ∧ stop' = stop)
    ∧ Span.init [2; 2; 3; 6] = Ok (Span.mk [(2, 2); (3, 6)])
    ∧ Span.iter (Span.mk [(2, 2); (3, 6)]) = Span.iter (Span.single 3 6)
    ∧ Span.eq (Span.mk [(2, 2); (3, 6)]) (Span.single 3 6) = false.
Proof.
  intros Hle. exists (Span.single start stop).
  assert (Hiter : Span.iter (Span.single start stop) = []).
  { unfold Span.iter. simpl. by rewrite range_empty. }
  split; [apply init_single|]. split; [reflexivity|]. split; [exact Hiter|].
  split.
  { intros i. unfold Span.contains. rewrite Hiter.
    apply bool_decide_eq_false. apply not_elem_of_nil. }
  split.
  { unfold Span.len, Span.to_set. rewrite Hiter. reflexivity. }
  split.
  { unfold Span.hash. simpl. lia. }
  split.
  { intros start' stop'. rewrite eq_iff. simpl. split.
    - by intros [= -> ->].
    - by intros [-> ->]. }
  repeat split; reflexivity.
Qed.

Lemma degenerate_range_witness :
  3 ≤ 6 ∧ ∃ sp, Span.init [6; 3] = Ok sp ∧ Span.iter sp = [] ∧ Span.len sp = 0.
Proof.
  split; [lia|].
  destruct (degenerate_range 6 3 ltac:(lia)) as (sp & H1 & _ & H3 & _ & H5 & _).
  exists sp. repeat split; assumption.
Defined.

(** ** Non-target extraction *)

Section dict_of.
Context {K V : Type} `{Countable K}.




End dict_of.





Example non_targets_sample :
  (get_non_targets gold_entities).1.2
  = {[Span.single 1 2; Span.single 3 4; Span.single 4 6]}.
Proof. decide_by_eval. Qed.


(** ** The result monad *)

Lemma bind_Ok {A B} (r : result A) (f : A → result B) (b : B) :
  bind r f = Ok b ↔ ∃ a, r = Ok a ∧ f a = Ok b.
Proof.
  destruct r as [a|e]; simpl.
  - split; [by exists a | by intros (a' & [= <-] & Hf)].
  - split; [done | by intros (a' & [=] & _)].
Qed.

Lemma bind_Err {A B} (r : result A) (f : A → result B) (e : error) :
  bind r f = Err e ↔ r = Err e ∨ ∃ a, r = Ok a ∧ f a = Err e.
Proof.
  destruct r as [a|e']; simpl.
  - split; [right; by exists a | intros [[=]|(a' & [= <-] & Hf)]; done].
  - split; [intros [= ->]; by left | intros [[= ->]|(a' & [=] & _)]; done].
Qed.

Lemma foldM_app {A S} (f : S → A → result S) (s : S) (l1 l2 : list A) :
  foldM f s (l1 ++ l2) = bind (foldM f s l1) (fun s' => foldM f s' l2).
Proof.
  revert s. induction l1 as [|x l1 IH]; intros s; simpl; [done|].
  destruct (f s x); simpl; [apply IH | done].
Qed.

(** An invariant of the state is kept along a successful fold *)
Lemma foldM_invariant {A S} (I : S → Prop) (f : S → A → result S) (l : list A) :
  (∀ s x s', x ∈ l → I s → f s x = Ok s' → I s') →
  ∀ s s', I s → foldM f s l = Ok s' → I s'.
Proof.
  induction l as [|x l IH]; intros Hstep s s' Hs Hfold; simpl in Hfold.
  - by injection Hfold as <-.
  - apply bind_Ok in Hfold as (s1 & Hx & Hfold).
    apply (IH (fun s0 y s0' Hy => Hstep s0 y s0' (list_elem_of_further _ _ _ Hy)) s1 s');
      [|done].
    apply (Hstep s x s1); [apply list_elem_of_here | done | done].
Qed.

(** A fold fails with an error only if some step does *)
Lemma foldM_Err {A S} (f : S → A → result S) (l : list A) (s : S) (e : error) :
  foldM f s l = Err e → ∃ s0 x, x ∈ l ∧ f s0 x = Err e.
Proof.
  revert s. induction l as [|x l IH]; intros s Hfold; simpl in Hfold; [done|].
  apply bind_Err in Hfold as [Hx|(s1 & Hx & Hfold)].
  - exists s, x. split; [apply list_elem_of_here | done].
  - destruct (IH s1 Hfold) as (s0 & y & Hy & Hf).
    exists s0, y. split; [by apply list_elem_of_further | done].
Qed.

(** ** PRCounter: the rows a table holds *)

Lemma setitem_labels {A} `{Countable A} (c c' : PRCounter.t) (k : string)
    (v : PRCounter.value A) :
  PRCounter.setitem c k v = Ok c' →
  PRCounter.labels c' = PRCounter.labels c ++ [k].
Proof.
  unfold PRCounter.setitem. intros Hset.
  apply bind_Ok in Hset as (_ & _ & Hset).
  apply bind_Ok in Hset as (ta & _ & Hset).
  injection Hset as <-. unfold PRCounter.labels. by rewrite fmap_app.
Qed.

Lemma setitem_Err {A} `{Countable A} (c : PRCounter.t) (k : string)
    (v : PRCounter.value A) (e : error) :
  PRCounter.setitem c k v = Err e → e = AssertNPositive ∨ e = AssertTNonNegative.
Proof.
  unfold PRCounter.setitem. intros Hset.
  apply bind_Err in Hset as [Hset|(_ & _ & Hset)].
  - left. destruct (PRCounter.N_of v); [|done].
    by destruct (_ && _); [injection Hset as <-|].
  - apply bind_Err in Hset as [Hset|(ta & _ & Hset)]; [|done].
    right. destruct (PRCounter.N_of v); [|done].
    by destruct (negb _); [injection Hset as <-|].
Qed.

(** ** Sentence scorer: the frame maps restricted to the correct targets *)

Section restrict.
Context {V : Type}.
Implicit Types (d : gmap Span.t V) (keep : gset Span.t).

Lemma restrict_fold_lookup keep d (l : list Span.t) (k : Span.t) :
  foldr (fun span acc => if decide (span ∈ keep) then acc else delete span acc) d l !! k
  = if decide (k ∈ keep) then d !! k
    else if decide (k ∈ l) then None else d !! k.
Proof.
  induction l as [|x l IH]; simpl.
  - destruct (decide (k ∈ keep)); [done|].
    destruct (decide (k ∈ [])) as [Hin|]; [by apply not_elem_of_nil in Hin | done].
  - destruct (decide (x ∈ keep)) as [Hx|Hx].
    + rewrite IH. destruct (decide (k ∈ keep)) as [Hk|Hk]; [done|].
      assert (k ≠ x) by congruence.
      destruct (decide (k ∈ l)), (decide (k ∈ x :: l)) as [Hin|Hin]; try done.
      * exfalso. apply Hin. by apply list_elem_of_further.
      * apply elem_of_cons in Hin as [?|?]; done.
    + destruct (decide (k = x)) as [->|Hne].
      * rewrite lookup_delete_eq. destruct (decide (x ∈ keep)); [done|].
        destruct (decide (x ∈ x :: l)) as [|Hin]; [done|].
        exfalso. apply Hin, list_elem_of_here.
      * rewrite lookup_delete_ne by done. rewrite IH.
        destruct (decide (k ∈ keep)); [done|].
        destruct (decide (k ∈ l)), (decide (k ∈ x :: l)) as [Hin|Hin]; try done.
        -- exfalso. apply Hin. by apply list_elem_of_further.
        -- apply elem_of_cons in Hin as [?|?]; done.
Qed.

Lemma restrict_lookup keep d (k : Span.t) :
  restrict keep d !! k = if decide (k ∈ keep) then d !! k else None.
Proof.
  unfold restrict. rewrite restrict_fold_lookup.
  destruct (decide (k ∈ keep)); [done|].
  destruct (decide (k ∈ (map_to_list d).*1)) as [|Hin]; [done|].
  destruct (d !! k) as [v|] eqn:Hk; [|done].
  exfalso. apply Hin. apply list_elem_of_fmap. exists (k, v).
  split; [done|]. by apply elem_of_map_to_list.
Qed.

Lemma restrict_filter keep d :
  restrict keep d = filter (fun kv : Span.t * V => kv.1 ∈ keep) d.
Proof.
  apply map_eq. intros k. rewrite restrict_lookup.
  destruct (decide (k ∈ keep)) as [Hk|Hk].
  - destruct (d !! k) as [v|] eqn:Hd; symmetry.
    + by apply map_lookup_filter_Some.
    + apply map_lookup_filter_None. by left.
  - symmetry. apply map_lookup_filter_None. right. intros v _. done.
Qed.

Lemma restrict_dom keep d : dom (restrict keep d) = dom d ∩ keep.
Proof.
  apply set_eq. intros k. rewrite elem_of_intersection, !elem_of_dom, restrict_lookup.
  destruct (decide (k ∈ keep)); split; try tauto.
  intros [v Hv]. done.
Qed.

Lemma restrict_size keep d : keep ⊆ dom d → size (restrict keep d) = size keep.
Proof.
  intros Hsub. rewrite <- size_dom, restrict_dom. f_equal.
  apply set_eq. intros k. rewrite elem_of_intersection. split; [tauto|].
  intros Hk. split; [by apply Hsub | done].
Qed.

End restrict.

(** ** Sentence scorer: where the size assertion can fail *)

Lemma sizes_hold_Ok {A} (a : A) : sizes_hold (Ok a).
Proof. done. Qed.

Lemma sizes_hold_Err {A} (e : error) :
  e ≠ AssertFrameSizes → sizes_hold (Err e : result A).
Proof. intros Hne [= ->]. done. Qed.

Lemma sizes_hold_bind {A B} (r : result A) (f : A → result B) :
  sizes_hold r → (∀ a, r = Ok a → sizes_hold (f a)) → sizes_hold (bind r f).
Proof.
  intros Hr Hf Hb. apply bind_Err in Hb as [Hb|(a & Ha & Hb)]; [done|].
  by apply (Hf a).
Qed.

Lemma sizes_hold_foldM {A S} (f : S → A → result S) (s : S) (l : list A) :
  (∀ s x, sizes_hold (f s x)) → sizes_hold (foldM f s l).
Proof.
  intros Hf Hfold. apply foldM_Err in Hfold as (s0 & x & _ & Hx). by apply (Hf s0 x).
Qed.

Lemma sizes_hold_mapM {A B} (f : A → result B) (l : list A) :
  (∀ x, sizes_hold (f x)) → sizes_hold (mapM f l).
Proof.
  intros Hf. induction l as [|x l IH]; simpl; [done|].
  apply sizes_hold_bind; [apply Hf|]. intros y _.
  apply sizes_hold_bind; [apply IH | done].
Qed.

Lemma sizes_hold_init_loop (s : list Span.slice) (first : bool) (ps : list Span.slice) :
  sizes_hold (Span.init_loop s first ps).
Proof.
  revert s first. induction ps as [|[start stop] ps IH]; intros s first; simpl; [done|].
  destruct first; [apply IH|].
  destruct (Span.overlaps _ _); [done|].
  destruct (last s); [|done]. destruct (_ =? _); apply IH.
Qed.

Lemma sizes_hold_init (args : list Z) : sizes_hold (Span.init args).
Proof.
  unfold Span.init. destruct (_ || _); [done|].
  apply sizes_hold_bind; [apply sizes_hold_init_loop | done].
Qed.

Lemma sizes_hold_call_str (sp : Span.t) (toks : list string) :
  sizes_hold (Span.call_str sp toks).
Proof.
  unfold Span.call_str, Span.call_list.
  apply sizes_hold_bind.
  - apply sizes_hold_mapM. intros i.
    unfold Span.getitem. destruct (_ || _); [done|]. by destruct (_ !! _).
  - intros texts _. unfold Span.str. by destruct (Span.all_ascii _).
Qed.

Lemma sizes_hold_args_by_span (fes : list FrameElement) :
  sizes_hold (args_by_span fes).
Proof.
  apply sizes_hold_foldM. intros m fe.
  apply sizes_hold_bind; [apply sizes_hold_init | done].
Qed.

Lemma sizes_hold_first_frameElements (sets : list AnnotationSet) :
  sizes_hold (first_frameElements sets).
Proof. by destruct sets. Qed.

Lemma sizes_hold_get_predictions (frames : list Frame) :
  sizes_hold (get_predictions_by_span frames).
Proof.
  apply sizes_hold_foldM. intros [[cov names] args] frame. simpl.
  apply sizes_hold_bind; [apply sizes_hold_init|]. intros sp _.
  apply sizes_hold_bind; [|done].
  destruct (annotationSets frame); [|done].
  apply sizes_hold_bind; [apply sizes_hold_first_frameElements|].
  intros fes _. apply sizes_hold_args_by_span.
Qed.

Lemma sizes_hold_gold_step toks wsl_map (st : gold_state) (frame : Frame) :
  sizes_hold (gold_step toks wsl_map st frame).
Proof.
  unfold gold_step.
  apply sizes_hold_bind; [apply sizes_hold_init|]. intros sp _.
  apply sizes_hold_bind; [by destruct (t_name _)|]. intros name _.
  apply sizes_hold_bind; [by destruct (annotationSets _)|]. intros sets _.
  apply sizes_hold_bind; [apply sizes_hold_first_frameElements|]. intros fes _.
  apply sizes_hold_bind; [apply sizes_hold_args_by_span|]. intros args _.
  apply sizes_hold_bind; [|done].
  destruct (bool_decide (sp ∈ _)).
  - destruct (bool_decide _); [|done].
    apply sizes_hold_bind; [apply sizes_hold_call_str | done].
  - destruct (_ <? _); [|done].
    apply sizes_hold_bind; [|done]. unfold overlap_diagnostics.
    apply sizes_hold_foldM. intros _ sp'. destruct (Span.overlaps _ _); [|done].
    apply sizes_hold_bind; [apply sizes_hold_call_str|]. intros _ _.
    apply sizes_hold_bind; [apply sizes_hold_call_str | done].
Qed.

Lemma sizes_hold_tally toks poses counter (sp : Span.t) :
  sizes_hold (tally toks poses counter sp).
Proof.
  unfold tally.
  destruct (_ =? _); (apply sizes_hold_bind; [apply sizes_hold_call_str | done]).
Qed.

Lemma sizes_hold_setitem {A} `{Countable A} (c : PRCounter.t) (k : string)
    (v : PRCounter.value A) :
  sizes_hold (PRCounter.setitem c k v).
Proof. intros Hset. by apply setitem_Err in Hset as [?|?]. Qed.

Lemma sizes_hold_score_arguments stats correct ga pa :
  sizes_hold (score_arguments stats correct ga pa).
Proof.
  unfold score_arguments.
  do 3 (apply sizes_hold_bind; [apply sizes_hold_setitem|]; intros ? _).
  apply sizes_hold_setitem.
Qed.

(** C9. With [correct_target_spans = set(gold_frames) & set(pred_frames)],
    the two frame maps restricted to it have as many entries as it has
    spans, whatever the maps are; so neither the frame-scoring stage nor the
    sentence scorer ever raises the size assertion. *)
Theorem frame_sizes_agree (gold_frames pred_frames : gmap Span.t (option string)) :
  let correct_target_spans := dom gold_frames ∩ dom pred_frames in
  size (restrict correct_target_spans gold_frames) = size correct_target_spans
  ∧ size (restrict correct_target_spans pred_frames) = size correct_target_spans
  ∧ (∀ stats gold_args pred_args,
       score_frames stats gold_frames pred_frames gold_args pred_args
       ≠ Err AssertFrameSizes)
  ∧ (∀ gold predicted errors,
       score_sentence gold predicted errors ≠ Err AssertFrameSizes).
Proof.
  intros correct.
  assert (Hg : size (restrict correct gold_frames) = size correct).
  { apply restrict_size. intros k Hk. by apply elem_of_intersection in Hk as [? _]. }
  assert (Hp : size (restrict correct pred_frames) = size correct).
  { apply restrict_size. intros k Hk. by apply elem_of_intersection in Hk as [_ ?]. }
  assert (Hframes : ∀ (g p : gmap Span.t (option string)) stats ga pa,
             sizes_hold (score_frames stats g p ga pa)).
  { intros g p stats ga pa. unfold score_frames.
    apply sizes_hold_bind; [apply sizes_hold_setitem|]. intros stats1 _.
    rewrite !restrict_size
      by (intros k Hk; apply elem_of_intersection in Hk as [? ?]; done).
    rewrite !bool_decide_eq_true_2 by done. simpl.
    apply sizes_hold_bind; [apply sizes_hold_setitem|]. intros stats2 _.
    destruct (any_args pa); [apply sizes_hold_score_arguments | done]. }
  split; [done|]. split; [done|]. split; [intros; apply Hframes|].
  intros gold predicted errors. unfold score_sentence.
  apply sizes_hold_bind; [apply sizes_hold_get_predictions|].
  intros [[cov pf] pa] _. destruct (get_non_targets gold) as [[wsl_map excl] poses].
  apply sizes_hold_bind;
    [apply sizes_hold_foldM; intros; apply sizes_hold_gold_step|]. intros st _.
  do 2 (apply sizes_hold_bind; [apply sizes_hold_setitem|]; intros ? _).
  do 2 (apply sizes_hold_bind;
          [apply sizes_hold_foldM; intros; apply sizes_hold_tally|]; intros ? _).
  apply sizes_hold_bind; [|done].
  destruct (any_name pf); [apply Hframes | done].
Qed.

(** ** Sentence scorer: the stages and the rows they record *)

Lemma existsb_false {A} (f : A → bool) (l : list A) :
  existsb f l = false ↔ ∀ x, x ∈ l → f x = false.
Proof.
  induction l as [|y l IH]; simpl.
  - split; [by intros _ x ?%not_elem_of_nil | done].
  - rewrite orb_false_iff, IH. split.
    + intros [Hy Hl] x [->|Hx]%elem_of_cons; [done | by apply Hl].
    + intros Hall. split; [apply Hall, list_elem_of_here|].
      intros x Hx. by apply Hall, list_elem_of_further.
Qed.

Lemma any_name_false (pf : gmap Span.t (option string)) :
  (∀ sp n, pf !! sp = Some n → name_truth n = false) → any_name pf = false.
Proof.
  intros Hall. apply existsb_false. intros n Hn.
  apply list_elem_of_fmap in Hn as ([sp n'] & -> & Hin).
  apply elem_of_map_to_list in Hin. by apply (Hall sp).
Qed.

Lemma any_name_true (pf : gmap Span.t (option string)) (sp : Span.t) (n : option string) :
  pf !! sp = Some n → name_truth n = true → any_name pf = true.
Proof.
  intros Hl Hn. destruct (any_name pf) eqn:Hany; [done|].
  rewrite <- Hn. symmetry. apply (proj1 (existsb_false _ _) Hany).
  apply list_elem_of_fmap. exists (sp, n). split; [done|].
  by apply elem_of_map_to_list.
Qed.

Lemma any_args_false (pa : gmap Span.t (gmap Span.t string)) :
  (∀ sp args, pa !! sp = Some args → args = ∅) → any_args pa = false.
Proof.
  intros Hall. apply existsb_false. intros args Hargs.
  apply list_elem_of_fmap in Hargs as ([sp args'] & -> & Hin).
  apply elem_of_map_to_list in Hin. simpl. rewrite (Hall sp args' Hin).
  by rewrite bool_decide_eq_true_2.
Qed.

(** The name map of the indexer when no frame carries a name *)
Lemma get_predictions_no_name (frames : list Frame) cov pf pa :
  (∀ frame, frame ∈ frames → frame_has_name frame = false) →
  get_predictions_by_span frames = Ok (cov, pf, pa) →
  ∀ sp n, pf !! sp = Some n → name_truth n = false.
Proof.
  intros Hnone Hget.
  apply (foldM_invariant
           (fun acc : predictions => ∀ sp n, acc.1.2 !! sp = Some n → name_truth n = false)
           get_predictions_step frames) with (s := (∅, ∅, ∅)) (s' := (cov, pf, pa));
    [|done|done].
  intros [[cov0 pf0] pa0] frame [[cov1 pf1] pa1] Hin Hinv Hstep. simpl in *.
  apply bind_Ok in Hstep as (tsp & _ & Hstep).
  apply bind_Ok in Hstep as (args & _ & Hstep).
  injection Hstep as <- <- <-. intros sp n.
  destruct (decide (tsp = sp)) as [->|Hne].
  - rewrite lookup_insert_eq. intros [= <-]. by apply Hnone.
  - rewrite lookup_insert_ne by done. apply Hinv.
Qed.

(** The argument map of the indexer when no frame carries arguments *)
Lemma get_predictions_no_args (frames : list Frame) cov pf pa :
  (∀ frame, frame ∈ frames → frame_has_args frame = false) →
  get_predictions_by_span frames = Ok (cov, pf, pa) →
  ∀ sp args, pa !! sp = Some args → args = ∅.
Proof.
  intros Hnone Hget.
  apply (foldM_invariant
           (fun acc : predictions => ∀ sp args, acc.2 !! sp = Some args → args = ∅)
           get_predictions_step frames) with (s := (∅, ∅, ∅)) (s' := (cov, pf, pa));
    [|done|done].
  intros [[cov0 pf0] pa0] frame [[cov1 pf1] pa1] Hin Hinv Hstep. simpl in *.
  apply bind_Ok in Hstep as (tsp & _ & Hstep).
  apply bind_Ok in Hstep as (args & Hargs & Hstep).
  injection Hstep as <- <- <-. intros sp args'.
  destruct (decide (tsp = sp)) as [->|Hne].
  - rewrite lookup_insert_eq. intros [= <-].
    specialize (Hnone frame Hin). unfold frame_has_args in Hnone.
    destruct (annotationSets frame) as [[|a sets]|]; simpl in Hargs.
    + done.
    + apply negb_false_iff, bool_decide_eq_true in Hnone. rewrite Hnone in Hargs.
      by injection Hargs as <-.
    + by injection Hargs as <-.
  - rewrite lookup_insert_ne by done. apply Hinv.
Qed.

(** The name the indexer keeps for a target span is that of the last frame
    with this target span *)
Lemma get_predictions_last_name (l1 l2 : list Frame) (frame : Frame) cov pf pa :
  get_predictions_by_span (l1 ++ frame :: l2) = Ok (cov, pf, pa) →
  (∀ frame', frame' ∈ l2 → target_span frame' ≠ target_span frame) →
  ∃ sp, target_span frame = Ok sp ∧ pf !! sp = Some (t_name (target frame)).
Proof.
  unfold get_predictions_by_span. rewrite foldM_app. intros Hget Hlater.
  apply bind_Ok in Hget as ([[cov0 pf0] pa0] & _ & Hget). simpl in Hget.
  apply bind_Ok in Hget as ([[cov1 pf1] pa1] & Hstep & Hget).
  apply bind_Ok in Hstep as (tsp & Htsp & Hstep).
  apply bind_Ok in Hstep as (args & _ & Hstep).
  injection Hstep as <- <- <-. exists tsp. split; [done|].
  apply (foldM_invariant
           (fun acc : predictions => acc.1.2 !! tsp = Some (t_name (target frame)))
           get_predictions_step l2) with (s' := (cov, pf, pa)) in Hget; [done| |].
  - intros [[cov2 pf2] pa2] frame' [[cov3 pf3] pa3] Hin Hinv Hstep. simpl in *.
    apply bind_Ok in Hstep as (tsp' & Htsp' & Hstep).
    apply bind_Ok in Hstep as (args' & _ & Hstep).
    injection Hstep as <- <- <-. rewrite lookup_insert_ne; [done|].
    intros ->. apply (Hlater frame' Hin). unfold target_span. congruence.
  - simpl. apply lookup_insert_eq.
Qed.

(** The rows of the frame stage when no arguments are predicted *)
Lemma score_frames_rows stats gf pf ga pa (c : PRCounter.t) :
  any_args pa = false →
  score_frames stats gf pf ga pa = Ok c →
  PRCounter.labels c
  = PRCounter.labels stats
    ++ ["Frames with correct targets (ignore P)"; "Frames (correct targets only)"]%string.
Proof.
  intros Hargs. unfold score_frames. intros Hscore.
  apply bind_Ok in Hscore as (stats1 & H1 & Hscore).
  destruct (negb _); [done|].
  apply bind_Ok in Hscore as (stats2 & H2 & Hscore).
  rewrite Hargs in Hscore. injection Hscore as <-.
  rewrite (setitem_labels _ _ _ _ H2), (setitem_labels _ _ _ _ H1).
  by rewrite <- app_assoc.
Qed.

(** The rows of a scored sentence, by what the indexer holds *)
Lemma score_sentence_rows_by_maps gold predicted errors c errors' :
  score_sentence gold predicted errors = Ok (c, errors') →
  ∃ cov pf pa,
    get_predictions_by_span (frames predicted) = Ok (cov, pf, pa)
    ∧ (any_name pf = false → PRCounter.labels c = rows_targets)
    ∧ (any_name pf = true → any_args pa = false → PRCounter.labels c = rows_frames).
Proof.
  unfold score_sentence. intros Hscore.
  apply bind_Ok in Hscore as ([[cov pf] pa] & Hget & Hscore).
  exists cov, pf, pa. split; [done|].
  destruct (get_non_targets gold) as [[wsl_map excl] poses].
  apply bind_Ok in Hscore as (st & _ & Hscore).
  apply bind_Ok in Hscore as (stats1 & H1 & Hscore).
  apply bind_Ok in Hscore as (stats2 & H2 & Hscore).
  apply bind_Ok in Hscore as (miss' & _ & Hscore).
  apply bind_Ok in Hscore as (extra' & _ & Hscore).
  apply bind_Ok in Hscore as (stats3 & H3 & Hscore).
  injection Hscore as <- <-.
  assert (Hrows : PRCounter.labels stats2 = rows_targets).
  { by rewrite (setitem_labels _ _ _ _ H2), (setitem_labels _ _ _ _ H1). }
  split.
  - intros Hany. rewrite Hany in H3. by injection H3 as <-.
  - intros Hany Hargs. rewrite Hany in H3.
    rewrite (score_frames_rows _ _ _ _ _ _ Hargs H3), Hrows. reflexivity.
Qed.

(** C6, as the claim states it, fails in two ways. The names are kept by
    target span, a later frame replacing an earlier one with the same target
    span: with the same target predicted twice, first named and then
    without a name, a frame carries a name, nothing carries arguments, and
    the counter holds the two target rows only. And the scorer does not
    always return a counter: a target predicted for a gold sentence without
    tokens fails the assertion on [N] in the first row. *)
Lemma score_sentence_rows_fail :
  (∃ frame, frame ∈ frames pred_twice ∧ frame_has_name frame = true)
  ∧ (∀ frame, frame ∈ frames pred_twice → frame_has_args frame = false)
  ∧ rows_of (score_sentence gold_motion pred_twice no_errors) = Some rows_targets
  ∧ (∀ frame, frame ∈ frames pred_unnamed → frame_has_name frame = false)
  ∧ score_sentence gold_no_tokens pred_unnamed no_errors = Err AssertNPositive.
Proof.
  split.
  { eexists. split; [apply list_elem_of_here | reflexivity]. }
  split.
  { intros frame Hin. simpl in Hin.
    repeat (apply elem_of_cons in Hin as [->|Hin]; [reflexivity|]).
    by apply not_elem_of_nil in Hin. }
  split; [by vm_compute|].
  split; [|by vm_compute].
  intros frame Hin. simpl in Hin.
  repeat (apply elem_of_cons in Hin as [->|Hin]; [reflexivity|]).
  by apply not_elem_of_nil in Hin.
Qed.

(** C6 (amended). Whenever the sentence scorer returns a counter: if no
    predicted frame carries a frame name, the counter holds exactly the rows
    'Targets by token' and 'Targets by span'; if some predicted frame carries
    a frame name and no later predicted frame has the same target span, and
    no predicted frame carries arguments, the counter holds these two rows
    and the two frame rows, and none of the four argument rows. *)
Theorem score_sentence_rows (gold predicted : Sentence) (errors : Errors)
    (c : PRCounter.t) (errors' : Errors) :
  score_sentence gold predicted errors = Ok (c, errors') →
  ((∀ frame, frame ∈ frames predicted → frame_has_name frame = false) →
   PRCounter.labels c = ["Targets by token"; "Targets by span"]%string)
  ∧ ((∃ l1 frame l2,
        frames predicted = l1 ++ frame :: l2
        ∧ frame_has_name frame = true
        ∧ ∀ frame', frame' ∈ l2 → target_span frame' ≠ target_span frame) →
     (∀ frame, frame ∈ frames predicted → frame_has_args frame = false) →
     PRCounter.labels c
     = ["Targets by token"; "Targets by span";
        "Frames with correct targets (ignore P)";
        "Frames (correct targets only)"]%string).
Proof.
  intros Hscore.
  apply score_sentence_rows_by_maps in Hscore as (cov & pf & pa & Hget & Hnone & Hsome).
  split.
  - intros Hnames. apply Hnone, any_name_false.
    by apply (get_predictions_no_name (frames predicted) cov pf pa).
  - intros (l1 & frame & l2 & Hsplit & Hname & Hlater) Hargs. apply Hsome.
    + rewrite Hsplit in Hget.
      destruct (get_predictions_last_name _ _ _ _ _ _ Hget Hlater) as (sp & _ & Hl).
      by apply (any_name_true pf sp (t_name (target frame))).
    + apply any_args_false.
      by apply (get_predictions_no_args (frames predicted) cov pf pa).
Qed.

Lemma score_sentence_rows_witness :
  rows_of (score_sentence gold_motion pred_motion no_errors)
  = Some ["Targets by token"; "Targets by span";
          "Frames with correct targets (ignore P)";
          "Frames (correct targets only)"]%string.
Proof.
  destruct (score_sentence gold_motion pred_motion no_errors) as [[c e]|err] eqn:Hscore.
  - simpl. f_equal.
    apply (score_sentence_rows gold_motion pred_motion no_errors c e Hscore).
    + exists [], (mkFrame (mkTarget [mkRange 2 3] (Some "Motion"%string)) None), [].
      split; [reflexivity|]. split; [reflexivity|].
      intros frame' Hin. inversion Hin.
    + intros frame Hin. simpl in Hin.
      apply elem_of_cons in Hin as [->|Hin]; [reflexivity|].
      inversion Hin.
  - exfalso. vm_compute in Hscore. discriminate Hscore.
Defined.

(** ** Floats: quotients of counts *)

Lemma digits2_iter (p k : positive) :
  digits2_pos (Pos.iter xO p k) = (digits2_pos p + k)%positive.
Proof.
  induction k as [|k IH] using Pos.peano_ind.
  - simpl. lia.
  - rewrite Pos.iter_succ. simpl. rewrite IH. lia.
Qed.

Lemma digits2_bound (p : positive) :
  Zpos p < 2 ^ 53 → Zpos (digits2_pos p) ≤ 53.
Proof.
  intros Hp.
  assert (Hlow : ∀ q, 2 ^ (Zpos (digits2_pos q) - 1) ≤ Zpos q).
  { induction q as [q IH|q IH|]; simpl digits2_pos.
    - replace (Zpos (Pos.succ (digits2_pos q)) - 1)
        with (Z.succ (Zpos (digits2_pos q) - 1)) by lia.
      rewrite Z.pow_succ_r by lia. lia.
    - replace (Zpos (Pos.succ (digits2_pos q)) - 1)
        with (Z.succ (Zpos (digits2_pos q) - 1)) by lia.
      rewrite Z.pow_succ_r by lia. lia.
    - simpl. lia. }
  specialize (Hlow p).
  destruct (Z_le_gt_dec (Zpos (digits2_pos p)) 53) as [|Hgt]; [done|].
  assert (2 ^ 53 ≤ 2 ^ (Zpos (digits2_pos p) - 1)) by (apply Z.pow_le_mono_r; lia).
  lia.
Qed.

Lemma shl53_double (p : positive) :
  Zpos (digits2_pos p) < 53 → shl53 p~0 = shl53 p.
Proof.
  intros Hd. unfold shl53. simpl digits2_pos.
  destruct (53 - Zpos (digits2_pos p)) as [|k|k] eqn:E; try lia.
  destruct (53 - Zpos (Pos.succ (digits2_pos p))) as [|k'|k'] eqn:E'; try lia.
  - assert (k = 1%positive) as -> by lia. reflexivity.
  - assert (k = Pos.succ k') as -> by lia. rewrite Pos.iter_succ_r. reflexivity.
Qed.

(** Rounding leaves a 53-bit mantissa with an exponent in range as it is *)
Lemma binary_round_aux_canonical (s : bool) (m : positive) (e : Z) :
  Zpos (digits2_pos m) = 53 → -1074 ≤ e ≤ 971 →
  binary_round_aux prec emax s (Zpos m) e loc_Exact = S754_finite s m e.
Proof.
  intros Hd He. unfold binary_round_aux, shr_fexp. simpl Zdigits2. rewrite Hd.
  assert (Hf : fexp prec emax (53 + e) - e = 0).
  { unfold fexp, SpecFloat.emin, prec, emax. lia. }
  rewrite Hf. simpl. rewrite Hd, Hf. simpl.
  assert ((e <=? emax - prec) = true) as ->. { unfold emax, prec. lia. }
  reflexivity.
Qed.

Lemma binary_normalize_small (p : positive) :
  Zpos (digits2_pos p) ≤ 53 →
  binary_normalize prec emax (Zpos p) 0 false
  = S754_finite false (shl53 p) (Zpos (digits2_pos p) - 53).
Proof.
  intros Hd. unfold binary_normalize, binary_round, shl_align.
  assert (Hf : fexp prec emax (Zpos (digits2_pos p) + 0) = Zpos (digits2_pos p) - 53).
  { unfold fexp, SpecFloat.emin, prec, emax. lia. }
  rewrite Hf. unfold shl53.
  replace (Zpos (digits2_pos p) - 53 - 0) with (- (53 - Zpos (digits2_pos p))) by lia.
  destruct (53 - Zpos (digits2_pos p)) as [|k|k] eqn:E; try lia; simpl Z.opp; cbv iota.
  - replace (Zpos (digits2_pos p) - 53) with 0 by lia.
    apply binary_round_aux_canonical; lia.
  - apply binary_round_aux_canonical; [rewrite digits2_iter|]; lia.
Qed.

Lemma Z2F_spec (z : Z) :
  0 ≤ z < 2 ^ 63 → Prim2SF (Z2F z) = binary_normalize prec emax z 0 false.
Proof.
  intros Hz. unfold Z2F. rewrite of_uint63_spec, Uint63.of_Z_spec.
  rewrite Z.mod_small; [reflexivity|]. change Uint63.wB with (2 ^ 63). lia.
Qed.

Lemma Z2F_double (a : Z) :
  0 ≤ a → 2 * a < 2 ^ 53 → Prim2SF (Z2F (2 * a)) = sf_double (Prim2SF (Z2F a)).
Proof.
  intros H0 Hb. rewrite !Z2F_spec by lia.
  destruct a as [|p|p]; [reflexivity| |lia].
  change (2 * Zpos p) with (Zpos p~0).
  assert (Hd : Zpos (digits2_pos p~0) ≤ 53) by (apply digits2_bound; lia).
  simpl digits2_pos in Hd.
  rewrite !binary_normalize_small by (simpl digits2_pos; lia).
  simpl digits2_pos. rewrite shl53_double by lia. simpl. f_equal. lia.
Qed.

Lemma SFdiv_double (x y : spec_float) :
  SFdiv prec emax (sf_double x) (sf_double y) = SFdiv prec emax x y.
Proof.
  destruct x as [sx|sx| |sx mx ex], y as [sy|sy| |sy my ey]; try reflexivity.
  unfold sf_double, SFdiv, SFdiv_core_binary.
  replace (Zdigits2 (Zpos mx) + (ex + 1) - (Zdigits2 (Zpos my) + (ey + 1)))
    with (Zdigits2 (Zpos mx) + ex - (Zdigits2 (Zpos my) + ey)) by lia.
  replace (ex + 1 - (ey + 1)) with (ex - ey) by lia.
  reflexivity.
Qed.

(** The quotient of two counts is that of their doubles *)
Lemma truediv_double (a b : Z) :
  0 ≤ a → 0 ≤ b → 2 * a < 2 ^ 53 → 2 * b < 2 ^ 53 →
  truediv (2 * a) (2 * b) = truediv a b.
Proof.
  intros. unfold truediv. apply Prim2SF_inj.
  rewrite !FloatAxioms.div_spec, !Z2F_double by lia. apply SFdiv_double.
Qed.

Lemma binary_round_aux_nonneg (mx ex : Z) (lx : location) :
  sf_nonneg (binary_round_aux prec emax false mx ex lx).
Proof.
  unfold binary_round_aux.
  destruct (shr_fexp prec emax mx ex lx) as [mrs' e'].
  destruct (shr_fexp prec emax _ e' loc_Exact) as [mrs'' e''].
  destruct (shr_m mrs''); simpl; [done| |done].
  by destruct (_ <=? _).
Qed.

Lemma binary_round_nonneg (m : positive) (e : Z) :
  sf_nonneg (binary_round prec emax false m e).
Proof.
  unfold binary_round. destruct (shl_align _ _ _) as [mz ez].
  apply binary_round_aux_nonneg.
Qed.

Lemma binary_normalize_nonneg (m e : Z) :
  0 ≤ m → sf_nonneg (binary_normalize prec emax m e false).
Proof.
  intros Hm. destruct m as [|p|p]; simpl; [done| |lia].
  apply binary_round_nonneg.
Qed.

Lemma Z2F_nonneg (z : Z) : sf_nonneg (Prim2SF (Z2F z)).
Proof.
  unfold Z2F. rewrite of_uint63_spec. apply binary_normalize_nonneg.
  apply Uint63.to_Z_bounded.
Qed.

Lemma SFdiv_nonneg (x y : spec_float) :
  sf_nonneg x → sf_nonneg y → sf_nonneg (SFdiv prec emax x y).
Proof.
  destruct x as [sx|sx| |sx mx ex], y as [sy|sy| |sy my ey]; simpl;
    try done; try (by intros -> ->).
  intros -> ->. simpl.
  destruct (SFdiv_core_binary _ _ _ _ _ _) as [[mz ez] lz].
  apply binary_round_aux_nonneg.
Qed.

Lemma SFadd_nonneg (x y : spec_float) :
  sf_nonneg x → sf_nonneg y → sf_nonneg (SFadd prec emax x y).
Proof.
  destruct x as [sx|sx| |sx mx ex], y as [sy|sy| |sy my ey]; simpl;
    try done; try (by intros -> ->).
  intros -> ->. simpl. apply binary_round_nonneg.
Qed.

Lemma truediv_nonneg (a b : Z) : sf_nonneg (Prim2SF (truediv a b)).
Proof.
  unfold truediv. rewrite FloatAxioms.div_spec.
  apply SFdiv_nonneg; apply Z2F_nonneg.
Qed.

Lemma div_nan (y x : float) : Prim2SF x = S754_nan → (y / x)%float = nan.
Proof.
  intros Hx. apply Prim2SF_inj. rewrite FloatAxioms.div_spec, Hx.
  by destruct (Prim2SF y).
Qed.

(** The two guards on [P + R], the truth value in [__setitem__] and the
    selection [denom > 0] in [__add__], give the same [F] on ratios of
    counts *)
Lemma F_entry_ratio (p r : float) :
  sf_nonneg (Prim2SF p) → sf_nonneg (Prim2SF r) →
  PRCounter.F_entry p r = PRCounter.F_ratio p r.
Proof.
  intros Hp Hr. unfold PRCounter.F_entry, PRCounter.F_ratio, float_truth.
  rewrite FloatAxioms.eqb_spec, FloatAxioms.ltb_spec.
  assert (Hsum : sf_nonneg (Prim2SF (p + r))).
  { rewrite FloatAxioms.add_spec. by apply SFadd_nonneg. }
  change (Prim2SF 0) with (S754_zero false).
  destruct (Prim2SF (p + r)) as [s|s| |s m e] eqn:E; simpl in Hsum; subst; simpl;
    try reflexivity.
  by apply div_nan.
Qed.

(** ** PRCounter: one row *)

Section setitem_facts.
Context {A : Type} `{Countable A}.
Implicit Types (gold_set pred_set s : gset A).

Lemma len_zero s : PRCounter.len s = 0 ↔ s = ∅.
Proof.
  unfold PRCounter.len. split.
  - intros Hs. apply leibniz_equiv, size_empty_iff. lia.
  - intros ->. by rewrite size_empty.
Qed.

Lemma truth_true s : PRCounter.truth s = true ↔ s ≠ ∅.
Proof.
  unfold PRCounter.truth. rewrite negb_true_iff, Z.eqb_neq. by rewrite len_zero.
Qed.

Lemma len_intersection_le gold_set pred_set :
  0 ≤ PRCounter.len (gold_set ∩ pred_set) ≤ PRCounter.len pred_set
  ∧ PRCounter.len (gold_set ∩ pred_set) ≤ PRCounter.len gold_set.
Proof.
  unfold PRCounter.len.
  pose proof (subseteq_size _ _ (intersection_subseteq_l gold_set pred_set)).
  pose proof (subseteq_size _ _ (intersection_subseteq_r gold_set pred_set)).
  lia.
Qed.

Lemma len_difference gold_set pred_set :
  PRCounter.len (pred_set ∖ gold_set)
  = PRCounter.len pred_set - PRCounter.len (gold_set ∩ pred_set).
Proof.
  unfold PRCounter.len. rewrite size_difference_alt.
  rewrite (intersection_comm_L gold_set pred_set).
  pose proof (subseteq_size _ _ (intersection_subseteq_l pred_set gold_set)).
  lia.
Qed.

End setitem_facts.

Section setitem_rows.
Context {A : Type} `{Countable A}.

Lemma setitem_ratio (a b : Z) :
  (if negb (b =? 0) then truediv a b else nan)
  = if decide (b = 0) then nan else truediv a b.
Proof. destruct (Z.eqb_spec b 0), (decide (b = 0)); done. Qed.

Lemma F_entry_eq (p r : float) :
  PRCounter.F_entry p r
  = if (p + r =? 0)%float then nan else (2 * p * r / (p + r))%float.
Proof. unfold PRCounter.F_entry, float_truth. by destruct (_ =? _)%float. Qed.

(** The row of [(gold_set, pred_set)] *)
Lemma setitem_Pair (c : PRCounter.t) (k : string) (gold_set pred_set : gset A) :
  let numer := Z.of_nat (size (gold_set ∩ pred_set)) in
  let pdenom := Z.of_nat (size pred_set) in
  let rdenom := Z.of_nat (size gold_set) in
  let p := if decide (pdenom = 0) then nan else truediv numer pdenom in
  let r := if decide (rdenom = 0) then nan else truediv numer rdenom in
  let f := if (p + r =? 0)%float then nan else (2 * p * r / (p + r))%float in
  PRCounter.setitem c k (PRCounter.Pair gold_set pred_set)
  = Ok (c ++ [(k, PRCounter.mkRow numer pdenom rdenom p r f None None None)]).
Proof.
  unfold PRCounter.setitem. simpl. by rewrite !setitem_ratio, F_entry_eq.
Qed.

(** The row of [(N, gold_set, pred_set)], and the two assertions *)
Lemma setitem_Triple (c : PRCounter.t) (k : string) (n : Z)
    (gold_set pred_set : gset A) :
  let numer := Z.of_nat (size (gold_set ∩ pred_set)) in
  let pdenom := Z.of_nat (size pred_set) in
  let rdenom := Z.of_nat (size gold_set) in
  let p := if decide (pdenom = 0) then nan else truediv numer pdenom in
  let r := if decide (rdenom = 0) then nan else truediv numer rdenom in
  let f := if (p + r =? 0)%float then nan else (2 * p * r / (p + r))%float in
  let t := if decide (rdenom = pdenom ∧ pdenom = n) then numer
           else n - Z.of_nat (size (pred_set ∖ gold_set))
                - Z.of_nat (size (gold_set ∖ pred_set)) in
  PRCounter.setitem c k (PRCounter.Triple n gold_set pred_set)
  = if decide ((gold_set ≠ ∅ ∨ pred_set ≠ ∅) ∧ n ≤ 0) then Err AssertNPositive
    else if decide (t < 0) then Err AssertTNonNegative
    else Ok (c ++ [(k, PRCounter.mkRow numer pdenom rdenom p r f
                         (Some t) (Some n) (Some (truediv t n)))]).
Proof.
  rename gold_set into g, pred_set into q.
  intros numer pdenom rdenom p r f t.
  unfold PRCounter.setitem.
  cbn [PRCounter.N_of PRCounter.gold_of PRCounter.pred_of]. cbv zeta.
  assert (Hguard : (PRCounter.truth g || PRCounter.truth q) && negb (0 <? n)
                   = bool_decide ((g ≠ ∅ ∨ q ≠ ∅) ∧ n ≤ 0)).
  { symmetry. destruct ((PRCounter.truth g || PRCounter.truth q) && negb (0 <? n)) eqn:E.
    - apply bool_decide_eq_true.
      apply andb_true_iff in E as [E1 E2]. apply orb_true_iff in E1.
      apply negb_true_iff, Z.ltb_ge in E2. rewrite !truth_true in E1. done.
    - apply bool_decide_eq_false. intros [Hne Hn].
      rewrite <- !truth_true in Hne. apply orb_true_iff in Hne.
      rewrite Hne in E. simpl in E. apply negb_false_iff, Z.ltb_lt in E. lia. }
  rewrite Hguard.
  destruct (decide ((g ≠ ∅ ∨ q ≠ ∅) ∧ n ≤ 0)) as [Hbad|Hok];
    [by rewrite bool_decide_eq_true_2 | rewrite bool_decide_eq_false_2 by done].
  simpl.
  assert (Ht : PRCounter.T_entry n g q = t).
  { unfold PRCounter.T_entry, t, PRCounter.len.
    destruct (decide (rdenom = pdenom ∧ pdenom = n)) as [[E1 E2]|Hne].
    - subst rdenom pdenom. rewrite E1, E2, !Z.eqb_refl. done.
    - destruct (Z.eqb_spec (Z.of_nat (size g)) (Z.of_nat (size q))) as [E1|]; [|done].
      destruct (Z.eqb_spec (Z.of_nat (size q)) n) as [E2|]; [|done].
      exfalso. apply Hne. done. }
  rewrite Ht.
  destruct (decide (t < 0)) as [Hneg|Hpos].
  - by rewrite (proj2 (Z.leb_gt _ _) Hneg).
  - rewrite (proj2 (Z.leb_le 0 t)) by lia. simpl.
    rewrite !setitem_ratio, F_entry_eq. fold numer pdenom rdenom p r f. do 4 f_equal.
    destruct (Z.eqb_spec n 0) as [->|]; [|done].
    assert (g = ∅ ∧ q = ∅) as [-> ->].
    { split; apply dec_stable; intros Hne; apply Hok; (split; [|lia]); tauto. }
    assert (t = 0) as ->.
    { unfold t, numer, rdenom, pdenom. rewrite !size_empty.
      rewrite decide_True by done.
      pose proof (len_intersection_le (∅ : gset A) ∅) as Hle.
      unfold PRCounter.len in Hle. rewrite size_empty in Hle. lia. }
    reflexivity.
Qed.

End setitem_rows.

(** C1. [__setitem__] appends, under the label, the row with
    Numer = |gold ∩ pred|, PDenom = |pred|, RDenom = |gold|, P = Numer/PDenom
    and R = Numer/RDenom (NaN on a zero denominator), F = 2PR/(P+R) (NaN when
    P+R is zero). Without [N], the cells T, N and Acc stay unset. With [N],
    T is Numer when |gold| = |pred| = N and N - |pred - gold| - |gold - pred|
    otherwise, and Acc is T/N; the operation fails when T < 0 (and when a
    set is non-empty while N is not positive). For N = 5 and sets of two
    elements sharing one: Numer = 1, T = 3, Acc = 0.6. *)
Theorem setitem_spec {A} `{Countable A} (c : PRCounter.t) (k : string)
    (v : PRCounter.value A) :
  let gold_set := PRCounter.gold_of v in
  let pred_set := PRCounter.pred_of v in
  let numer := Z.of_nat (size (gold_set ∩ pred_set)) in
  let pdenom := Z.of_nat (size pred_set) in
  let rdenom := Z.of_nat (size gold_set) in
  let p := if decide (pdenom = 0) then nan else truediv numer pdenom in
  let r := if decide (rdenom = 0) then nan else truediv numer rdenom in
  let f := if (p + r =? 0)%float then nan else (2 * p * r / (p + r))%float in
  let row := PRCounter.mkRow numer pdenom rdenom p r f in
  match v with
  | PRCounter.Pair _ _ =>
      PRCounter.setitem c k v = Ok (c ++ [(k, row None None None)])
  | PRCounter.Triple n _ _ =>
      let t := if decide (rdenom = pdenom ∧ pdenom = n) then numer
               else n - Z.of_nat (size (pred_set ∖ gold_set))
                    - Z.of_nat (size (gold_set ∖ pred_set)) in
      (t < 0 → ∃ e, PRCounter.setitem c k v = Err e)
      ∧ (∀ c', PRCounter.setitem c k v = Ok c' →
               c' = c ++ [(k, row (Some t) (Some n) (Some (truediv t n)))])
      ∧ PRCounter.setitem c k v
        = if decide ((gold_set ≠ ∅ ∨ pred_set ≠ ∅) ∧ n ≤ 0) then Err AssertNPositive
          else if decide (t < 0) then Err AssertTNonNegative
          else Ok (c ++ [(k, row (Some t) (Some n) (Some (truediv t n)))])
  end
  ∧ ∀ gold_set pred_set : gset A,
      size gold_set = 2%nat → size pred_set = 2%nat →
      size (gold_set ∩ pred_set) = 1%nat →
      ∃ row,
        PRCounter.setitem c k (PRCounter.Triple 5 gold_set pred_set)
        = Ok (c ++ [(k, row)])
        ∧ PRCounter.Numer row = 1
        ∧ PRCounter.T row = Some 3
        ∧ PRCounter.N row = Some 5
        ∧ PRCounter.Acc row = Some 0x1.3333333333333p-1%float.
Proof.
  split.
  - destruct v as [g q|n g q]; simpl.
    + apply setitem_Pair.
    + pose proof (setitem_Triple c k n g q) as Hgen. simpl in Hgen.
      split; [|split; [|exact Hgen]].
      * intros Hneg. rewrite Hgen. destruct (decide _); [by eexists|].
        rewrite decide_True by done. by eexists.
      * intros c'. rewrite Hgen. destruct (decide _); [done|].
        destruct (decide _); [done|]. by intros [= <-].
  - intros g q Hg Hq Hgq. pose proof (setitem_Triple c k 5 g q) as Hgen.
    simpl in Hgen.
    pose proof (len_difference g q) as Hd1.
    pose proof (len_difference q g) as Hd2.
    rewrite (intersection_comm_L q g) in Hd2.
    unfold PRCounter.len in Hd1, Hd2.
    rewrite Hg, Hq, Hgq in *. rewrite Hd1, Hd2 in Hgen. simpl in Hgen.
    rewrite decide_False in Hgen by lia.
    eexists. split; [exact Hgen|]. simpl. repeat split; reflexivity.
Qed.

(** ** PRCounter: rows by label *)

Lemma get_nil (k : string) : PRCounter.get [] k = None.
Proof. reflexivity. Qed.

Lemma get_cons (k0 : string) (r : PRCounter.Row) (l : PRCounter.t) (k : string) :
  PRCounter.get ((k0, r) :: l) k = if decide (k0 = k) then Some r else PRCounter.get l k.
Proof.
  unfold PRCounter.get. simpl. destruct (decide (k0 = k)) as [->|Hne].
  - apply lookup_insert_eq.
  - by apply lookup_insert_ne.
Qed.

Lemma get_app (l1 l2 : PRCounter.t) (k : string) :
  PRCounter.get (l1 ++ l2) k
  = match PRCounter.get l1 k with
    | Some r => Some r
    | None => PRCounter.get l2 k
    end.
Proof.
  induction l1 as [|[k0 r] l1 IH]; simpl; [done|].
  rewrite !get_cons. by destruct (decide (k0 = k)).
Qed.

Lemma get_Some_elem (l : PRCounter.t) (k : string) (r : PRCounter.Row) :
  PRCounter.get l k = Some r → (k, r) ∈ l.
Proof. apply elem_of_list_to_map_2. Qed.

Lemma get_NoDup (l : PRCounter.t) (k : string) (r : PRCounter.Row) :
  NoDup (PRCounter.labels l) → (k, r) ∈ l → PRCounter.get l k = Some r.
Proof. apply elem_of_list_to_map_1. Qed.

Lemma get_None (l : PRCounter.t) (k : string) :
  PRCounter.get l k = None ↔ k ∉ PRCounter.labels l.
Proof. symmetry. apply not_elem_of_list_to_map. Qed.

Lemma get_fmap (f : PRCounter.Row → PRCounter.Row) (l : PRCounter.t) (k : string) :
  PRCounter.get ((fun kr : string * PRCounter.Row => (kr.1, f kr.2)) <$> l) k
  = f <$> PRCounter.get l k.
Proof.
  induction l as [|[k0 r] l IH]; [done|].
  rewrite fmap_cons. simpl. rewrite !get_cons. by destruct (decide (k0 = k)).
Qed.

Lemma labels_fmap (f : PRCounter.Row → PRCounter.Row) (l : PRCounter.t) :
  PRCounter.labels ((fun kr : string * PRCounter.Row => (kr.1, f kr.2)) <$> l)
  = PRCounter.labels l.
Proof.
  unfold PRCounter.labels. rewrite <- list_fmap_compose. by apply list_fmap_ext.
Qed.

Lemma get_filter (P : string → Prop) `{∀ k, Decision (P k)} (l : PRCounter.t) (k : string) :
  PRCounter.get (filter (fun kr : string * PRCounter.Row => P kr.1) l) k
  = if decide (P k) then PRCounter.get l k else None.
Proof.
  induction l as [|[k0 r] l IH].
  - rewrite filter_nil, get_nil. by destruct (decide (P k)).
  - rewrite filter_cons. simpl. destruct (decide (P k0)) as [Hk0|Hk0].
    + rewrite !get_cons, IH. destruct (decide (k0 = k)) as [->|]; [|done].
      by destruct (decide (P k)).
    + rewrite IH, get_cons. destruct (decide (k0 = k)) as [->|]; [|done].
      by destruct (decide (P k)).
Qed.

Lemma get_filter_fresh (dst src : PRCounter.t) (k : string) :
  PRCounter.get
    (filter (fun kr : string * PRCounter.Row => kr.1 ∉ PRCounter.labels dst) src) k
  = if decide (k ∉ PRCounter.labels dst) then PRCounter.get src k else None.
Proof. exact (get_filter (fun k => k ∉ PRCounter.labels dst) src k). Qed.

(** The rows of a table extended by the fills *)
Lemma get_fill (src dst : PRCounter.t) (k : string) :
  PRCounter.get (PRCounter.fill src dst) k
  = match PRCounter.get dst k with
    | Some r => Some r
    | None => PRCounter.fill_row <$> PRCounter.get src k
    end.
Proof.
  unfold PRCounter.fill. rewrite get_app.
  destruct (PRCounter.get dst k) as [r|] eqn:Hdst; [done|].
  rewrite get_fmap, get_filter_fresh.
  rewrite decide_True; [done|]. by apply get_None.
Qed.

Lemma labels_fill (src dst : PRCounter.t) :
  PRCounter.labels (PRCounter.fill src dst)
  = PRCounter.labels dst
    ++ filter (fun k => k ∉ PRCounter.labels dst) (PRCounter.labels src).
Proof.
  unfold PRCounter.fill, PRCounter.labels. rewrite fmap_app. f_equal.
  induction src as [|[k0 r] src IH]; [done|].
  rewrite filter_cons, fmap_cons, filter_cons. simpl.
  destruct (decide (k0 ∉ dst.*1)); [rewrite !fmap_cons; simpl; f_equal|]; apply IH.
Qed.

Lemma NoDup_fill (src dst : PRCounter.t) :
  NoDup (PRCounter.labels src) → NoDup (PRCounter.labels dst) →
  NoDup (PRCounter.labels (PRCounter.fill src dst)).
Proof.
  intros Hsrc Hdst. rewrite labels_fill. apply NoDup_app. split; [done|]. split.
  - intros k Hk Hin. by apply list_elem_of_filter in Hin as [Hnot _].
  - by apply NoDup_filter.
Qed.

Lemma add_row_Err (x y : PRCounter.Row) (e : error) :
  PRCounter.add_row x y = Err e → e = TypeError.
Proof.
  unfold PRCounter.add_row, PRCounter.add_N.
  destruct (PRCounter.N x), (PRCounter.N y); simpl; congruence.
Qed.

(** The aligned sum of two tables, by label *)
Lemma df_add_Ok (me you nd : PRCounter.t) :
  PRCounter.df_add me you = Ok nd →
  PRCounter.labels nd = PRCounter.labels me
  ∧ ∀ k,
      match PRCounter.get me k with
      | None => PRCounter.get nd k = None
      | Some x => ∃ y z, PRCounter.get you k = Some y
                         ∧ PRCounter.add_row x y = Ok z
                         ∧ PRCounter.get nd k = Some z
      end.
Proof.
  unfold PRCounter.df_add. revert nd.
  induction me as [|[k0 x] me IH]; intros nd Hnd; simpl in Hnd.
  - injection Hnd as <-. split; [done|]. intros k. by rewrite get_nil.
  - apply bind_Ok in Hnd as ([k1 z] & Hhd & Hnd).
    apply bind_Ok in Hnd as (nd' & Htl & Hnd). injection Hnd as <-.
    simpl in Hhd. destruct (PRCounter.get you k0) as [y|] eqn:Hy; [|done].
    apply bind_Ok in Hhd as (z' & Hz & Hhd). injection Hhd as <- <-.
    destruct (IH nd' Htl) as [Hlab Hget]. split.
    + unfold PRCounter.labels in *. rewrite !fmap_cons. cbn [fst]. by rewrite Hlab.
    + intros k. rewrite !get_cons. destruct (decide (k0 = k)) as [<-|Hne].
      * by exists y, z'.
      * apply Hget.
Qed.

Lemma df_add_Err (me you : PRCounter.t) (e : error) :
  PRCounter.df_add me you = Err e →
  ∃ k x, (k, x) ∈ me
         ∧ (PRCounter.get you k = None
            ∨ ∃ y, PRCounter.get you k = Some y ∧ PRCounter.add_row x y = Err e).
Proof.
  unfold PRCounter.df_add.
  induction me as [|[k0 x] me IH]; intros Hnd; simpl in Hnd; [done|].
  apply bind_Err in Hnd as [Hhd|([k1 z] & Hhd & Hnd)].
  - exists k0, x. split; [apply list_elem_of_here|].
    destruct (PRCounter.get you k0) as [y|]; [right|by left].
    exists y. split; [done|].
    by apply bind_Err in Hhd as [Hhd|(z & _ & Hhd)].
  - apply bind_Err in Hnd as [Hnd|(nd' & _ & Hnd)]; [|done].
    destruct (IH Hnd) as (k & x' & Hin & Hcase).
    exists k, x'. split; [by apply list_elem_of_further | done].
Qed.

(** M1: the rows of a merged table are the sums of the operands' rows *)
Lemma add_Ok (a b c : PRCounter.t) :
  merged a b = Ok c →
  PRCounter.labels c = PRCounter.labels (PRCounter.fill b a)
  ∧ ∀ k, row_sum (PRCounter.get a k) (PRCounter.get b k) = Ok <$> PRCounter.get c k.
Proof.
  unfold merged. intros Hadd.
  apply bind_Ok in Hadd as (nd & Hnd & Hadd). injection Hadd as <-.
  apply df_add_Ok in Hnd as [Hlab Hget]. split.
  - by rewrite labels_fmap.
  - intros k. rewrite get_fmap. specialize (Hget k). rewrite !get_fill in Hget.
    destruct (PRCounter.get a k) as [ra|] eqn:Ha,
             (PRCounter.get b k) as [rb|] eqn:Hb; simpl in Hget |- *.
    + destruct Hget as (y & z & [= <-] & Hz & ->). by rewrite Hz.
    + destruct Hget as (y & z & [= <-] & Hz & ->). by rewrite Hz.
    + destruct Hget as (y & z & [= <-] & Hz & ->). by rewrite Hz.
    + by rewrite Hget.
Qed.

(** M2: a merge fails only on a label under which the operands' rows cannot
    be added *)
Lemma add_Err (a b : PRCounter.t) (e : error) :
  NoDup (PRCounter.labels a) → NoDup (PRCounter.labels b) →
  merged a b = Err e →
  e = TypeError
  ∧ ∃ k, row_sum (PRCounter.get a k) (PRCounter.get b k) = Some (Err TypeError).
Proof.
  unfold merged. intros Ha Hb Hadd.
  apply bind_Err in Hadd as [Hnd|(nd & _ & Hadd)]; [|done].
  apply df_add_Err in Hnd as (k & x & Hin & Hcase).
  apply get_NoDup in Hin; [|by apply NoDup_fill].
  rewrite get_fill in Hin. rewrite get_fill in Hcase.
  destruct (PRCounter.get a k) as [ra|] eqn:Hak,
           (PRCounter.get b k) as [rb|] eqn:Hbk; simpl in Hin, Hcase;
    try done; injection Hin as <-;
    (destruct Hcase as [Hnone|(y & [= <-] & Herr)]; [done|]);
    pose proof (add_row_Err _ _ _ Herr) as ->;
    (split; [done|]); exists k; rewrite Hak, Hbk; simpl; by rewrite Herr.
Qed.

Lemma NoDup_add (a b c : PRCounter.t) :
  NoDup (PRCounter.labels a) → NoDup (PRCounter.labels b) →
  merged a b = Ok c → NoDup (PRCounter.labels c).
Proof.
  intros Ha Hb Hadd. apply add_Ok in Hadd as [-> _]. by apply NoDup_fill.
Qed.

(** ** PRCounter: the algebra of the row sums *)

Lemma row_sum_comm (x y : option PRCounter.Row) : row_sum x y = row_sum y x.
Proof.
  destruct x as [[nx px rx Px Rx Fx [tx|] [Nx|] Ax]|],
           y as [[ny py ry Py Ry Fy [ty|] [Ny|] Ay]|];
    row_sum_crush;
    rewrite ?(Z.add_comm ny nx), ?(Z.add_comm py px), ?(Z.add_comm ry rx),
      ?(Z.add_comm ty tx), ?(Z.add_comm Ny Nx); reflexivity.
Qed.

Lemma row_sum_assoc (x y z : option PRCounter.Row) :
  row_sum_l x y z = row_sum_r x y z.
Proof.
  destruct x as [[nx px rx Px Rx Fx [tx|] [Nx|] Ax]|],
           y as [[ny py ry Py Ry Fy [ty|] [Ny|] Ay]|],
           z as [[nz pz rz Pz Rz Fz [tz|] [Nz|] Az]|];
    row_sum_crush.
Qed.

(** ** PRCounter: merging is commutative and associative *)

Lemma fmap_Ok_inj {A} (x y : option A) :
  (Ok <$> x : option (result A)) = Ok <$> y → x = y.
Proof. destruct x, y; simpl; congruence. Qed.

Lemma fmap_Ok_not_Err {A} (x : option A) (e : error) :
  (Ok <$> x : option (result A)) ≠ Some (Err e).
Proof. by destruct x. Qed.

(** Two outcomes that are described by the same rows agree *)
Lemma agree_by_rows (x y : result PRCounter.t)
    (rows : string → option (result PRCounter.Row)) :
  (∀ c, x = Ok c → ∀ k, rows k = Ok <$> PRCounter.get c k) →
  (∀ e, x = Err e → e = TypeError ∧ ∃ k, rows k = Some (Err TypeError)) →
  (∀ c, y = Ok c → ∀ k, rows k = Ok <$> PRCounter.get c k) →
  (∀ e, y = Err e → e = TypeError ∧ ∃ k, rows k = Some (Err TypeError)) →
  agree x y.
Proof.
  intros HxO HxE HyO HyE. destruct x as [c|e], y as [c'|e']; simpl.
  - intros k. apply fmap_Ok_inj. by rewrite <- (HxO c), <- (HyO c').
  - destruct (HyE e' eq_refl) as [_ [k Hk]].
    rewrite (HxO c eq_refl) in Hk. by apply fmap_Ok_not_Err in Hk.
  - destruct (HxE e eq_refl) as [_ [k Hk]].
    rewrite (HyO c' eq_refl) in Hk. by apply fmap_Ok_not_Err in Hk.
  - destruct (HxE e eq_refl) as [-> _], (HyE e' eq_refl) as [-> _]. done.
Qed.

Lemma add_comm (a b : PRCounter.t) :
  NoDup (PRCounter.labels a) → NoDup (PRCounter.labels b) →
  agree (merged a b) (merged b a).
Proof.
  intros Ha Hb.
  apply (agree_by_rows _ _ (fun k => row_sum (PRCounter.get a k) (PRCounter.get b k))).
  - intros c Hc. by apply add_Ok in Hc as [_ Hc].
  - intros e He. by apply add_Err in He.
  - intros c Hc k. rewrite row_sum_comm. by apply add_Ok in Hc as [_ Hc].
  - intros e He. apply add_Err in He as [-> [k Hk]]; [|done|done].
    split; [done|]. exists k. by rewrite row_sum_comm.
Qed.

Lemma add_add_l_Ok (a b c l : PRCounter.t) :
  (let* ab := merged a b in merged ab c) = Ok l →
  ∀ k, row_sum_l (PRCounter.get a k) (PRCounter.get b k) (PRCounter.get c k)
       = Ok <$> PRCounter.get l k.
Proof.
  intros Hl k. apply bind_Ok in Hl as (ab & Hab & Hl).
  apply add_Ok in Hab as [_ Hab]. apply add_Ok in Hl as [_ Hl].
  unfold row_sum_l. rewrite Hab, <- Hl. by destruct (PRCounter.get ab k).
Qed.

Lemma add_add_l_Err (a b c : PRCounter.t) (e : error) :
  NoDup (PRCounter.labels a) → NoDup (PRCounter.labels b) →
  NoDup (PRCounter.labels c) →
  (let* ab := merged a b in merged ab c) = Err e →
  e = TypeError
  ∧ ∃ k, row_sum_l (PRCounter.get a k) (PRCounter.get b k) (PRCounter.get c k)
         = Some (Err TypeError).
Proof.
  intros Ha Hb Hc Hl. apply bind_Err in Hl as [Hab|(ab & Hab & Hl)].
  - apply add_Err in Hab as [-> [k Hk]]; [|done|done]. split; [done|].
    exists k. unfold row_sum_l. by rewrite Hk.
  - apply add_Err in Hl as [-> [k Hk]]; [|by apply (NoDup_add a b)|done].
    split; [done|]. exists k. apply add_Ok in Hab as [_ Hab].
    unfold row_sum_l. rewrite Hab, <- Hk. by destruct (PRCounter.get ab k).
Qed.

Lemma add_add_r_Ok (a b c l : PRCounter.t) :
  (let* bc := merged b c in merged a bc) = Ok l →
  ∀ k, row_sum_r (PRCounter.get a k) (PRCounter.get b k) (PRCounter.get c k)
       = Ok <$> PRCounter.get l k.
Proof.
  intros Hl k. apply bind_Ok in Hl as (bc & Hbc & Hl).
  apply add_Ok in Hbc as [_ Hbc]. apply add_Ok in Hl as [_ Hl].
  unfold row_sum_r. rewrite Hbc, <- Hl. by destruct (PRCounter.get bc k).
Qed.

Lemma add_add_r_Err (a b c : PRCounter.t) (e : error) :
  NoDup (PRCounter.labels a) → NoDup (PRCounter.labels b) →
  NoDup (PRCounter.labels c) →
  (let* bc := merged b c in merged a bc) = Err e →
  e = TypeError
  ∧ ∃ k, row_sum_r (PRCounter.get a k) (PRCounter.get b k) (PRCounter.get c k)
         = Some (Err TypeError).
Proof.
  intros Ha Hb Hc Hl. apply bind_Err in Hl as [Hbc|(bc & Hbc & Hl)].
  - apply add_Err in Hbc as [-> [k Hk]]; [|done|done]. split; [done|].
    exists k. unfold row_sum_r. by rewrite Hk.
  - apply add_Err in Hl as [-> [k Hk]]; [|done|by apply (NoDup_add b c)].
    split; [done|]. exists k. apply add_Ok in Hbc as [_ Hbc].
    unfold row_sum_r. rewrite Hbc, <- Hk. by destruct (PRCounter.get bc k).
Qed.

Lemma add_assoc (a b c : PRCounter.t) :
  NoDup (PRCounter.labels a) → NoDup (PRCounter.labels b) →
  NoDup (PRCounter.labels c) →
  agree (let* ab := merged a b in merged ab c)
        (let* bc := merged b c in merged a bc).
Proof.
  intros Ha Hb Hc.
  apply (agree_by_rows _ _
           (fun k => row_sum_l (PRCounter.get a k) (PRCounter.get b k)
                               (PRCounter.get c k))).
  - intros l. apply add_add_l_Ok.
  - intros e. by apply add_add_l_Err.
  - intros l Hl k. rewrite row_sum_assoc. by apply add_add_r_Ok.
  - intros e He. apply add_add_r_Err in He as [-> [k Hk]]; [|done..].
    split; [done|]. exists k. by rewrite row_sum_assoc.
Qed.

(** ** PRCounter: the counts of a merged table *)

(** The base counts of a merged row are the sums of the operands' counts, a
    row missing from one operand counting as zeros ([N] being then the other
    operand's) *)
Lemma add_counts (a b c : PRCounter.t) (k : string) (r : PRCounter.Row) :
  merged a b = Ok c → PRCounter.get c k = Some r →
  PRCounter.Numer r = count PRCounter.Numer a k + count PRCounter.Numer b k
  ∧ PRCounter.PDenom r = count PRCounter.PDenom a k + count PRCounter.PDenom b k
  ∧ PRCounter.RDenom r = count PRCounter.RDenom a k + count PRCounter.RDenom b k
  ∧ PRCounter.T r
    = PRCounter.add_T (default (Some 0) (PRCounter.T <$> PRCounter.get a k))
                      (default (Some 0) (PRCounter.T <$> PRCounter.get b k))
  ∧ match PRCounter.get a k, PRCounter.get b k with
    | Some x, Some y => PRCounter.add_N (PRCounter.N x) (PRCounter.N y)
                        = Ok (PRCounter.N r)
    | Some x, None | None, Some x => PRCounter.N r = PRCounter.N x
    | None, None => False
    end.
Proof.
  intros Hadd Hr. apply add_Ok in Hadd as [_ Hsum]. specialize (Hsum k).
  rewrite Hr in Hsum. unfold count. simpl in Hsum.
  destruct (PRCounter.get a k) as [[nx px rx Px Rx Fx tx Nx Ax]|],
           (PRCounter.get b k) as [[ny py ry Py Ry Fy ty Ny Ay]|];
    simpl in Hsum |- *; [| | |done];
    injection Hsum as Hsum; apply bind_Ok in Hsum as (z & Hz & Hsum);
    injection Hsum as <-; unfold PRCounter.add_row in Hz; simpl in Hz;
    apply bind_Ok in Hz as (n & Hn & Hz); injection Hz as <-; simpl.
  - done.
  - repeat split; try lia.
    destruct Nx; simpl in Hn; injection Hn as <-; [f_equal; lia | done].
  - repeat split; try lia.
    destruct Ny; simpl in Hn; by injection Hn as <-.
Qed.

(** ** PRCounter: the rows of the tables a program builds *)

Lemma row_ok_nonneg (r : PRCounter.Row) : row_ok r → nonneg_counts r.
Proof. intros (?&?&?&?&?&_). by repeat split. Qed.

Lemma fill_row_nonneg (r : PRCounter.Row) : nonneg_counts (PRCounter.fill_row r).
Proof.
  unfold nonneg_counts, PRCounter.fill_row. simpl. repeat split; try lia.
  - by intros t [= <-].
  - intros n. destruct (PRCounter.N r); [by intros [= <-] | done].
Qed.

Lemma add_row_nonneg (x y z : PRCounter.Row) :
  nonneg_counts x → nonneg_counts y → PRCounter.add_row x y = Ok z →
  nonneg_counts z.
Proof.
  intros (?&?&?&Htx&Hnx) (?&?&?&Hty&Hny) Hz. unfold PRCounter.add_row in Hz.
  apply bind_Ok in Hz as (n & Hn & Hz). injection Hz as <-.
  unfold nonneg_counts. simpl. repeat split; try lia.
  - intros t. destruct (PRCounter.T x) as [tx|], (PRCounter.T y) as [ty|]; simpl;
      try done.
    intros [= <-]. specialize (Htx tx eq_refl). specialize (Hty ty eq_refl). lia.
  - intros n'. destruct (PRCounter.N x) as [nx|], (PRCounter.N y) as [ny|];
      simpl in Hn; try done; injection Hn as <-; [|done].
    intros [= <-]. specialize (Hnx nx eq_refl). specialize (Hny ny eq_refl). lia.
Qed.

Lemma recompute_ok (z : PRCounter.Row) :
  nonneg_counts z → row_ok (ratios z).
Proof. intros (?&?&?&?&?). unfold row_ok, ratios. simpl. by repeat split. Qed.

Lemma ratio_or_nan (a b : Z) :
  0 ≤ a ≤ b → (if decide (b = 0) then nan else truediv a b) = truediv a b.
Proof.
  intros Hab. destruct (decide (b = 0)) as [->|]; [|done].
  assert (a = 0) as -> by lia. reflexivity.
Qed.

Lemma ratio_or_nan_nonneg (a b : Z) :
  sf_nonneg (Prim2SF (if decide (b = 0) then nan else truediv a b)).
Proof. destruct (decide (b = 0)); [done | apply truediv_nonneg]. Qed.

(** The row that [__setitem__] appends has the ratios of its counts *)
Lemma setitem_row_ok {A} `{Countable A} (c c' : PRCounter.t) (k : string)
    (v : PRCounter.value A) :
  PRCounter.setitem c k v = Ok c' → ∃ row, c' = c ++ [(k, row)] ∧ row_ok row.
Proof.
  destruct v as [g q|n g q].
  - rewrite setitem_Pair. intros [= <-]. eexists. split; [reflexivity|].
    pose proof (len_intersection_le g q) as [Hp Hr]. unfold PRCounter.len in Hp, Hr.
    unfold row_ok. simpl. rewrite <- F_entry_eq.
    rewrite F_entry_ratio by apply ratio_or_nan_nonneg.
    rewrite !ratio_or_nan by lia. repeat split; try lia; done.
  - rewrite setitem_Triple. destruct (decide _) as [|Hok]; [done|].
    destruct (decide _) as [|Ht]; [done|]. intros [= <-].
    eexists. split; [reflexivity|].
    pose proof (len_intersection_le g q) as [Hp Hr]. unfold PRCounter.len in Hp, Hr.
    unfold row_ok. simpl. rewrite <- F_entry_eq.
    rewrite F_entry_ratio by apply ratio_or_nan_nonneg.
    rewrite !ratio_or_nan by lia. repeat split; try lia; try done.
    + intros t [= <-]. lia.
    + intros n' [= <-]. destruct (Z_le_gt_dec 0 n) as [|Hneg]; [done|].
      exfalso. apply Ht.
      assert (g = ∅ ∧ q = ∅) as [-> ->].
      { split; apply dec_stable; intros Hne; apply Hok; (split; [|lia]); tauto. }
      rewrite decide_False by (rewrite size_empty; lia).
      rewrite difference_diag_L, size_empty. lia.
Qed.

Lemma elem_of_fill (src dst : PRCounter.t) (k : string) (x : PRCounter.Row) :
  (k, x) ∈ PRCounter.fill src dst →
  (k, x) ∈ dst ∨ ∃ x0, (k, x0) ∈ src ∧ x = PRCounter.fill_row x0.
Proof.
  unfold PRCounter.fill. rewrite elem_of_app, list_elem_of_fmap.
  intros [Hin|([k0 x0] & [= -> ->] & Hin)]; [by left | right].
  apply list_elem_of_filter in Hin as [_ Hin]. by exists x0.
Qed.

Lemma df_add_elem (me you nd : PRCounter.t) (k : string) (z : PRCounter.Row) :
  PRCounter.df_add me you = Ok nd → (k, z) ∈ nd →
  ∃ x y, (k, x) ∈ me ∧ (k, y) ∈ you ∧ PRCounter.add_row x y = Ok z.
Proof.
  unfold PRCounter.df_add. revert nd.
  induction me as [|[k0 x] me IH]; intros nd Hnd Hin; simpl in Hnd.
  - injection Hnd as <-. by apply not_elem_of_nil in Hin.
  - apply bind_Ok in Hnd as ([k1 z1] & Hhd & Hnd).
    apply bind_Ok in Hnd as (nd' & Htl & Hnd). injection Hnd as <-.
    simpl in Hhd. destruct (PRCounter.get you k0) as [y|] eqn:Hy; [|done].
    apply bind_Ok in Hhd as (z' & Hz & Hhd). injection Hhd as <- <-.
    apply elem_of_cons in Hin as [[= -> ->]|Hin].
    + exists x, y. split; [apply list_elem_of_here|].
      split; [by apply get_Some_elem | done].
    + destruct (IH nd' Htl Hin) as (x' & y' & Hx' & Hy' & Hz').
      exists x', y'. split; [by apply list_elem_of_further | done].
Qed.

(** ** PRCounter: the divisions of a merge *)

Lemma recompute_cases (flag : bool) (r : PRCounter.Row) :
  PRCounter.recompute flag r
  = if flag && zero_row r then Err ZeroDivisionError else Ok (ratios r).
Proof.
  unfold PRCounter.recompute, PRCounter.Acc_ratio, zero_row, ratios, Acc_quotient.
  destruct (PRCounter.T r) as [t|], (PRCounter.N r) as [n|]; simpl;
    rewrite ?andb_false_r; try done.
  by destruct (flag && (n =? 0)).
Qed.

Lemma mapM_recompute (flag : bool) (l : PRCounter.t) :
  mapM (fun kr : string * PRCounter.Row =>
          let* r := PRCounter.recompute flag kr.2 in Ok (kr.1, r)) l
  = if flag && existsb (fun kr : string * PRCounter.Row => zero_row kr.2) l
    then Err ZeroDivisionError
    else Ok ((fun kr : string * PRCounter.Row => (kr.1, ratios kr.2)) <$> l).
Proof.
  induction l as [|kr l IH]; [by rewrite andb_false_r|].
  cbn [mapM existsb]. rewrite recompute_cases, IH.
  destruct flag; [|done]. cbn [andb].
  destruct (zero_row kr.2); [done|]. cbn [orb bind].
  by destruct (existsb _ l).
Qed.

Lemma object_N_ratios (l : PRCounter.t) :
  PRCounter.object_N ((fun kr : string * PRCounter.Row => (kr.1, ratios kr.2)) <$> l)
  = PRCounter.object_N l.
Proof.
  unfold PRCounter.object_N. induction l as [|kr l IH]; [done|].
  rewrite fmap_cons. cbn [existsb]. by rewrite IH.
Qed.

Lemma zero_row_ratios (r : PRCounter.Row) : zero_row (ratios r) = zero_row r.
Proof. done. Qed.

Lemma existsb_zero_ratios (l : PRCounter.t) :
  existsb (fun kr : string * PRCounter.Row => zero_row kr.2)
          ((fun kr : string * PRCounter.Row => (kr.1, ratios kr.2)) <$> l)
  = existsb (fun kr : string * PRCounter.Row => zero_row kr.2) l.
Proof.
  induction l as [|kr l IH]; [done|]. rewrite fmap_cons. cbn [existsb]. by rewrite IH.
Qed.

(** A merge returns the table of the summed rows, unless a division raises *)
Lemma add_merged (a b : PRCounter.t) :
  PRCounter.add a b
  = let* m := merged a b in
    if zero_division m then Err ZeroDivisionError else Ok m.
Proof.
  unfold PRCounter.add, merged. cbv zeta.
  destruct (PRCounter.df_add (PRCounter.fill b a) (PRCounter.fill a b)) as [nd|e];
    [|done].
  cbn [bind]. rewrite mapM_recompute. unfold zero_division.
  by rewrite object_N_ratios, existsb_zero_ratios.
Qed.

Lemma add_merged_Ok (a b c : PRCounter.t) :
  PRCounter.add a b = Ok c ↔ merged a b = Ok c ∧ zero_division c = false.
Proof.
  rewrite add_merged. destruct (merged a b) as [m|e]; cbn [bind].
  - destruct (zero_division m) eqn:Hm; split.
    + done.
    + intros [[= ->] Hc]. congruence.
    + by intros [= <-].
    + by intros [[= ->] _].
  - split; [done | by intros [? _]].
Qed.

Lemma add_merged_Err (a b : PRCounter.t) (e : error) :
  PRCounter.add a b = Err e
  ↔ merged a b = Err e
    ∨ (e = ZeroDivisionError ∧ ∃ m, merged a b = Ok m ∧ zero_division m = true).
Proof.
  rewrite add_merged. destruct (merged a b) as [m|e']; cbn [bind].
  - destruct (zero_division m) eqn:Hm; split.
    + intros [= <-]. right. split; [done|]. by exists m.
    + by intros [|[-> _]].
    + done.
    + intros [|[_ (m' & [= <-] & Hm')]]; [done | congruence].
  - split; [by left|]. intros [|[_ (m & Hm & _)]]; done.
Qed.

(** Every row of a reachable table has the ratios of its counts *)
Lemma reachable_rows_ok (c : PRCounter.t) :
  reachable c → ∀ k r, (k, r) ∈ c → row_ok r.
Proof.
  induction 1 as [|A ? ? c k0 v c' Hc IH Hset|a b c Ha IHa Hb IHb Hadd]; intros k r Hin.
  - by apply not_elem_of_nil in Hin.
  - apply setitem_row_ok in Hset as (row & -> & Hrow).
    apply elem_of_app in Hin as [Hin|Hin%list_elem_of_singleton].
    + by apply (IH k).
    + by injection Hin as -> ->.
  - apply add_merged_Ok in Hadd as [Hadd _].
    unfold merged in Hadd. apply bind_Ok in Hadd as (nd & Hnd & Hadd).
    injection Hadd as <-.
    apply list_elem_of_fmap in Hin as ([k1 z] & [= -> ->] & Hin). simpl.
    destruct (df_add_elem _ _ _ _ _ Hnd Hin) as (x & y & Hx & Hy & Hz).
    apply recompute_ok. apply (add_row_nonneg x y); [| |done].
    + apply elem_of_fill in Hx as [Hx|(x0 & _ & ->)];
        [apply row_ok_nonneg; by eapply IHa | apply fill_row_nonneg].
    + apply elem_of_fill in Hy as [Hy|(y0 & _ & ->)];
        [apply row_ok_nonneg; by eapply IHb | apply fill_row_nonneg].
Qed.

(** ** PRCounter: a table merged with itself *)

Lemma add_row_self (r : PRCounter.Row) : PRCounter.add_row r r = Ok (self_sum r).
Proof. unfold PRCounter.add_row, self_sum. by destruct (PRCounter.N r). Qed.

Lemma filter_known_labels (L : list string) (l : PRCounter.t) :
  (∀ kr, kr ∈ l → kr.1 ∈ L) →
  filter (fun kr : string * PRCounter.Row => kr.1 ∉ L) l = [].
Proof.
  induction l as [|kr l IH]; intros Hall; [done|].
  rewrite filter_cons. rewrite decide_False.
  - apply IH. intros kr' Hin. by apply Hall, list_elem_of_further.
  - intros Hnot. apply Hnot, Hall, list_elem_of_here.
Qed.

Lemma fill_self (c : PRCounter.t) : PRCounter.fill c c = c.
Proof.
  unfold PRCounter.fill. rewrite filter_known_labels; [by rewrite app_nil_r|].
  intros kr Hin. unfold PRCounter.labels. by apply list_elem_of_fmap_2.
Qed.

Lemma mapM_Ok_fmap {A B} (f : A → result B) (g : A → B) (l : list A) :
  (∀ x, x ∈ l → f x = Ok (g x)) → mapM f l = Ok (g <$> l).
Proof.
  induction l as [|x l IH]; intros Hall; [done|]. simpl.
  rewrite (Hall x) by apply list_elem_of_here. simpl.
  rewrite IH; [done|]. intros y Hy. by apply Hall, list_elem_of_further.
Qed.

Lemma add_self (c : PRCounter.t) :
  NoDup (PRCounter.labels c) →
  merged c c
  = Ok ((fun kr : string * PRCounter.Row =>
           (kr.1, ratios (self_sum kr.2))) <$> c).
Proof.
  intros Hnd. unfold merged. rewrite fill_self. unfold PRCounter.df_add.
  rewrite (mapM_Ok_fmap _ (fun kr : string * PRCounter.Row => (kr.1, self_sum kr.2))).
  - simpl. f_equal. rewrite <- list_fmap_compose. by apply list_fmap_ext.
  - intros [k r] Hin. simpl. rewrite (get_NoDup c k r Hnd Hin).
    by rewrite add_row_self.
Qed.

Lemma double_add (n : Z) : n + n = 2 * n.
Proof. lia. Qed.

(** The sum of a consistent row with itself has its doubled counts and its
    ratios *)
Lemma doubled_self (r : PRCounter.Row) :
  row_ok r →
  2 * PRCounter.Numer r < 2 ^ 53 → 2 * PRCounter.PDenom r < 2 ^ 53 →
  2 * PRCounter.RDenom r < 2 ^ 53 →
  (∀ t, PRCounter.T r = Some t → 2 * t < 2 ^ 53) →
  (∀ n, PRCounter.N r = Some n → 2 * n < 2 ^ 53) →
  doubled r (ratios (self_sum r)).
Proof.
  intros (Hn & Hp & Hr & Ht & HN & HP & HR & HF & HA) Bn Bp Br Bt BN.
  assert (EP : truediv (PRCounter.Numer r + PRCounter.Numer r)
                       (PRCounter.PDenom r + PRCounter.PDenom r) = PRCounter.P r).
  { rewrite !double_add, truediv_double by lia. done. }
  assert (ER : truediv (PRCounter.Numer r + PRCounter.Numer r)
                       (PRCounter.RDenom r + PRCounter.RDenom r) = PRCounter.R r).
  { rewrite !double_add, truediv_double by lia. done. }
  unfold doubled, ratios, self_sum. simpl. rewrite EP, ER.
  repeat split; try lia; try done.
  - destruct (PRCounter.N r); simpl; [f_equal; lia | done].
  - destruct (PRCounter.T r); simpl; [f_equal; lia | done].
  - rewrite HA.
    destruct (PRCounter.T r) as [t|] eqn:ET, (PRCounter.N r) as [n|] eqn:EN; simpl;
      try done.
    rewrite !double_add, truediv_double; [done|..].
    + by apply Ht. + by apply HN. + by apply Bt. + by apply BN.
Qed.

Lemma add_self_doubled (c : PRCounter.t) :
  NoDup (PRCounter.labels c) → reachable c → small c →
  ∃ c', merged c c = Ok c'
        ∧ Forall2 (fun kr kr' : string * PRCounter.Row =>
                     kr'.1 = kr.1 ∧ doubled kr.2 kr'.2) c c'.
Proof.
  intros Hnd Hreach Hsmall. eexists. split; [by apply add_self|].
  apply Forall2_fmap_r, Forall_Forall2_diag, Forall_forall.
  intros [k r] Hin. simpl. split; [done|].
  destruct (Hsmall k r Hin) as (Bn & Bp & Br & Bt & BN).
  apply doubled_self; try done. by apply (reachable_rows_ok c Hreach k).
Qed.

Lemma reachable_table_a : reachable table_a.
Proof.
  apply (reach_setitem table_a1 "Targets by span"
           (PRCounter.Pair ({[1]} : gset Z) {[1; 4]})); [|by vm_compute].
  apply (reach_setitem PRCounter.empty "Targets by token"
           (PRCounter.Triple 5 ({[1; 2]} : gset Z) {[2; 3]})); [|by vm_compute].
  apply reach_empty.
Qed.

Lemma small_table_a : small table_a.
Proof.
  intros k r Hin. unfold table_a in Hin.
  repeat (apply elem_of_cons in Hin as [[= -> ->]|Hin];
          [simpl; repeat split; try lia; intros ? [= <-]; lia|]).
  by apply not_elem_of_nil in Hin.
Qed.

Lemma reachable_table_b : reachable table_b.
Proof.
  apply (reach_setitem table_b1 "Frames (correct targets only)"
           (PRCounter.Triple 1 ({[7]} : gset Z) {[7]})); [|by vm_compute].
  apply (reach_setitem PRCounter.empty "Targets by token"
           (PRCounter.Triple 3 ({[0; 1; 2]} : gset Z) {[1]})); [|by vm_compute].
  apply reach_empty.
Qed.

Lemma reachable_table_z : reachable table_z.
Proof.
  apply (reach_setitem table_z1 "Frames (correct targets only)"
           (PRCounter.Triple 0 (∅ : gset Z) ∅)); [|by vm_compute].
  apply (reach_setitem PRCounter.empty "Targets by span"
           (PRCounter.Pair ({[1]} : gset Z) {[1]})); [|by vm_compute].
  apply reach_empty.
Qed.

Lemma small_table_z : small table_z.
Proof.
  intros k r Hin. unfold table_z in Hin.
  repeat (apply elem_of_cons in Hin as [[= -> ->]|Hin];
          [simpl; repeat split; try lia; intros ? [= <-]; lia|]).
  by apply not_elem_of_nil in Hin.
Qed.

(** C2. Merging a table with itself can raise instead of doubling its counts:
    a table with a row without N and a row whose N is 0 (assigned with
    Acc = NaN by the guard of [__setitem__]) raises ZeroDivisionError when it
    is merged with itself, for [__add__] divides T by N without that guard.
    The table of a sentence none of whose frame targets is predicted
    correctly is such a table. *)
Theorem merge_zero_division :
  (∃ c1 c r,
     PRCounter.setitem PRCounter.empty "Targets by span"
       (PRCounter.Pair ({[1]} : gset Z) {[1]}) = Ok c1
     ∧ PRCounter.setitem c1 "Frames (correct targets only)"
         (PRCounter.Triple 0 (∅ : gset Z) ∅) = Ok c
     ∧ PRCounter.get c "Frames (correct targets only)" = Some r
     ∧ PRCounter.N r = Some 0 ∧ PRCounter.T r = Some 0
     ∧ PRCounter.Acc r = Some nan
     ∧ PRCounter.add c c = Err ZeroDivisionError)
  ∧ ∃ c errors,
      score_sentence gold_motion pred_elsewhere no_errors = Ok (c, errors)
      ∧ PRCounter.add c c = Err ZeroDivisionError.
Proof.
  split.
  - exists table_z1, table_z. eexists.
    split; [by vm_compute|]. split; [by vm_compute|].
    split; [by vm_compute|]. split; [reflexivity|]. split; [reflexivity|].
    split; [reflexivity|]. by vm_compute.
  - destruct (score_sentence gold_motion pred_elsewhere no_errors)
      as [[c errors]|e] eqn:Hscore.
    + exists c, errors. split; [reflexivity|].
      vm_compute in Hscore. injection Hscore as <- _. by vm_compute.
    + exfalso. vm_compute in Hscore. discriminate Hscore.
Qed.

(** ** PRCounter: the algebra of the merges that return *)

Lemma existsb_rows_ext (f : PRCounter.Row → bool) (l l' : PRCounter.t) :
  NoDup (PRCounter.labels l) → NoDup (PRCounter.labels l') →
  (∀ k, PRCounter.get l k = PRCounter.get l' k) →
  existsb (fun kr : string * PRCounter.Row => f kr.2) l
  = existsb (fun kr : string * PRCounter.Row => f kr.2) l'.
Proof.
  intros Hl Hl' Hget. apply eq_true_iff_eq. rewrite !existsb_exists. split.
  - intros ([k r] & Hin%list_elem_of_In & Hf). exists (k, r). split; [|done].
    apply list_elem_of_In, get_Some_elem. rewrite <- Hget. by apply get_NoDup.
  - intros ([k r] & Hin%list_elem_of_In & Hf). exists (k, r). split; [|done].
    apply list_elem_of_In, get_Some_elem. rewrite Hget. by apply get_NoDup.
Qed.

Lemma zero_division_ext (l l' : PRCounter.t) :
  NoDup (PRCounter.labels l) → NoDup (PRCounter.labels l') →
  (∀ k, PRCounter.get l k = PRCounter.get l' k) →
  zero_division l = zero_division l'.
Proof.
  intros Hl Hl' Hget. unfold zero_division, PRCounter.object_N.
  rewrite (existsb_rows_ext zero_row l l') by done.
  by rewrite (existsb_rows_ext
                (fun r => match PRCounter.N r with None => true | Some _ => false end)
                l l') by done.
Qed.

Lemma zero_row_doubled (r r' : PRCounter.Row) :
  doubled r r' →
  zero_row r' = zero_row r
  ∧ match PRCounter.N r' with None => true | Some _ => false end
    = match PRCounter.N r with None => true | Some _ => false end.
Proof.
  intros (_ & _ & _ & HN & HT & _). unfold zero_row. rewrite HN, HT.
  destruct (PRCounter.T r), (PRCounter.N r) as [n|]; simpl; try done.
  split; [|done]. destruct (Z.eqb_spec (2 * n) 0), (Z.eqb_spec n 0); try done; lia.
Qed.

Lemma zero_division_doubled (c c' : PRCounter.t) :
  Forall2 (fun kr kr' : string * PRCounter.Row =>
             kr'.1 = kr.1 ∧ doubled kr.2 kr'.2) c c' →
  zero_division c' = zero_division c.
Proof.
  intros Hall. unfold zero_division, PRCounter.object_N.
  induction Hall as [|kr kr' c c' [_ Hd] Hall IH]; [done|].
  destruct (zero_row_doubled _ _ Hd) as [Hz HN]. cbn [existsb].
  rewrite Hz, HN.
  assert (HN' : existsb (fun kr : string * PRCounter.Row =>
                           match PRCounter.N kr.2 with None => true | Some _ => false end) c'
                = existsb (fun kr : string * PRCounter.Row =>
                             match PRCounter.N kr.2 with None => true | Some _ => false end) c).
  { clear -Hall. induction Hall as [|kr kr' c c' [_ Hd] Hall IH]; [done|].
    cbn [existsb]. by rewrite (proj2 (zero_row_doubled _ _ Hd)), IH. }
  assert (Hz' : existsb (fun kr : string * PRCounter.Row => zero_row kr.2) c'
                = existsb (fun kr : string * PRCounter.Row => zero_row kr.2) c).
  { clear -Hall. induction Hall as [|kr kr' c c' [_ Hd] Hall IH]; [done|].
    cbn [existsb]. by rewrite (proj1 (zero_row_doubled _ _ Hd)), IH. }
  by rewrite HN', Hz'.
Qed.

(** X28. For tables with distinct labels: merging is commutative (the same
    exception, or the same row under every label); when both groupings of
    three tables return, they return the same rows; the base counts of a
    merged row are the sums of the operands' counts, a row that one operand
    lacks counting as zeros; and merging a table built by row assignments and
    merges with itself raises ZeroDivisionError when the table holds a row
    without N and a row whose N is 0, and otherwise doubles Numer, PDenom,
    RDenom, N and T of every row and leaves P, R, F and Acc as they are, the
    counts being in the range where floats hold them exactly. *)
Theorem merge_sums (a b c : PRCounter.t) :
  NoDup (PRCounter.labels a) → NoDup (PRCounter.labels b) →
  NoDup (PRCounter.labels c) →
  agree (PRCounter.add a b) (PRCounter.add b a)
  ∧ (∀ l l',
       (let* ab := PRCounter.add a b in PRCounter.add ab c) = Ok l →
       (let* bc := PRCounter.add b c in PRCounter.add a bc) = Ok l' →
       ∀ k, PRCounter.get l k = PRCounter.get l' k)
  ∧ (∀ ab k r,
       PRCounter.add a b = Ok ab → PRCounter.get ab k = Some r →
       PRCounter.Numer r = count PRCounter.Numer a k + count PRCounter.Numer b k
       ∧ PRCounter.PDenom r = count PRCounter.PDenom a k + count PRCounter.PDenom b k
       ∧ PRCounter.RDenom r = count PRCounter.RDenom a k + count PRCounter.RDenom b k
       ∧ PRCounter.T r
         = PRCounter.add_T (default (Some 0) (PRCounter.T <$> PRCounter.get a k))
                           (default (Some 0) (PRCounter.T <$> PRCounter.get b k))
       ∧ match PRCounter.get a k, PRCounter.get b k with
         | Some x, Some y => PRCounter.add_N (PRCounter.N x) (PRCounter.N y)
                             = Ok (PRCounter.N r)
         | Some x, None | None, Some x => PRCounter.N r = PRCounter.N x
         | None, None => False
         end)
  ∧ (reachable c → small c →
     if zero_division c then PRCounter.add c c = Err ZeroDivisionError
     else ∃ c', PRCounter.add c c = Ok c'
                ∧ Forall2 (fun kr kr' : string * PRCounter.Row =>
                             kr'.1 = kr.1 ∧ doubled kr.2 kr'.2) c c').
Proof.
  intros Ha Hb Hc. split; [|split; [|split]].
  - pose proof (add_comm a b Ha Hb) as Hcomm. rewrite !add_merged.
    destruct (merged a b) as [m|e] eqn:Hm, (merged b a) as [m'|e'] eqn:Hm';
      simpl in Hcomm; try done; cbn [bind].
    rewrite (zero_division_ext m m');
      [|by apply (NoDup_add a b) | by apply (NoDup_add b a) | done].
    by destruct (zero_division m').
  - intros l l' (ab & Hab & Hl)%bind_Ok (bc & Hbc & Hl')%bind_Ok.
    apply add_merged_Ok in Hab as [Hab _]. apply add_merged_Ok in Hl as [Hl _].
    apply add_merged_Ok in Hbc as [Hbc _]. apply add_merged_Ok in Hl' as [Hl' _].
    pose proof (add_assoc a b c Ha Hb Hc) as Hassoc.
    rewrite Hab, Hbc in Hassoc. cbn [bind] in Hassoc. by rewrite Hl, Hl' in Hassoc.
  - intros ab k r Hab. apply add_merged_Ok in Hab as [Hab _]. by apply add_counts.
  - intros Hreach Hsmall.
    destruct (add_self_doubled c Hc Hreach Hsmall) as (c' & Hc' & Hdoubled).
    rewrite add_merged, Hc'. cbn [bind].
    rewrite (zero_division_doubled c c' Hdoubled).
    destruct (zero_division c); [done|]. by exists c'.
Qed.

Lemma merge_sums_witness :
  agree (PRCounter.add table_a table_b) (PRCounter.add table_b table_a)
  ∧ (∃ c', PRCounter.add table_a table_a = Ok c'
           ∧ Forall2 (fun kr kr' : string * PRCounter.Row =>
                        kr'.1 = kr.1 ∧ doubled kr.2 kr'.2) table_a c')
  ∧ PRCounter.add table_z table_z = Err ZeroDivisionError.
Proof.
  assert (Ha : NoDup (PRCounter.labels table_a)) by decide_by_eval.
  assert (Hb : NoDup (PRCounter.labels table_b)) by decide_by_eval.
  assert (Hz : NoDup (PRCounter.labels table_z)) by decide_by_eval.
  destruct (merge_sums table_a table_b table_a Ha Hb Ha) as (H1 & _ & _ & H4).
  destruct (merge_sums table_a table_b table_z Ha Hb Hz) as (_ & _ & _ & H5).
  split; [exact H1|]. split.
  - exact (H4 reachable_table_a small_table_a).
  - exact (H5 reachable_table_z small_table_z).
Defined.

(** * Further properties *)

(** ** Span: what the constructor builds *)

Lemma seq_sorted (a n : nat) : StronglySorted lt (seq a n).
Proof.
  revert a. induction n as [|n IH]; intros a; simpl; constructor; [apply IH|].
  apply Forall_forall. intros x Hx%list_elem_of_In%in_seq. lia.
Qed.

Lemma range_sorted (start stop : Z) : StronglySorted Z.lt (Span.range start stop).
Proof.
  unfold Span.range, seqZ.
  apply StronglySorted_fmap with (R1 := lt); [|apply seq_sorted].
  intros x y Hxy. lia.
Qed.

Lemma elem_of_range (i start stop : Z) :
  i ∈ Span.range start stop ↔ start ≤ i < stop.
Proof. unfold Span.range. rewrite elem_of_seqZ. lia. Qed.

Lemma range_join (a b c : Z) :
  a ≤ b → b ≤ c → Span.range a c = Span.range a b ++ Span.range b c.
Proof.
  intros Hab Hbc. unfold Span.range.
  replace (c - a) with ((b - a) + (c - b)) by lia.
  rewrite seqZ_app by lia. do 2 f_equal. lia.
Qed.

Lemma iter_snoc (s : list Span.slice) (p : Span.slice) :
  Span.iter (Span.mk (s ++ [p])) = Span.iter (Span.mk s) ++ Span.range p.1 p.2.
Proof. unfold Span.iter. simpl. by rewrite flat_map_app; simpl; rewrite app_nil_r. Qed.

Lemma overlaps_true (self that : Span.t) :
  Span.overlaps self that = true ↔ ∃ i, i ∈ Span.iter self ∧ i ∈ Span.iter that.
Proof.
  unfold Span.overlaps. rewrite nonempty_true. unfold Span.to_set. split.
  - intros [i Hi]. apply elem_of_intersection in Hi as [H1 H2].
    apply elem_of_list_to_set in H1, H2. by exists i.
  - intros (i & H1 & H2). exists i. apply elem_of_intersection.
    split; by apply elem_of_list_to_set.
Qed.

Lemma iter_single (start stop : Z) :
  Span.iter (Span.single start stop) = Span.range start stop.
Proof. unfold Span.iter. simpl. by rewrite app_nil_r. Qed.

Lemma insert_sorted_perm (p : Span.slice) (l : list Span.slice) :
  Span.insert_sorted p l ≡ₚ p :: l.
Proof.
  induction l as [|q l IH]; simpl; [done|].
  destruct (Span.pair_leb p q); [done|].
  rewrite IH. apply Permutation_swap.
Qed.

Lemma sorted_perm (l : list Span.slice) : Span.sorted l ≡ₚ l.
Proof.
  induction l as [|p l IH]; simpl; [done|].
  unfold Span.sorted in *. simpl. rewrite insert_sorted_perm. by rewrite IH.
Qed.

Lemma pair_leb_by_start (p q : Span.slice) :
  (Span.pair_leb p q = true → by_start p q)
  ∧ (Span.pair_leb p q = false → by_start q p).
Proof.
  unfold Span.pair_leb, by_start. split.
  - intros [Hlt|[Heq _]%andb_true_iff]%orb_true_iff; lia.
  - intros [Hlt Hrest]%orb_false_iff. lia.
Qed.

Lemma insert_sorted_by_start (p : Span.slice) (l : list Span.slice) :
  StronglySorted by_start l → StronglySorted by_start (Span.insert_sorted p l).
Proof.
  induction 1 as [|q l Hl IH Hq]; simpl; [repeat constructor|].
  destruct (Span.pair_leb p q) eqn:Hpq.
  - apply pair_leb_by_start in Hpq. constructor; [by constructor|].
    constructor; [done|]. eapply Forall_impl; [exact Hq|].
    intros x Hx. unfold by_start in *. lia.
  - apply pair_leb_by_start in Hpq. constructor; [done|].
    rewrite insert_sorted_perm. by constructor.
Qed.

Lemma sorted_by_start (l : list Span.slice) : StronglySorted by_start (Span.sorted l).
Proof.
  induction l as [|p l IH]; [constructor|].
  unfold Span.sorted in *. simpl. by apply insert_sorted_by_start.
Qed.

Lemma cover_count_cons (i : Z) (p : Span.slice) (l : list Span.slice) :
  cover_count i (p :: l)
  = ((if decide (covers p i) then 1 else 0) + cover_count i l)%nat.
Proof.
  unfold cover_count. rewrite filter_cons. by destruct (decide (covers p i)).
Qed.

Lemma cover_count_perm (i : Z) (l l' : list Span.slice) :
  l ≡ₚ l' → cover_count i l = cover_count i l'.
Proof. intros Hperm. unfold cover_count. by rewrite Hperm. Qed.

Lemma cover_count_0 (i : Z) (l : list Span.slice) :
  cover_count i l = 0%nat ↔ ∀ p, p ∈ l → ¬ covers p i.
Proof.
  induction l as [|q l IH]; [split; [by intros _ p ?%not_elem_of_nil | done]|].
  rewrite cover_count_cons. destruct (decide (covers q i)) as [Hq|Hq].
  - split; [lia|]. intros Hall. exfalso. apply (Hall q); [apply list_elem_of_here | done].
  - simpl. rewrite IH. split.
    + intros Hall p [->|Hp]%elem_of_cons; [done | by apply Hall].
    + intros Hall p Hp. by apply Hall, list_elem_of_further.
Qed.

(** Assigning to the last position of a list *)
Lemma insert_last {A} (l : list A) (x y : A) :
  <[Nat.pred (length (l ++ [x])) := y]> (l ++ [x]) = l ++ [y].
Proof.
  rewrite length_app. simpl. rewrite Nat.add_1_r. simpl.
  replace (length l) with (length l + 0)%nat at 1 by lia.
  by rewrite insert_app_r.
Qed.

(** The loop of the constructor over forward ranges in the order of their
    starts: it keeps the iteration increasing and adds each range's indices,
    and it fails exactly on an index held twice *)
Lemma init_loop_forward (ps : list Span.slice) :
  ∀ s : list Span.slice,
    s ≠ [] → Forall forward s → Forall forward ps →
    StronglySorted by_start ps →
    (∀ r q, r ∈ s → q ∈ ps → by_start r q) →
    StronglySorted Z.lt (Span.iter (Span.mk s)) →
    match Span.init_loop s false ps with
    | Ok s' =>
        s' ≠ []
        ∧ StronglySorted Z.lt (Span.iter (Span.mk s'))
        ∧ (∀ i, i ∈ Span.iter (Span.mk s')
                ↔ i ∈ Span.iter (Span.mk s) ∨ ∃ p, p ∈ ps ∧ covers p i)
        ∧ (∀ i, (i ∈ Span.iter (Span.mk s) → cover_count i ps = 0%nat)
                ∧ (cover_count i ps ≤ 1)%nat)
    | Err e =>
        e = InvalidSpan
        ∧ ∃ i, (i ∈ Span.iter (Span.mk s) ∧ (1 ≤ cover_count i ps)%nat)
               ∨ (2 ≤ cover_count i ps)%nat
    end.
Proof.
  induction ps as [|[start stop] ps IH]; intros s Hne Hs Hps Hsorted Hstart Hiter.
  - simpl. split; [done|]. split; [done|]. split.
    + intros i. split; [by left|]. intros [Hi|(p & Hp & _)]; [done|].
      by apply not_elem_of_nil in Hp.
    + intros i. split; [done|]. unfold cover_count. simpl. lia.
  - simpl. apply Forall_cons in Hps as [Hp Hps]. unfold forward in Hp. simpl in Hp.
    apply StronglySorted_cons in Hsorted as [Hhd Hsorted].
    destruct (Span.overlaps (Span.mk s) (Span.single start stop)) eqn:Hov.
    { split; [done|]. apply overlaps_true in Hov as (i & Hi1 & Hi2).
      rewrite iter_single in Hi2. apply elem_of_range in Hi2.
      exists i. left. split; [done|]. rewrite cover_count_cons.
      rewrite decide_True by done. lia. }
    assert (Hdisj : ∀ i, i ∈ Span.iter (Span.mk s) → ¬ covers (start, stop) i).
    { intros i Hi Hc. assert (Span.overlaps (Span.mk s) (Span.single start stop) = true);
        [|congruence].
      apply overlaps_true. exists i. split; [done|].
      rewrite iter_single. by apply elem_of_range. }
    assert (Hcont : ∀ s' : list Span.slice,
               Span.iter (Span.mk s') = Span.iter (Span.mk s) ++ Span.range start stop →
               s' ≠ [] → Forall forward s' →
               (∀ r q, r ∈ s' → q ∈ ps → by_start r q) →
               match Span.init_loop s' false ps with
               | Ok s'' =>
                   s'' ≠ []
                   ∧ StronglySorted Z.lt (Span.iter (Span.mk s''))
                   ∧ (∀ i, i ∈ Span.iter (Span.mk s'')
                           ↔ i ∈ Span.iter (Span.mk s)
                             ∨ ∃ p, p ∈ (start, stop) :: ps ∧ covers p i)
                   ∧ (∀ i, (i ∈ Span.iter (Span.mk s)
                            → cover_count i ((start, stop) :: ps) = 0%nat)
                           ∧ (cover_count i ((start, stop) :: ps) ≤ 1)%nat)
               | Err e =>
                   e = InvalidSpan
                   ∧ ∃ i, (i ∈ Span.iter (Span.mk s)
                           ∧ (1 ≤ cover_count i ((start, stop) :: ps))%nat)
                          ∨ (2 ≤ cover_count i ((start, stop) :: ps))%nat
               end).
    { intros s' Hiter' Hne' Hfw' Hstart'.
      assert (Hsorted' : StronglySorted Z.lt (Span.iter (Span.mk s'))).
      { rewrite Hiter'. apply StronglySorted_app_2; [|done|apply range_sorted].
        intros x1 x2 Hx1 Hx2%elem_of_range.
        destruct (Z_lt_ge_dec x1 start) as [|Hge]; [lia|]. exfalso.
        apply (Hdisj start); [|unfold covers; simpl; lia].
        apply elem_of_iter in Hx1 as (r & Hr & Hrx). apply elem_of_iter.
        exists r. split; [done|].
        assert (by_start r (start, stop)) as Hrs
          by (apply Hstart; [done | apply list_elem_of_here]).
        unfold by_start in Hrs. simpl in *. lia. }
      specialize (IH s' Hne' Hfw' Hps Hsorted Hstart' Hsorted').
      destruct (Span.init_loop s' false ps) as [s''|e].
      + destruct IH as (Hne'' & Hsorted'' & Hmem & Hcount).
        split; [done|]. split; [done|]. split.
        * intros i. rewrite Hmem, Hiter', elem_of_app, elem_of_range. split.
          -- intros [[Hi|Hi]|(p & Hp' & Hc)]; [by left| |].
             ++ right. exists (start, stop). split; [apply list_elem_of_here | done].
             ++ right. exists p. split; [by apply list_elem_of_further | done].
          -- intros [Hi|(p & [->|Hp']%elem_of_cons & Hc)];
               [by left; left | by left; right | right; by exists p].
        * intros i. rewrite cover_count_cons. destruct (Hcount i) as [Hc0 Hc1].
          rewrite Hiter', elem_of_app, elem_of_range in Hc0.
          destruct (decide (covers (start, stop) i)) as [Hc|Hc].
          -- rewrite Hc0 by (by right). split; [|lia].
             intros Hi. by apply Hdisj in Hi.
          -- split; [|simpl; lia]. intros Hi. simpl. apply Hc0. by left.
      + destruct IH as (-> & i & Hcase). split; [done|]. exists i.
        rewrite cover_count_cons.
        rewrite Hiter', elem_of_app, elem_of_range in Hcase.
        destruct (decide (covers (start, stop) i)) as [Hc|Hc].
        * destruct Hcase as [[_ Hge]|Hge]; right; lia.
        * destruct Hcase as [[[Hi|Hi] Hge]|Hge];
            [left; split; [done|simpl; lia] | done | right; simpl; lia]. }
    destruct (last s) as [l|] eqn:Hlast;
      [|by destruct s using rev_ind; [|rewrite last_snoc in Hlast]].
    apply last_Some in Hlast as [s0 ->].
    apply Forall_app in Hs as [Hs0 Hl]. apply Forall_inv in Hl. unfold forward in Hl.
    destruct (Z.eqb_spec l.2 start) as [Heq|Hneq]; apply Hcont.
    + rewrite insert_last. rewrite !iter_snoc. simpl.
      by rewrite <- app_assoc, <- Heq, <- range_join by lia.
    + rewrite insert_last. by destruct s0.
    + rewrite insert_last.
      apply Forall_app. split; [done|]. apply Forall_cons. split; [|done].
      unfold forward. simpl. lia.
    + rewrite insert_last.
      intros r q [Hr|Hr%list_elem_of_singleton]%elem_of_app Hq.
      * apply Hstart; [|by apply list_elem_of_further].
        apply elem_of_app. by left.
      * subst r. unfold by_start. simpl.
        apply (Hstart l q); [|by apply list_elem_of_further].
        apply elem_of_app. right. by apply list_elem_of_singleton.
    + by rewrite iter_snoc.
    + by destruct s0.
    + apply Forall_app. split.
      * apply Forall_app. split; [done|]. by apply Forall_singleton.
      * by apply Forall_singleton.
    + intros r q [Hr|Hr%list_elem_of_singleton]%elem_of_app Hq.
      * apply Hstart; [done | by apply list_elem_of_further].
      * subst r. by apply (proj1 (Forall_forall _ _) Hhd).
Qed.

Lemma sorted_lt_NoDup (l : list Z) : StronglySorted Z.lt l → NoDup l.
Proof.
  induction 1 as [|x l Hl IH Hx]; constructor; [|done].
  intros Hin. apply (proj1 (Forall_forall _ _) Hx) in Hin. lia.
Qed.

(** The constructor's loop on the sorted ranges, all of them forward *)
Lemma init_loop_sorted (l : list Span.slice) :
  l ≠ [] → Forall forward l →
  match Span.init_loop [] true (Span.sorted l) with
  | Ok s' =>
      s' ≠ []
      ∧ StronglySorted Z.lt (Span.iter (Span.mk s'))
      ∧ (∀ i, i ∈ Span.iter (Span.mk s') ↔ ∃ p, p ∈ l ∧ covers p i)
      ∧ (∀ i, (cover_count i l ≤ 1)%nat)
  | Err e => e = InvalidSpan ∧ ∃ i, (2 ≤ cover_count i l)%nat
  end.
Proof.
  intros Hne Hfw. pose proof (sorted_perm l) as Hperm.
  pose proof (sorted_by_start l) as Hsorted.
  rewrite <- Hperm in Hfw.
  destruct (Span.sorted l) as [|p ps] eqn:Hsl.
  { apply Permutation_nil_l in Hperm. by subst l. }
  simpl. destruct p as [start stop]. simpl.
  apply Forall_cons in Hfw as [Hp Hps].
  apply StronglySorted_cons in Hsorted as [Hhd Hsorted].
  pose proof (init_loop_forward ps [(start, stop)]) as Hloop.
  assert (Hiter : Span.iter (Span.mk [(start, stop)]) = Span.range start stop)
    by apply iter_single.
  rewrite Hiter in Hloop.
  assert (Hcc : ∀ i, cover_count i l = cover_count i ((start, stop) :: ps))
    by (intros i; by apply cover_count_perm).
  destruct (Span.init_loop [(start, stop)] false ps) as [s'|e].
  - destruct Hloop as (Hne' & Hs' & Hmem & Hcount); try done.
    { by apply Forall_singleton. }
    { intros r q ->%list_elem_of_singleton Hq.
      by apply (proj1 (Forall_forall _ _) Hhd). }
    { apply range_sorted. }
    split; [done|]. split; [done|]. split.
    + intros i. rewrite Hmem, elem_of_range. split.
      * intros [Hi|(q & Hq & Hc)].
        -- exists (start, stop). split; [|done].
           rewrite <- Hperm. apply list_elem_of_here.
        -- exists q. split; [|done]. rewrite <- Hperm. by apply list_elem_of_further.
      * intros (q & Hq & Hc). rewrite <- Hperm in Hq.
        apply elem_of_cons in Hq as [->|Hq]; [by left | right; by exists q].
    + intros i. rewrite Hcc, cover_count_cons. destruct (Hcount i) as [Hc0 Hc1].
      rewrite elem_of_range in Hc0.
      destruct (decide (covers (start, stop) i)) as [Hc|Hc]; [|simpl; lia].
      rewrite Hc0 by done. lia.
  - destruct Hloop as (-> & i & Hcase); try done.
    { by apply Forall_singleton. }
    { intros r q ->%list_elem_of_singleton Hq.
      by apply (proj1 (Forall_forall _ _) Hhd). }
    { apply range_sorted. }
    split; [done|]. exists i. rewrite Hcc, cover_count_cons.
    rewrite elem_of_range in Hcase.
    destruct Hcase as [[Hi Hge]|Hge].
    + rewrite decide_True by done. lia.
    + lia.
Qed.

(** A non-empty argument tuple of even length gives at least one range *)
Lemma pairs_of_nonempty (args : list Z) :
  args ≠ [] → Nat.even (length args) = true → pairs_of args ≠ [].
Proof.
  destruct args as [|a [|b rest]]; [done | done |].
  intros _ _. unfold pairs_of. simpl. by destruct rest.
Qed.

Lemma init_unfold (args : list Z) :
  args ≠ [] → Nat.even (length args) = true →
  Span.init args
  = let* s := Span.init_loop [] true (Span.sorted (pairs_of args)) in Ok (Span.mk s).
Proof.
  intros Hne Hev. unfold Span.init.
  rewrite bool_decide_eq_false_2 by done. by rewrite Hev.
Qed.

Lemma init_Ok_args (args : list Z) (sp : Span.t) :
  Span.init args = Ok sp → args ≠ [] ∧ Nat.even (length args) = true.
Proof.
  unfold Span.init. destruct (bool_decide (args = [])) eqn:Hnil; [done|].
  apply bool_decide_eq_false in Hnil.
  destruct (Nat.even (length args)); [done|]. simpl. done.
Qed.

(** After the first range the constructor's loop looks at the last stored
    range of a list that is never empty *)
Lemma init_loop_Err (ps s : list Span.slice) (e : error) :
  s ≠ [] → Span.init_loop s false ps = Err e → e = InvalidSpan.
Proof.
  revert s. induction ps as [|[start stop] ps IH]; intros s Hne; simpl; [done|].
  destruct (Span.overlaps (Span.mk s) (Span.single start stop)); [congruence|].
  destruct s as [|r s0 _] using rev_ind; [done|].
  rewrite last_snoc. destruct (r.2 =? start).
  - rewrite insert_last. apply IH. by destruct s0.
  - apply IH. by destruct s0.
Qed.

(** X1. A span built from ranges that all have start <= stop iterates over
    its indices in strictly increasing order, an index is iterated exactly
    when one of the argument ranges holds it, and the span's length is the
    number of iterated indices. *)
Theorem init_forward_indices (args : list Z) (sp : Span.t) :
  Forall forward (pairs_of args) →
  Span.init args = Ok sp →
  StronglySorted Z.lt (Span.iter sp)
  ∧ (∀ i, i ∈ Span.iter sp ↔ ∃ p, p ∈ pairs_of args ∧ covers p i)
  ∧ Span.len sp = Z.of_nat (length (Span.iter sp)).
Proof.
  intros Hfw Hinit. destruct (init_Ok_args _ _ Hinit) as [Hne Hev].
  rewrite init_unfold in Hinit by done.
  pose proof (init_loop_sorted (pairs_of args)
                (pairs_of_nonempty args Hne Hev) Hfw) as Hloop.
  destruct (Span.init_loop [] true (Span.sorted (pairs_of args))) as [s|e];
    [|done].
  simpl in Hinit. injection Hinit as <-.
  destruct Hloop as (_ & Hsorted & Hmem & _).
  split; [done|]. split; [done|].
  unfold Span.len, Span.to_set. f_equal.
  apply size_list_to_set. by apply sorted_lt_NoDup.
Qed.

Lemma init_forward_indices_witness :
  Forall forward (pairs_of [9; 12; 3; 6])
  ∧ Span.init [9; 12; 3; 6] = Ok (Span.mk [(3, 6); (9, 12)])
  ∧ StronglySorted Z.lt (Span.iter (Span.mk [(3, 6); (9, 12)]))
  ∧ Span.len (Span.mk [(3, 6); (9, 12)]) = 6.
Proof.
  assert (Hfw : Forall forward (pairs_of [9; 12; 3; 6]))
    by (repeat constructor; unfold forward; simpl; lia).
  assert (Hinit : Span.init [9; 12; 3; 6] = Ok (Span.mk [(3, 6); (9, 12)]))
    by reflexivity.
  split; [exact Hfw|]. split; [exact Hinit|].
  destruct (init_forward_indices _ _ Hfw Hinit) as (Hsorted & _ & Hlen).
  split; [exact Hsorted|]. rewrite Hlen. reflexivity.
Defined.

(** X2. On ranges that all have start <= stop the constructor succeeds
    exactly when the argument tuple is non-empty, has even length, and no
    index is held by two of the argument ranges. *)
Theorem init_succeeds_iff (args : list Z) :
  Forall forward (pairs_of args) →
  (∃ sp, Span.init args = Ok sp)
  ↔ args ≠ [] ∧ Nat.even (length args) = true
    ∧ ∀ i, (cover_count i (pairs_of args) ≤ 1)%nat.
Proof.
  intros Hfw. split.
  - intros [sp Hinit]. destruct (init_Ok_args _ _ Hinit) as [Hne Hev].
    split; [done|]. split; [done|].
    rewrite init_unfold in Hinit by done.
    pose proof (init_loop_sorted (pairs_of args)
                  (pairs_of_nonempty args Hne Hev) Hfw) as Hloop.
    destruct (Span.init_loop [] true (Span.sorted (pairs_of args))) as [s|e];
      [|done].
    by destruct Hloop as (_ & _ & _ & Hcount).
  - intros (Hne & Hev & Hcount). rewrite init_unfold by done.
    pose proof (init_loop_sorted (pairs_of args)
                  (pairs_of_nonempty args Hne Hev) Hfw) as Hloop.
    destruct (Span.init_loop [] true (Span.sorted (pairs_of args))) as [s|e].
    + by exists (Span.mk s).
    + destruct Hloop as (_ & i & Hi). specialize (Hcount i). lia.
Qed.

Lemma init_succeeds_iff_witness :
  Forall forward (pairs_of [3; 6; 5; 8])
  ∧ cover_count 5 (pairs_of [3; 6; 5; 8]) = 2%nat
  ∧ ¬ ∃ sp, Span.init [3; 6; 5; 8] = Ok sp.
Proof.
  assert (Hfw : Forall forward (pairs_of [3; 6; 5; 8]))
    by (repeat constructor; unfold forward; simpl; lia).
  split; [exact Hfw|]. split; [reflexivity|].
  intros Hsp. apply (init_succeeds_iff _ Hfw) in Hsp as (_ & _ & Hcount).
  specialize (Hcount 5). vm_compute in Hcount. lia.
Defined.

(** X3. Whatever the arguments, the only exception the constructor raises is
    the one it raises itself: reading the last stored range never fails. *)
Theorem init_raises_own (args : list Z) (e : error) :
  Span.init args = Err e → e = InvalidSpan.
Proof.
  unfold Span.init.
  destruct (bool_decide (args = []) || negb (Nat.even (length args)));
    [congruence|].
  destruct (Span.sorted (Span.zip (Span.stride2 args) (Span.stride2 (tail args))))
    as [|[start stop] ps]; [done|].
  simpl.
  destruct (Span.init_loop [(start, stop)] false ps) as [s|e'] eqn:Hloop; [done|].
  simpl. intros [= <-]. by apply (init_loop_Err ps [(start, stop)]).
Qed.

Lemma init_raises_own_witness :
  Span.init [3; 6; 5; 8] = Err InvalidSpan ∧ InvalidSpan = InvalidSpan.
Proof.
  assert (Hinit : Span.init [3; 6; 5; 8] = Err InvalidSpan) by reflexivity.
  split; [exact Hinit|]. symmetry. exact (init_raises_own _ _ Hinit).
Defined.

(** ** Span: bounds, contiguity and subspans *)

Lemma init_loop_nonempty (ps s s' : list Span.slice) :
  s ≠ [] → Span.init_loop s false ps = Ok s' → s' ≠ [].
Proof.
  revert s. induction ps as [|[start stop] ps IH]; intros s Hne; simpl.
  { by intros [= <-]. }
  destruct (Span.overlaps (Span.mk s) (Span.single start stop)); [done|].
  destruct s as [|r s0 _] using rev_ind; [done|].
  rewrite last_snoc. destruct (r.2 =? start).
  - rewrite insert_last. apply IH. by destruct s0.
  - apply IH. by destruct s0.
Qed.

Lemma init_nonempty (args : list Z) (sp : Span.t) :
  Span.init args = Ok sp → Span._s sp ≠ [].
Proof.
  intros Hinit. destruct (init_Ok_args _ _ Hinit) as [Hne Hev].
  rewrite init_unfold in Hinit by done.
  apply bind_Ok in Hinit as (s & Hloop & [= <-]). simpl.
  destruct (Span.sorted (pairs_of args)) as [|[start stop] ps] eqn:Hsl.
  { pose proof (sorted_perm (pairs_of args)) as Hperm. rewrite Hsl in Hperm.
    apply Permutation_nil_l in Hperm. symmetry in Hperm.
    by apply (pairs_of_nonempty args Hne Hev) in Hperm. }
  simpl in Hloop. by apply (init_loop_nonempty ps [(start, stop)]).
Qed.

Lemma init_loop_keeps_forward (ps : list Span.slice) :
  ∀ (s s' : list Span.slice) (first : bool),
    Forall forward s → Forall forward ps →
    Span.init_loop s first ps = Ok s' → Forall forward s'.
Proof.
  induction ps as [|[start stop] ps IH]; intros s s' first Hs Hps; simpl.
  { by intros [= <-]. }
  apply Forall_cons in Hps as [Hp Hps]. unfold forward in Hp. simpl in Hp.
  assert (Happ : Forall forward (s ++ [(start, stop)]))
    by (apply Forall_app; split; [done | by apply Forall_singleton]).
  destruct first; [by apply IH|].
  destruct (Span.overlaps (Span.mk s) (Span.single start stop)); [done|].
  destruct (last s) as [l|] eqn:Hlast; [|done].
  destruct (Z.eqb_spec l.2 start) as [Heq|Hneq]; [|by apply IH].
  apply last_Some in Hlast as [s0 ->]. rewrite insert_last.
  apply IH; [|done]. apply Forall_app in Hs as [Hs0 Hl].
  apply Forall_inv in Hl. unfold forward in Hl.
  apply Forall_app. split; [done|]. apply Forall_singleton.
  unfold forward. simpl. lia.
Qed.

Lemma init_keeps_forward (args : list Z) (sp : Span.t) :
  Forall forward (pairs_of args) → Span.init args = Ok sp →
  Forall forward (Span._s sp).
Proof.
  intros Hfw Hinit. destruct (init_Ok_args _ _ Hinit) as [Hne Hev].
  rewrite init_unfold in Hinit by done.
  apply bind_Ok in Hinit as (s & Hloop & [= <-]). simpl.
  apply (init_loop_keeps_forward (Span.sorted (pairs_of args)) [] s true);
    [done| |done].
  by rewrite sorted_perm.
Qed.

Lemma foldl_min_spec (l : list Z) (a : Z) :
  (foldl Z.min a l ≤ a ∧ ∀ x, x ∈ l → foldl Z.min a l ≤ x)
  ∧ (foldl Z.min a l = a ∨ foldl Z.min a l ∈ l).
Proof.
  revert a. induction l as [|y l IH]; intros a; simpl.
  { split; [split; [lia|] | by left]. by intros x ?%not_elem_of_nil. }
  destruct (IH (Z.min a y)) as [[Hle Hall] Hattained]. split; [split|].
  - lia.
  - intros x [->|Hx]%elem_of_cons; [lia | by apply Hall].
  - destruct Hattained as [Heq|Hin].
    + rewrite Heq. destruct (Z.min_spec a y) as [[_ Hm]|[_ Hm]]; rewrite Hm.
      * by left.
      * right. apply list_elem_of_here.
    + right. by apply list_elem_of_further.
Qed.

Lemma foldl_max_spec (l : list Z) (a : Z) :
  (a ≤ foldl Z.max a l ∧ ∀ x, x ∈ l → x ≤ foldl Z.max a l)
  ∧ (foldl Z.max a l = a ∨ foldl Z.max a l ∈ l).
Proof.
  revert a. induction l as [|y l IH]; intros a; simpl.
  { split; [split; [lia|] | by left]. by intros x ?%not_elem_of_nil. }
  destruct (IH (Z.max a y)) as [[Hle Hall] Hattained]. split; [split|].
  - lia.
  - intros x [->|Hx]%elem_of_cons; [lia | by apply Hall].
  - destruct Hattained as [Heq|Hin].
    + rewrite Heq. destruct (Z.max_spec a y) as [[_ Hm]|[_ Hm]]; rewrite Hm.
      * right. apply list_elem_of_here.
      * by left.
    + right. by apply list_elem_of_further.
Qed.

(** The least start and the greatest stop of a span with a stored range *)
Lemma bounds_nonempty (sp : Span.t) :
  Span._s sp ≠ [] →
  ∃ a b, Span.minstart sp = Ok a ∧ Span.maxstop sp = Ok b
    ∧ (∀ s, s ∈ Span._s sp → a ≤ s.1 ∧ s.2 ≤ b)
    ∧ (∃ s, s ∈ Span._s sp ∧ s.1 = a)
    ∧ (∃ s, s ∈ Span._s sp ∧ s.2 = b).
Proof.
  destruct sp as [[|s0 rest]]; simpl; [done|]. intros _.
  unfold Span.minstart, Span.maxstop. simpl.
  destruct (foldl_min_spec (fst <$> rest) s0.1) as [[Hmin0 Hmin] Hmina].
  destruct (foldl_max_spec (snd <$> rest) s0.2) as [[Hmax0 Hmax] Hmaxa].
  eexists _, _. split; [done|]. split; [done|]. split; [|split].
  - intros s [->|Hs]%elem_of_cons; [done|]. split.
    + apply Hmin. apply list_elem_of_fmap. by exists s.
    + apply Hmax. apply list_elem_of_fmap. by exists s.
  - destruct Hmina as [Heq|Hin].
    + exists s0. split; [apply list_elem_of_here | done].
    + apply list_elem_of_fmap in Hin as (s & Heq & Hs).
      exists s. split; [by apply list_elem_of_further | done].
  - destruct Hmaxa as [Heq|Hin].
    + exists s0. split; [apply list_elem_of_here | done].
    + apply list_elem_of_fmap in Hin as (s & Heq & Hs).
      exists s. split; [by apply list_elem_of_further | done].
Qed.

Lemma sorted_length_le (l : list Z) :
  ∀ a b : Z, StronglySorted Z.lt l → (∀ x, x ∈ l → a ≤ x < b) →
             Z.of_nat (length l) ≤ Z.max 0 (b - a).
Proof.
  induction l as [|x l IH]; intros a b Hsorted Hin; simpl length; [lia|].
  apply StronglySorted_cons in Hsorted as [Hx Hsorted].
  assert (a ≤ x < b) by (apply Hin, list_elem_of_here).
  assert (Z.of_nat (length l) ≤ Z.max 0 (b - (x + 1))).
  { apply IH; [done|]. intros y Hy.
    assert (x < y) by (by apply (proj1 (Forall_forall _ _) Hx)).
    assert (a ≤ y < b) by (by apply Hin, list_elem_of_further). lia. }
  lia.
Qed.

(** An increasing list of [b - a] integers of [a .. b-1] is all of them *)
Lemma sorted_full (l : list Z) :
  ∀ a b : Z, StronglySorted Z.lt l → (∀ x, x ∈ l → a ≤ x < b) →
             Z.of_nat (length l) = b - a → l = Span.range a b.
Proof.
  unfold Span.range.
  induction l as [|x l IH]; intros a b Hsorted Hin Hlen; simpl length in Hlen.
  { by replace (b - a) with 0 by lia. }
  apply StronglySorted_cons in Hsorted as [Hx Hsorted].
  assert (a ≤ x < b) by (apply Hin, list_elem_of_here).
  assert (Hl : ∀ y, y ∈ l → x + 1 ≤ y < b).
  { intros y Hy.
    assert (x < y) by (by apply (proj1 (Forall_forall _ _) Hx)).
    assert (a ≤ y < b) by (by apply Hin, list_elem_of_further). lia. }
  pose proof (sorted_length_le l (x + 1) b Hsorted Hl).
  assert (x = a) as -> by lia.
  rewrite seqZ_cons by lia. f_equal.
  replace (Z.succ a) with (a + 1) by lia.
  replace (Z.pred (b - a)) with (b - (a + 1)) by lia.
  apply IH; [done | done | lia].
Qed.

Lemma length_range (a b : Z) : Z.of_nat (length (Span.range a b)) = Z.max 0 (b - a).
Proof. unfold Span.range. rewrite length_seqZ. lia. Qed.

(** X4. The least start and the greatest stop of a constructed span are always
    defined (the constructor stores at least one range), each is the start or
    the stop of a stored range, and every iterated index lies between them. *)
Theorem bounds_of_constructed (args : list Z) (sp : Span.t) :
  Span.init args = Ok sp →
  ∃ a b, Span.minstart sp = Ok a ∧ Span.maxstop sp = Ok b
    ∧ (∀ i, i ∈ Span.iter sp → a ≤ i < b)
    ∧ (∃ s, s ∈ Span._s sp ∧ s.1 = a)
    ∧ (∃ s, s ∈ Span._s sp ∧ s.2 = b).
Proof.
  intros Hinit.
  destruct (bounds_nonempty sp (init_nonempty _ _ Hinit))
    as (a & b & Ha & Hb & Hall & Hmin & Hmax).
  exists a, b. split; [done|]. split; [done|]. split; [|done].
  intros i (s & Hs & Hi)%elem_of_iter. destruct (Hall s Hs). lia.
Qed.

Lemma bounds_of_constructed_witness :
  Span.init [9; 12; 3; 6] = Ok (Span.mk [(3, 6); (9, 12)])
  ∧ ∃ a b, Span.minstart (Span.mk [(3, 6); (9, 12)]) = Ok a
           ∧ Span.maxstop (Span.mk [(3, 6); (9, 12)]) = Ok b
           ∧ ∀ i, i ∈ Span.iter (Span.mk [(3, 6); (9, 12)]) → a ≤ i < b.
Proof.
  assert (Hinit : Span.init [9; 12; 3; 6] = Ok (Span.mk [(3, 6); (9, 12)]))
    by reflexivity.
  split; [exact Hinit|].
  destruct (bounds_of_constructed _ _ Hinit) as (a & b & Ha & Hb & Hin & _).
  exists a, b. split; [exact Ha|]. split; [exact Hb | exact Hin].
Defined.

(** X5. A span built from ranges with start <= stop is reported contiguous
    exactly when it iterates over every index from its least start to its
    greatest stop, in order. *)
Theorem contiguous_forward (args : list Z) (sp : Span.t) :
  Forall forward (pairs_of args) → Span.init args = Ok sp →
  ∃ a b, Span.minstart sp = Ok a ∧ Span.maxstop sp = Ok b ∧ a ≤ b
    ∧ Span.contiguous sp = Ok (bool_decide (Span.iter sp = Span.range a b)).
Proof.
  intros Hfw Hinit.
  destruct (bounds_nonempty sp (init_nonempty _ _ Hinit))
    as (a & b & Ha & Hb & Hall & (s0 & Hs0 & Hs0a) & _).
  pose proof (init_keeps_forward _ _ Hfw Hinit) as Hfw'.
  assert (Hab : a ≤ b).
  { destruct (Hall s0 Hs0) as [_ Hstop].
    pose proof (proj1 (Forall_forall _ _) Hfw' s0 Hs0) as Hs0fw.
    unfold forward in Hs0fw. lia. }
  assert (Hsorted : StronglySorted Z.lt (Span.iter sp)).
  { destruct (init_Ok_args _ _ Hinit) as [Hne Hev].
    rewrite init_unfold in Hinit by done.
    pose proof (init_loop_sorted (pairs_of args)
                  (pairs_of_nonempty args Hne Hev) Hfw) as Hloop.
    destruct (Span.init_loop [] true (Span.sorted (pairs_of args))) as [s|e];
      [|done].
    simpl in Hinit. injection Hinit as <-. by destruct Hloop as (_ & Hsorted & _). }
  assert (Hlen : Span.len sp = Z.of_nat (length (Span.iter sp))).
  { unfold Span.len, Span.to_set. f_equal.
    apply size_list_to_set. by apply sorted_lt_NoDup. }
  exists a, b. split; [done|]. split; [done|]. split; [done|].
  unfold Span.contiguous. rewrite Hb, Ha. simpl. f_equal. rewrite Hlen.
  destruct (Z.eqb_spec (b - a) (Z.of_nat (length (Span.iter sp)))) as [Heq|Hneq];
    symmetry.
  - apply bool_decide_eq_true. apply sorted_full; [done| |done].
    intros i (s & Hs & Hi)%elem_of_iter. destruct (Hall s Hs). lia.
  - apply bool_decide_eq_false. intros Heq. apply Hneq.
    rewrite Heq, length_range. lia.
Qed.

Lemma contiguous_forward_witness :
  Forall forward (pairs_of [9; 12; 3; 6])
  ∧ Span.init [9; 12; 3; 6] = Ok (Span.mk [(3, 6); (9, 12)])
  ∧ Span.contiguous (Span.mk [(3, 6); (9, 12)]) = Ok false.
Proof.
  assert (Hfw : Forall forward (pairs_of [9; 12; 3; 6]))
    by (repeat constructor; unfold forward; simpl; lia).
  assert (Hinit : Span.init [9; 12; 3; 6] = Ok (Span.mk [(3, 6); (9, 12)]))
    by reflexivity.
  split; [exact Hfw|]. split; [exact Hinit|].
  destruct (contiguous_forward _ _ Hfw Hinit) as (a & b & Ha & Hb & _ & Hc).
  injection Ha as <-. injection Hb as <-. rewrite Hc. reflexivity.
Defined.

(** X6. [subspans] never raises: every stored range is by itself a valid
    argument pair of the constructor, which builds the span of that range
    alone; iterating the subspans one after the other gives the iteration of
    the span. *)
Theorem subspans_spec (sp : Span.t) :
  mapM (fun s : Span.slice => Span.init [s.1; s.2]) (Span._s sp)
  = Ok (Span.subspans sp)
  ∧ flat_map Span.iter (Span.subspans sp) = Span.iter sp
  ∧ ∀ sub, sub ∈ Span.subspans sp → length (Span._s sub) = 1%nat.
Proof.
  split; [|split].
  - unfold Span.subspans. apply mapM_Ok_fmap. intros s _. apply init_single.
  - unfold Span.subspans, Span.iter. destruct sp as [l]. simpl.
    induction l as [|s l IH]; simpl; [done|]. rewrite app_nil_r. f_equal. apply IH.
  - unfold Span.subspans. intros sub (s & -> & _)%list_elem_of_fmap. done.
Qed.

(** X7. Adding two spans whose stored ranges have start <= stop does not
    depend on the order of the operands: both orders give the same span, or
    fail in the same way. *)
Theorem span_add_comm_forward (a b : Span.t) :
  Forall forward (Span._s a) → Forall forward (Span._s b) →
  Span.add a b = Span.add b a.
Proof.
  destruct a as [[|[a1 a2] [|a' la]]], b as [[|[b1 b2] [|b' lb]]];
    try reflexivity.
  intros Ha%Forall_inv Hb%Forall_inv. unfold forward in Ha, Hb. simpl in Ha, Hb.
  change (Span.add (Span.single a1 a2) (Span.single b1 b2)
          = Span.add (Span.single b1 b2) (Span.single a1 a2)).
  rewrite !add_single.
  destruct (Z.eqb_spec a2 b1) as [Hab|Hab], (Z.eqb_spec b2 a1) as [Hba|Hba];
    try reflexivity.
  do 2 f_equal; f_equal; lia.
Qed.

Lemma span_add_comm_forward_witness :
  Forall forward (Span._s (Span.single 6 9))
  ∧ Forall forward (Span._s (Span.single 3 6))
  ∧ Span.add (Span.single 6 9) (Span.single 3 6) = Ok (Span.single 3 9)
  ∧ Span.add (Span.single 3 6) (Span.single 6 9) = Ok (Span.single 3 9).
Proof.
  assert (Ha : Forall forward (Span._s (Span.single 6 9)))
    by (repeat constructor; unfold forward; simpl; lia).
  assert (Hb : Forall forward (Span._s (Span.single 3 6)))
    by (repeat constructor; unfold forward; simpl; lia).
  split; [exact Ha|]. split; [exact Hb|].
  rewrite <- (span_add_comm_forward _ _ Ha Hb). split; reflexivity.
Defined.

(** ** Span: relations between spans *)

Lemma nonempty_difference (X Y : gset Z) :
  Span.nonempty (Y ∖ X) = negb (bool_decide (Y ⊆ X)).
Proof.
  unfold Span.nonempty. destruct (decide (Y ⊆ X)) as [Hsub|Hsub].
  - rewrite (bool_decide_eq_true_2 (Y ⊆ X)) by done. simpl.
    apply bool_decide_eq_false. intros Hne. apply Hne.
    apply set_eq. intros i. rewrite elem_of_difference. split.
    + intros [Hi Hni]. by apply Hsub in Hi.
    + by intros ?%not_elem_of_empty.
  - rewrite (bool_decide_eq_false_2 (Y ⊆ X)) by done. simpl.
    apply bool_decide_eq_true. intros Hempty. apply Hsub. intros i Hi.
    destruct (decide (i ∈ X)) as [|Hni]; [done|]. exfalso.
    apply (not_elem_of_empty (C := gset Z) i). rewrite <- Hempty.
    by apply elem_of_difference.
Qed.

(** X8. [overlaps_partially] holds exactly when neither span encompasses the
    other; it and [overlaps] do not depend on the order of the two spans. *)
Theorem overlaps_partially_encompasses (a b : Span.t) :
  Span.overlaps_partially a b
  = negb (Span.encompasses a b) && negb (Span.encompasses b a)
  ∧ Span.overlaps_partially a b = Span.overlaps_partially b a
  ∧ Span.overlaps a b = Span.overlaps b a.
Proof.
  unfold Span.overlaps_partially, Span.encompasses, Span.overlaps.
  rewrite !nonempty_difference. split; [done|]. split.
  - apply andb_comm.
  - f_equal. apply set_eq. intros i. rewrite !elem_of_intersection. tauto.
Qed.

(** X9. [encompasses] is reflexive and transitive; a span that encompasses
    another is at least as long, and overlaps every span the other one
    overlaps. *)
Theorem encompasses_preorder (a b c : Span.t) :
  Span.encompasses a a = true
  ∧ (Span.encompasses a b = true → Span.encompasses b c = true →
     Span.encompasses a c = true)
  ∧ (Span.encompasses a b = true → Span.len b ≤ Span.len a)
  ∧ (Span.encompasses a b = true → Span.overlaps b c = true →
     Span.overlaps a c = true).
Proof.
  unfold Span.encompasses, Span.len, Span.overlaps.
  rewrite !bool_decide_eq_true. split; [done|]. split; [|split].
  - intros Hab Hbc i Hi. by apply Hab, Hbc.
  - intros Hab. apply inj_le. by apply subseteq_size.
  - intros Hab. rewrite !nonempty_true. intros [i Hi].
    apply elem_of_intersection in Hi as [Hc Hb]. exists i.
    apply elem_of_intersection. split; [done | by apply Hab].
Qed.

(** ** Span: reading a sequence through a span *)

Lemma mapM_Ok_Forall2 {A B} (f : A → result B) (l : list A) (out : list B) :
  mapM f l = Ok out ↔ Forall2 (fun x y => f x = Ok y) l out.
Proof.
  revert out. induction l as [|x l IH]; intros out; simpl.
  - split; [intros [= <-]; constructor | by intros ->%Forall2_nil_inv_l].
  - rewrite bind_Ok. split.
    + intros (y & Hy & Hrest). apply bind_Ok in Hrest as (ys & Hys & [= <-]).
      constructor; [done | by apply IH].
    + intros (y & ys & Hy & Hys & ->)%Forall2_cons_inv_l.
      exists y. split; [done|]. apply bind_Ok. exists ys. split; [by apply IH | done].
Qed.

Lemma mapM_Err {A B} (f : A → result B) (l : list A) (e : error) :
  mapM f l = Err e → ∃ x, x ∈ l ∧ f x = Err e.
Proof.
  induction l as [|x l IH]; simpl; [done|].
  intros [Hx|(y & Hy & Hrest)]%bind_Err.
  - exists x. split; [apply list_elem_of_here | done].
  - apply bind_Err in Hrest as [Hrest|(ys & _ & Hrest)]; [|done].
    destruct (IH Hrest) as (x' & Hx' & Hfx').
    exists x'. split; [by apply list_elem_of_further | done].
Qed.

Lemma mapM_is_Ok {A B} (f : A → result B) (l : list A) :
  (∀ x, x ∈ l → ∃ y, f x = Ok y) → ∃ out, mapM f l = Ok out.
Proof.
  induction l as [|x l IH]; intros Hall; simpl; [by eexists|].
  destruct (Hall x) as [y Hy]; [apply list_elem_of_here|].
  destruct IH as [ys Hys]; [intros x' Hx'; by apply Hall, list_elem_of_further|].
  exists (y :: ys). by rewrite Hy, Hys.
Qed.

(** [sequence[i]]: defined for the indices from [-n] to [n-1], a negative
    index counting from the end *)
Lemma getitem_spec {A} (sequence : list A) (i : Z) :
  let n := Z.of_nat (length sequence) in
  (- n ≤ i < n → ∃ x, Span.getitem sequence i = Ok x
                      ∧ sequence !! Z.to_nat (i mod n) = Some x)
  ∧ (¬ (- n ≤ i < n) → Span.getitem sequence i = Err IndexError).
Proof.
  intros n. unfold Span.getitem. fold n. split.
  - intros Hi.
    assert (Hj : (if i <? 0 then i + n else i) = i mod n).
    { destruct (Z.ltb_spec i 0).
      - apply (Z.mod_unique i n (-1)); lia.
      - symmetry. apply Z.mod_small. lia. }
    rewrite Hj. assert (0 ≤ i mod n < n) as Hmod by (apply Z.mod_pos_bound; lia).
    destruct (Z.ltb_spec (i mod n) 0); [lia|].
    destruct (Z.leb_spec n (i mod n)); [lia|]. simpl.
    destruct (lookup_lt_is_Some_2 sequence (Z.to_nat (i mod n))) as [x Hx];
      [unfold n in *; lia|].
    rewrite Hx. by exists x.
  - intros Hi. destruct (Z.ltb_spec i 0).
    + destruct (Z.ltb_spec (i + n) 0); [done|].
      destruct (Z.leb_spec n (i + n)); [done | lia].
    + destruct (Z.ltb_spec i 0); [lia|].
      destruct (Z.leb_spec n i); [done | lia].
Qed.

(** X10. Reading a sequence of n items through a span succeeds exactly when
    every iterated index lies from -n to n-1; the result then holds, in the
    order of the iteration, the items at those indices, a negative index
    counting from the end; the only failure is an IndexError. *)
Theorem call_list_spec {A} (sp : Span.t) (sequence : list A) :
  ((∃ out, Span.call_list sp sequence = Ok out)
   ↔ ∀ i, i ∈ Span.iter sp
          → - Z.of_nat (length sequence) ≤ i < Z.of_nat (length sequence))
  ∧ (∀ out, Span.call_list sp sequence = Ok out →
       Forall2 (fun i x =>
                  sequence !! Z.to_nat (i mod Z.of_nat (length sequence)) = Some x)
               (Span.iter sp) out)
  ∧ (∀ e, Span.call_list sp sequence = Err e → e = IndexError).
Proof.
  unfold Span.call_list. split; [split|split].
  - intros [out Hout] i Hi.
    apply mapM_Ok_Forall2 in Hout.
    destruct (decide (- Z.of_nat (length sequence) ≤ i
                      < Z.of_nat (length sequence))) as [|Hni]; [done|].
    apply list_elem_of_lookup in Hi as [k Hk].
    destruct (Forall2_lookup_l _ _ _ _ _ Hout Hk) as (x' & _ & Hx').
    by rewrite (proj2 (getitem_spec sequence i) Hni) in Hx'.
  - intros Hall. apply mapM_is_Ok. intros i Hi.
    destruct (proj1 (getitem_spec sequence i) (Hall i Hi)) as (x & Hx & _).
    by exists x.
  - intros out Hout%mapM_Ok_Forall2.
    eapply Forall2_impl; [exact Hout|]. intros i x Hx. simpl in Hx.
    destruct (decide (- Z.of_nat (length sequence) ≤ i
                      < Z.of_nat (length sequence))) as [Hi|Hni].
    + destruct (proj1 (getitem_spec sequence i) Hi) as (x' & Hx' & Hlook).
      congruence.
    + by rewrite (proj2 (getitem_spec sequence i) Hni) in Hx.
  - intros e (i & _ & Hi)%mapM_Err.
    destruct (decide (- Z.of_nat (length sequence) ≤ i
                      < Z.of_nat (length sequence))) as [Hin|Hni].
    + destruct (proj1 (getitem_spec sequence i) Hin) as (x' & Hx' & _).
      congruence.
    + rewrite (proj2 (getitem_spec sequence i) Hni) in Hi. congruence.
Qed.

(** ** PRCounter: the order of the counts *)

Lemma setitem_row_bounded {A} `{Countable A} (c c' : PRCounter.t) (k : string)
    (v : PRCounter.value A) :
  PRCounter.setitem c k v = Ok c' →
  ∃ row, c' = c ++ [(k, row)] ∧ bounded row
         ∧ (is_Some (PRCounter.N row) ↔ is_Some (PRCounter.N_of v)).
Proof.
  destruct v as [g q|n g q].
  - rewrite setitem_Pair. intros [= <-]. eexists. split; [reflexivity|].
    pose proof (len_intersection_le g q) as [Hp Hr]. unfold PRCounter.len in Hp, Hr.
    unfold bounded. simpl. repeat split; try lia; done.
  - rewrite setitem_Triple. destruct (decide _) as [|Hok]; [done|].
    destruct (decide _) as [|Ht]; [done|]. intros [= <-].
    eexists. split; [reflexivity|].
    pose proof (len_intersection_le g q) as [Hp Hr]. unfold PRCounter.len in Hp, Hr.
    unfold bounded. simpl. repeat split; try lia; try done.
    destruct (decide _) as [[_ <-]|_]; lia.
Qed.

Lemma elem_of_fill_fresh (src dst : PRCounter.t) (k : string) (x : PRCounter.Row) :
  (k, x) ∈ PRCounter.fill src dst →
  (k, x) ∈ dst
  ∨ ∃ x0, (k, x0) ∈ src ∧ (k ∉ PRCounter.labels dst) ∧ x = PRCounter.fill_row x0.
Proof.
  unfold PRCounter.fill. rewrite elem_of_app, list_elem_of_fmap.
  intros [Hin|([k0 x0] & [= -> ->] & Hin)]; [by left | right].
  apply list_elem_of_filter in Hin as [Hfresh Hin]. by exists x0.
Qed.

Lemma elem_of_labels (c : PRCounter.t) (k : string) (r : PRCounter.Row) :
  (k, r) ∈ c → k ∈ PRCounter.labels c.
Proof.
  intros Hin. unfold PRCounter.labels. apply list_elem_of_fmap. by exists (k, r).
Qed.

(** The sum of a row with a row in order, or with the fill of such a row *)
Lemma add_row_bounded (x y z : PRCounter.Row) :
  bounded x → (bounded y ∨ ∃ y0, y = PRCounter.fill_row y0) →
  PRCounter.add_row x y = Ok z → bounded (ratios z).
Proof.
  intros (Hx1 & Hx2 & Hx3) Hy Hz. unfold PRCounter.add_row in Hz.
  apply bind_Ok in Hz as (n & Hn & Hz). injection Hz as <-.
  unfold bounded. simpl. destruct Hy as [(Hy1 & Hy2 & Hy3)|[y0 ->]].
  - split; [lia|]. split; [lia|].
    destruct (PRCounter.N x) as [nx|], (PRCounter.N y) as [ny|];
      simpl in Hn; try done; injection Hn as <-;
      destruct (PRCounter.T x) as [tx|], (PRCounter.T y) as [ty|];
      simpl; try done; lia.
  - simpl in *. split; [lia|]. split; [lia|].
    destruct (PRCounter.N x) as [nx|], (PRCounter.N y0) as [ny|];
      simpl in Hn; try done; injection Hn as <-;
      destruct (PRCounter.T x) as [tx|]; simpl; try done; lia.
Qed.

Lemma add_row_bounded_l (x y z : PRCounter.Row) :
  (∃ x0, x = PRCounter.fill_row x0) → bounded y →
  PRCounter.add_row x y = Ok z → bounded (ratios z).
Proof.
  intros [x0 ->] (Hy1 & Hy2 & Hy3) Hz. unfold PRCounter.add_row in Hz.
  apply bind_Ok in Hz as (n & Hn & Hz). injection Hz as <-.
  unfold bounded. simpl in *. split; [lia|]. split; [lia|].
  destruct (PRCounter.N x0) as [nx|], (PRCounter.N y) as [ny|];
    simpl in Hn; try done; injection Hn as <-;
    destruct (PRCounter.T y) as [ty|]; simpl; try done; lia.
Qed.

Lemma reachable_rows_bounded (c : PRCounter.t) :
  reachable c → ∀ k r, (k, r) ∈ c → bounded r.
Proof.
  induction 1 as [|A ? ? c k0 v c' Hc IH Hset|a b c Ha IHa Hb IHb Hadd]; intros k r Hin.
  - by apply not_elem_of_nil in Hin.
  - apply setitem_row_bounded in Hset as (row & -> & Hrow & _).
    apply elem_of_app in Hin as [Hin|Hin%list_elem_of_singleton].
    + by apply (IH k).
    + by injection Hin as -> ->.
  - apply add_merged_Ok in Hadd as [Hadd _].
    unfold merged in Hadd. apply bind_Ok in Hadd as (nd & Hnd & Hadd).
    injection Hadd as <-.
    apply list_elem_of_fmap in Hin as ([k1 z] & [= -> ->] & Hin). simpl.
    destruct (df_add_elem _ _ _ _ _ Hnd Hin) as (x & y & Hx & Hy & Hz).
    apply elem_of_fill_fresh in Hx as [Hx|(x0 & Hx0 & Hfresh & ->)];
      apply elem_of_fill_fresh in Hy as [Hy|(y0 & Hy0 & Hfresh' & ->)].
    + apply (add_row_bounded x y z); [by eapply IHa | left; by eapply IHb | done].
    + apply (add_row_bounded x (PRCounter.fill_row y0) z);
        [by eapply IHa | right; by exists y0 | done].
    + apply (add_row_bounded_l (PRCounter.fill_row x0) y z);
        [by exists x0 | by eapply IHb | done].
    + exfalso. apply Hfresh. by apply (elem_of_labels _ _ y0).
Qed.

(** X11. In every table built by row assignments and merges, each row has
    0 <= Numer <= PDenom and Numer <= RDenom; a row with N has 0 <= T <= N and
    a row without N has no T. *)
Theorem reachable_counts_bounded (c : PRCounter.t) (k : string) (r : PRCounter.Row) :
  reachable c → (k, r) ∈ c →
  0 ≤ PRCounter.Numer r ≤ PRCounter.PDenom r
  ∧ PRCounter.Numer r ≤ PRCounter.RDenom r
  ∧ match PRCounter.N r, PRCounter.T r with
    | Some n, Some t => 0 ≤ t ≤ n
    | None, None => True
    | _, _ => False
    end.
Proof. intros Hc Hin. exact (reachable_rows_bounded c Hc k r Hin). Qed.

Lemma reachable_counts_bounded_witness :
  ∃ k r, (k, r) ∈ table_a ∧ reachable table_a
         ∧ PRCounter.Numer r ≤ PRCounter.PDenom r.
Proof.
  assert (Hin : ∃ k r, (k, r) ∈ table_a)
    by (unfold table_a; eexists _, _; apply list_elem_of_here).
  destruct Hin as (k & r & Hin). exists k, r.
  split; [exact Hin|]. split; [exact reachable_table_a|].
  destruct (reachable_counts_bounded table_a k r reachable_table_a Hin)
    as ((_ & Hle) & _).
  exact Hle.
Defined.

(** ** PRCounter: when a merge succeeds *)

Lemma add_row_is_Ok (x y : PRCounter.Row) :
  (∃ z, PRCounter.add_row x y = Ok z)
  ↔ (is_Some (PRCounter.N x) ↔ is_Some (PRCounter.N y)).
Proof.
  unfold PRCounter.add_row.
  destruct (PRCounter.N x) as [nx|], (PRCounter.N y) as [ny|]; simpl; split.
  - done.
  - intros _. by eexists.
  - intros [z Hz]. done.
  - intros [H1 _]. by destruct H1 as [? ?]; [eexists|].
  - intros [z Hz]. done.
  - intros [_ H2]. by destruct H2 as [? ?]; [eexists|].
  - done.
  - intros _. by eexists.
Qed.

Lemma add_row_fill_is_Ok (x : PRCounter.Row) :
  (∃ z, PRCounter.add_row x (PRCounter.fill_row x) = Ok z)
  ∧ (∃ z, PRCounter.add_row (PRCounter.fill_row x) x = Ok z).
Proof.
  split; apply add_row_is_Ok; simpl; by destruct (PRCounter.N x).
Qed.

Lemma add_is_Ok (a b : PRCounter.t) :
  NoDup (PRCounter.labels a) → NoDup (PRCounter.labels b) →
  same_sizing a b → ∃ c, merged a b = Ok c.
Proof.
  intros Ha Hb Hsame. destruct (merged a b) as [c|e] eqn:Hadd; [by exists c|].
  exfalso. destruct (add_Err a b e Ha Hb Hadd) as (_ & k & Hk).
  unfold row_sum in Hk.
  destruct (PRCounter.get a k) as [x|] eqn:Hx, (PRCounter.get b k) as [y|] eqn:Hy;
    [| | |done].
  - destruct (proj2 (add_row_is_Ok x y) (Hsame k x y Hx Hy)) as [z Hz].
    rewrite Hz in Hk. done.
  - destruct (add_row_fill_is_Ok x) as [[z Hz] _]. rewrite Hz in Hk. done.
  - destruct (add_row_fill_is_Ok y) as [_ [z Hz]]. rewrite Hz in Hk. done.
Qed.

Lemma merged_is_Ok_iff (a b : PRCounter.t) :
  NoDup (PRCounter.labels a) → NoDup (PRCounter.labels b) →
  ((∃ c, merged a b = Ok c) ↔ same_sizing a b)
  ∧ (∀ e, merged a b = Err e → e = TypeError).
Proof.
  intros Ha Hb. split; [split|].
  - intros [c Hadd] k x y Hx Hy. apply add_row_is_Ok.
    destruct (add_Ok a b c Hadd) as [_ Hrows]. specialize (Hrows k).
    rewrite Hx, Hy in Hrows. simpl in Hrows.
    destruct (PRCounter.add_row x y) as [z|e]; [by exists z|].
    by destruct (PRCounter.get c k).
  - by apply add_is_Ok.
  - intros e Hadd. by destruct (add_Err a b e Ha Hb Hadd).
Qed.

(** The row that two rows in order sum to has the [N] 0 when both have, and
    lacks [N] when both lack it *)
Lemma add_row_zero (x y z : PRCounter.Row) :
  bounded x → bounded y → PRCounter.add_row x y = Ok z →
  (zero_row z = true ↔ PRCounter.N x = Some 0 ∧ PRCounter.N y = Some 0)
  ∧ (PRCounter.N z = None ↔ PRCounter.N x = None ∨ PRCounter.N y = None).
Proof.
  intros (_ & _ & Hx) (_ & _ & Hy). unfold PRCounter.add_row, zero_row.
  destruct (PRCounter.N x) as [nx|], (PRCounter.N y) as [ny|];
    destruct (PRCounter.T x) as [tx|], (PRCounter.T y) as [ty|]; try done;
    simpl; intros [= <-]; simpl.
  - split; [|split; [done|by intros [|]]].
    rewrite Z.eqb_eq. split; [intros Hz|intros [[= ->] [= ->]]; done].
    split; f_equal; lia.
  - split; [|split; [by left|done]]. split; [done|by intros [? _]].
Qed.

Lemma add_row_fill_zero (x z : PRCounter.Row) :
  bounded x →
  PRCounter.add_row x (PRCounter.fill_row x) = Ok z
  ∨ PRCounter.add_row (PRCounter.fill_row x) x = Ok z →
  (zero_row z = true ↔ PRCounter.N x = Some 0)
  ∧ (PRCounter.N z = None ↔ PRCounter.N x = None).
Proof.
  intros (_ & _ & Hx). unfold PRCounter.add_row, PRCounter.fill_row, zero_row.
  destruct (PRCounter.N x) as [nx|]; destruct (PRCounter.T x) as [tx|]; try done;
    simpl; intros [[= <-]|[= <-]]; simpl;
    (split; [|done]); rewrite ?Z.eqb_eq; try done;
    (split; [intros Hz; f_equal; lia | intros [= ->]; done]).
Qed.

Lemma row_sum_zero (x y : option PRCounter.Row) (r : PRCounter.Row) :
  (∀ x0, x = Some x0 → bounded x0) → (∀ y0, y = Some y0 → bounded y0) →
  row_sum x y = Some (Ok r) →
  (zero_row r = true
   ↔ (∀ x0, x = Some x0 → PRCounter.N x0 = Some 0)
     ∧ (∀ y0, y = Some y0 → PRCounter.N y0 = Some 0))
  ∧ (PRCounter.N r = None
     ↔ (∃ x0, x = Some x0 ∧ PRCounter.N x0 = None)
       ∨ (∃ y0, y = Some y0 ∧ PRCounter.N y0 = None)).
Proof.
  intros Hx Hy Hsum. unfold row_sum in Hsum.
  destruct x as [x|], y as [y|]; [| | |done];
    injection Hsum as Hsum; apply bind_Ok in Hsum as (z & Hz & [= <-]);
    change (zero_row (ratios z)) with (zero_row z);
    change (PRCounter.N (ratios z)) with (PRCounter.N z).
  - destruct (add_row_zero x y z (Hx x eq_refl) (Hy y eq_refl) Hz) as [H1 H2].
    rewrite H1, H2. split.
    + split; [intros [? ?]; split; by intros ? [= <-]|].
      intros [H3 H4]. split; [by apply H3 | by apply H4].
    + split.
      * intros [?|?]; [left; by exists x | right; by exists y].
      * intros [(? & [= <-] & ?)|(? & [= <-] & ?)]; [by left | by right].
  - destruct (add_row_fill_zero x z (Hx x eq_refl) (or_introl Hz)) as [H1 H2].
    rewrite H1, H2. split.
    + split; [intros ?; split; [by intros ? [= <-] | done]|].
      intros [H3 _]. by apply H3.
    + split; [intros ?; left; by exists x|].
      by intros [(? & [= <-] & ?)|(? & [=] & ?)].
  - destruct (add_row_fill_zero y z (Hy y eq_refl) (or_intror Hz)) as [H1 H2].
    rewrite H1, H2. split.
    + split; [intros ?; split; [done | by intros ? [= <-]]|].
      intros [_ H4]. by apply H4.
    + split; [intros ?; right; by exists y|].
      by intros [(? & [=] & ?)|(? & [= <-] & ?)].
Qed.

(** The division of a merge raises exactly when the operands hold a row
    without [N] and a label under which all their [N] are 0 *)
Lemma zero_division_sum (a b m : PRCounter.t) :
  NoDup (PRCounter.labels a) → NoDup (PRCounter.labels b) →
  (∀ k x, (k, x) ∈ a → bounded x) → (∀ k y, (k, y) ∈ b → bounded y) →
  merged a b = Ok m →
  zero_division m = true ↔ zero_sum a b.
Proof.
  intros Ha Hb Hba Hbb Hm.
  pose proof (NoDup_add a b m Ha Hb Hm) as Hndm.
  destruct (add_Ok a b m Hm) as [_ Hrows].
  assert (Hrow : ∀ k r, PRCounter.get m k = Some r →
            (zero_row r = true
             ↔ (∀ x0, PRCounter.get a k = Some x0 → PRCounter.N x0 = Some 0)
               ∧ (∀ y0, PRCounter.get b k = Some y0 → PRCounter.N y0 = Some 0))
            ∧ (PRCounter.N r = None
               ↔ (∃ x0, PRCounter.get a k = Some x0 ∧ PRCounter.N x0 = None)
                 ∨ (∃ y0, PRCounter.get b k = Some y0 ∧ PRCounter.N y0 = None))).
  { intros k r Hr. apply row_sum_zero.
    - intros x0 Hx0. apply (Hba k). by apply get_Some_elem.
    - intros y0 Hy0. apply (Hbb k). by apply get_Some_elem.
    - by rewrite Hrows, Hr. }
  assert (Hsome : ∀ k, (k ∈ PRCounter.labels a ∨ k ∈ PRCounter.labels b) →
            ∃ r, (k, r) ∈ m ∧ PRCounter.get m k = Some r).
  { intros k Hk. specialize (Hrows k).
    destruct (PRCounter.get m k) as [r|] eqn:Hr;
      [exists r; split; [by apply get_Some_elem | done]|].
    exfalso. simpl in Hrows. unfold row_sum in Hrows.
    destruct (PRCounter.get a k) eqn:Hga; [by destruct (PRCounter.get b k)|].
    destruct (PRCounter.get b k) eqn:Hgb; [done|].
    apply get_None in Hga, Hgb. by destruct Hk. }
  unfold zero_division, PRCounter.object_N, zero_sum.
  rewrite andb_true_iff, !existsb_exists. split.
  - intros [([k r] & Hin%list_elem_of_In & HN) ([k' r'] & Hin'%list_elem_of_In & Hz)].
    simpl in HN, Hz. split.
    + destruct (PRCounter.N r) eqn:HNr; [done|].
      apply (Hrow k r (get_NoDup m k r Hndm Hin)) in HNr
        as [(x0 & Hx0%get_Some_elem & ?)|(y0 & Hy0%get_Some_elem & ?)].
      * exists k, x0. split; [by left | done].
      * exists k, y0. split; [by right | done].
    + exists k'. pose proof (get_NoDup m k' r' Hndm Hin') as Hget.
      apply (Hrow k' r' Hget) in Hz as [Hza Hzb]. split; [|split].
      * specialize (Hrows k'). rewrite Hget in Hrows. simpl in Hrows.
        destruct (PRCounter.get a k') eqn:Hga.
        -- left. apply (elem_of_labels a k' r0). by apply get_Some_elem.
        -- destruct (PRCounter.get b k') eqn:Hgb; [|done].
           right. apply (elem_of_labels b k' r0). by apply get_Some_elem.
      * intros x Hx. apply Hza. by apply get_NoDup.
      * intros y Hy. apply Hzb. by apply get_NoDup.
  - intros [(k & r & Hin & HN) (k' & Hk' & Hza & Hzb)]. split.
    + destruct (Hsome k) as (r0 & Hin0 & Hget0).
      { destruct Hin as [Hin|Hin]; [left | right]; by apply (elem_of_labels _ k r). }
      exists (k, r0). split; [by apply list_elem_of_In|]. simpl.
      assert (HN0 : PRCounter.N r0 = None).
      { apply (Hrow k r0 Hget0).
        destruct Hin as [Hin|Hin]; [left | right]; exists r;
          (split; [by apply get_NoDup | done]). }
      by rewrite HN0.
    + destruct (Hsome k' Hk') as (r0 & Hin0 & Hget0).
      exists (k', r0). split; [by apply list_elem_of_In|]. simpl.
      apply (Hrow k' r0 Hget0). split.
      * intros x0 Hx0. apply Hza. by apply get_Some_elem.
      * intros y0 Hy0. apply Hzb. by apply get_Some_elem.
Qed.

(** X12. For two tables built by row assignments and merges, with distinct
    labels: the merge returns exactly when, under every label they share,
    both rows carry N or both lack it, and it is not the case that one of the
    tables holds a row without N while under some label every row of theirs
    has the N 0; it raises TypeError (the empty string added to an integer)
    exactly when the first condition fails, ZeroDivisionError (T divided by
    the N 0 among Python objects) exactly when the first holds and the second
    fails, and no other exception. *)
Theorem merge_succeeds_iff (a b : PRCounter.t) :
  NoDup (PRCounter.labels a) → NoDup (PRCounter.labels b) →
  reachable a → reachable b →
  ((∃ c, PRCounter.add a b = Ok c) ↔ same_sizing a b ∧ ¬ zero_sum a b)
  ∧ (PRCounter.add a b = Err TypeError ↔ ¬ same_sizing a b)
  ∧ (PRCounter.add a b = Err ZeroDivisionError ↔ same_sizing a b ∧ zero_sum a b)
  ∧ (∀ e, PRCounter.add a b = Err e → e = TypeError ∨ e = ZeroDivisionError).
Proof.
  intros Ha Hb Hra Hrb.
  destruct (merged_is_Ok_iff a b Ha Hb) as [Hiff Honly].
  pose proof (zero_division_sum a b) as Hzero.
  specialize (fun m => Hzero m Ha Hb (reachable_rows_bounded a Hra)
                             (reachable_rows_bounded b Hrb)).
  rewrite add_merged.
  destruct (merged a b) as [m|e] eqn:Hm; cbn [bind].
  - assert (Hsame : same_sizing a b) by (apply Hiff; by exists m).
    specialize (Hzero m eq_refl).
    destruct (zero_division m) eqn:Hz.
    + assert (Hsum : zero_sum a b) by by apply Hzero.
      split; [|split; [|split]].
      * split; [by intros [c ?] | by intros [_ ?]].
      * split; [done | by intros ?].
      * done.
      * intros e [= <-]. by right.
    + assert (Hsum : ¬ zero_sum a b) by (intros Hs; by apply Hzero in Hs).
      split; [|split; [|split]].
      * split; [done | intros _; by exists m].
      * split; [done | by intros ?].
      * split; [done | by intros [_ ?]].
      * done.
  - pose proof (Honly e eq_refl) as ->.
    assert (Hsame : ¬ same_sizing a b) by (by intros [c Hc]%Hiff).
    split; [|split; [|split]].
    + split; [by intros [c ?] | by intros [? _]].
    + done.
    + split; [done | by intros [? _]].
    + intros e [= <-]. by left.
Qed.

Lemma merge_succeeds_iff_witness :
  (∃ c, PRCounter.add table_a table_b = Ok c)
  ∧ same_sizing table_a table_b
  ∧ zero_sum table_z table_z
  ∧ PRCounter.add table_z table_z = Err ZeroDivisionError.
Proof.
  assert (Ha : NoDup (PRCounter.labels table_a)) by decide_by_eval.
  assert (Hb : NoDup (PRCounter.labels table_b)) by decide_by_eval.
  assert (Hz : NoDup (PRCounter.labels table_z)) by decide_by_eval.
  assert (Hadd : ∃ c, PRCounter.add table_a table_b = Ok c)
    by (by vm_compute; eexists).
  assert (Herr : PRCounter.add table_z table_z = Err ZeroDivisionError)
    by (by vm_compute).
  split; [exact Hadd|].
  split.
  - exact (proj1 (proj1 (proj1 (merge_succeeds_iff table_a table_b Ha Hb
                                  reachable_table_a reachable_table_b)) Hadd)).
  - split; [|exact Herr].
    exact (proj2 (proj1 (proj1 (proj2 (proj2
             (merge_succeeds_iff table_z table_z Hz Hz
                reachable_table_z reachable_table_z)))) Herr)).
Defined.

(** ** PRCounter: merging with the empty table *)

Lemma add_row_fill_r (r : PRCounter.Row) :
  row_ok r →
  ∃ z, PRCounter.add_row r (PRCounter.fill_row r) = Ok z
       ∧ ratios z = r.
Proof.
  destruct r as [nu pd rd p r' f t n acc]. unfold row_ok. simpl.
  intros (_ & _ & _ & _ & _ & -> & -> & -> & ->).
  unfold PRCounter.add_row, ratios. simpl.
  destruct n as [n|], t as [t|]; simpl; eexists; (split; [reflexivity|]); simpl;
    rewrite ?Z.add_0_r; reflexivity.
Qed.

Lemma add_row_fill_l (r : PRCounter.Row) :
  row_ok r →
  ∃ z, PRCounter.add_row (PRCounter.fill_row r) r = Ok z
       ∧ ratios z = r.
Proof.
  destruct r as [nu pd rd p r' f t n acc]. unfold row_ok. simpl.
  intros (_ & _ & _ & _ & _ & -> & -> & -> & ->).
  unfold PRCounter.add_row, ratios. simpl.
  destruct n as [n|], t as [t|]; simpl; eexists; (split; [reflexivity|]); simpl;
    reflexivity.
Qed.

Lemma fill_nil_l (c : PRCounter.t) : PRCounter.fill [] c = c.
Proof. unfold PRCounter.fill. rewrite filter_nil. apply app_nil_r. Qed.

Lemma fill_nil_r (c : PRCounter.t) :
  PRCounter.fill c []
  = (fun kr : string * PRCounter.Row => (kr.1, PRCounter.fill_row kr.2)) <$> c.
Proof.
  unfold PRCounter.fill. simpl. f_equal.
  induction c as [|kr c IH]; [done|].
  rewrite filter_cons, decide_True by apply not_elem_of_nil. by rewrite IH.
Qed.

Lemma mapM_fmap {A B C} (f : B → result C) (h : A → B) (l : list A) :
  mapM f (h <$> l) = mapM (fun x => f (h x)) l.
Proof. induction l as [|x l IH]; csimpl; [done|]. by rewrite IH. Qed.

Lemma merged_empty (c : PRCounter.t) :
  reachable c → NoDup (PRCounter.labels c) →
  merged c PRCounter.empty = Ok c
  ∧ merged PRCounter.empty c = Ok c.
Proof.
  intros Hreach Hnd. pose proof (reachable_rows_ok c Hreach) as Hok.
  unfold merged, PRCounter.empty. cbv zeta. rewrite fill_nil_l, fill_nil_r.
  unfold PRCounter.df_add. split.
  - rewrite (mapM_Ok_fmap _
      (fun kr : string * PRCounter.Row =>
         (kr.1, match PRCounter.add_row kr.2 (PRCounter.fill_row kr.2) with
                | Ok z => z
                | Err _ => kr.2
                end))).
    + simpl. f_equal. rewrite <- list_fmap_compose.
      rewrite <- (list_fmap_id c) at 2. apply list_fmap_ext.
      intros i [k r] Hi. simpl.
      destruct (add_row_fill_r r) as (z & Hz & Hrec);
        [apply (Hok k); by eapply list_elem_of_lookup_2|].
      by rewrite Hz, Hrec.
    + intros [k r] Hin. simpl. rewrite get_fmap, (get_NoDup c k r Hnd Hin). simpl.
      destruct (add_row_fill_r r) as (z & Hz & _); [by apply (Hok k)|].
      by rewrite Hz.
  - rewrite mapM_fmap.
    rewrite (mapM_Ok_fmap _
      (fun kr : string * PRCounter.Row =>
         (kr.1, match PRCounter.add_row (PRCounter.fill_row kr.2) kr.2 with
                | Ok z => z
                | Err _ => kr.2
                end))).
    + simpl. f_equal. rewrite <- list_fmap_compose.
      rewrite <- (list_fmap_id c) at 2. apply list_fmap_ext.
      intros i [k r] Hi. simpl.
      destruct (add_row_fill_l r) as (z & Hz & Hrec);
        [apply (Hok k); by eapply list_elem_of_lookup_2|].
      by rewrite Hz, Hrec.
    + intros [k r] Hin. simpl. rewrite (get_NoDup c k r Hnd Hin).
      destruct (add_row_fill_l r) as (z & Hz & _); [by apply (Hok k)|].
      by rewrite Hz.
Qed.

(** X13. Merging a table built by row assignments and merges, with distinct
    labels, with the empty table on either side: when the table holds a row
    without N and a row with T whose N is 0, the merge raises
    ZeroDivisionError; otherwise the table comes back unchanged, ratios
    included. *)
Theorem add_empty (c : PRCounter.t) :
  reachable c → NoDup (PRCounter.labels c) →
  PRCounter.add c PRCounter.empty
  = (if zero_division c then Err ZeroDivisionError else Ok c)
  ∧ PRCounter.add PRCounter.empty c
    = (if zero_division c then Err ZeroDivisionError else Ok c).
Proof.
  intros Hreach Hnd. destruct (merged_empty c Hreach Hnd) as [Hr Hl].
  rewrite !add_merged, Hr, Hl. by cbn [bind].
Qed.

Lemma add_empty_witness :
  PRCounter.add table_a PRCounter.empty = Ok table_a
  ∧ PRCounter.add PRCounter.empty table_z = Err ZeroDivisionError.
Proof.
  assert (Ha : NoDup (PRCounter.labels table_a)) by decide_by_eval.
  assert (Hz : NoDup (PRCounter.labels table_z)) by decide_by_eval.
  split.
  - exact (proj1 (add_empty table_a reachable_table_a Ha)).
  - exact (proj2 (add_empty table_z reachable_table_z Hz)).
Defined.

(** ** PRCounter: a row over a set of slots *)

Section slots.
Context {A : Type} `{Countable A}.

(** The slots split into those where gold and prediction agree, the false
    positives and the false negatives *)
Lemma slots_split (U gold_set pred_set : gset A) :
  gold_set ⊆ U → pred_set ⊆ U →
  size U
  = (size (filter (fun u => u ∈ gold_set ↔ u ∈ pred_set) U)
     + size (pred_set ∖ gold_set) + size (gold_set ∖ pred_set))%nat.
Proof.
  intros Hg Hp.
  rewrite <- Nat.add_assoc, <- !size_union.
  - f_equal. apply set_eq. intros u.
    rewrite !elem_of_union, elem_of_filter, !elem_of_difference. split.
    + intros Hu. destruct (decide (u ∈ gold_set)), (decide (u ∈ pred_set)); tauto.
    + intros [[_ Hu]|[[Hu _]|[Hu _]]]; [done | by apply Hp | by apply Hg].
  - apply elem_of_disjoint.
    intros u [Hagree _]%elem_of_filter
           [[Hu1 Hu2]%elem_of_difference|[Hu1 Hu2]%elem_of_difference]%elem_of_union;
      tauto.
  - apply elem_of_disjoint.
    intros u [Hu1 Hu2]%elem_of_difference [Hu3 Hu4]%elem_of_difference. done.
Qed.

Lemma setitem_slots_row (c : PRCounter.t) (k : string) (U gold_set pred_set : gset A) :
  gold_set ⊆ U → pred_set ⊆ U →
  ∃ row,
    PRCounter.setitem c k (PRCounter.Triple (Z.of_nat (size U)) gold_set pred_set)
    = Ok (c ++ [(k, row)])
    ∧ PRCounter.N row = Some (Z.of_nat (size U))
    ∧ PRCounter.T row
      = Some (Z.of_nat (size (filter (fun u => u ∈ gold_set ↔ u ∈ pred_set) U))).
Proof.
  intros Hg Hp. pose proof (slots_split U gold_set pred_set Hg Hp) as Hsplit.
  rewrite setitem_Triple.
  assert (Ht : (if decide (Z.of_nat (size gold_set) = Z.of_nat (size pred_set)
                           ∧ Z.of_nat (size pred_set) = Z.of_nat (size U))
                then Z.of_nat (size (gold_set ∩ pred_set))
                else Z.of_nat (size U) - Z.of_nat (size (pred_set ∖ gold_set))
                     - Z.of_nat (size (gold_set ∖ pred_set)))
               = Z.of_nat (size (filter (fun u => u ∈ gold_set ↔ u ∈ pred_set) U))).
  { destruct (decide _) as [[Hgp HpU]|_]; [|lia].
    assert (pred_set = U) as -> by (apply set_subseteq_size_eq; [done | lia]).
    assert (gold_set = U) as -> by (apply set_subseteq_size_eq; [done | lia]).
    rewrite difference_diag_L, size_empty in Hsplit.
    replace (U ∩ U) with U by (apply set_eq; intros u; rewrite elem_of_intersection; tauto).
    lia. }
  rewrite Ht.
  destruct (decide ((gold_set ≠ ∅ ∨ pred_set ≠ ∅) ∧ Z.of_nat (size U) ≤ 0))
    as [[Hne Hn]|_].
  { exfalso. assert (U = ∅) as -> by (apply leibniz_equiv, size_empty_iff; lia).
    destruct Hne as [Hne|Hne]; apply Hne; apply set_eq; intros u; split;
      try (intros Hu; by apply not_elem_of_empty in Hu).
    - by intros ?%Hg.
    - by intros ?%Hp. }
  destruct (decide (Z.of_nat (size (filter (fun u => u ∈ gold_set ↔ u ∈ pred_set) U))
                    < 0)) as [Hneg|_]; [lia|].
  eexists. split; [reflexivity|]. split; reflexivity.
Qed.

(** X14. When the gold set and the predicted set are both drawn from a set of
    slots and N is the number of slots, assigning the row never fails, and
    the row's T is the number of slots on which gold and prediction agree
    (both hold the slot, or neither does). *)
Theorem setitem_slots (c : PRCounter.t) (k : string) (U gold_set pred_set : gset A) :
  gold_set ⊆ U → pred_set ⊆ U →
  ∃ row,
    PRCounter.setitem c k (PRCounter.Triple (Z.of_nat (size U)) gold_set pred_set)
    = Ok (c ++ [(k, row)])
    ∧ PRCounter.N row = Some (Z.of_nat (size U))
    ∧ PRCounter.T row
      = Some (Z.of_nat (size (filter (fun u => u ∈ gold_set ↔ u ∈ pred_set) U))).
Proof. apply setitem_slots_row. Qed.

End slots.

Lemma setitem_slots_witness :
  ({[1; 2]} : gset Z) ⊆ {[0; 1; 2; 3; 4]}
  ∧ ({[2; 3]} : gset Z) ⊆ {[0; 1; 2; 3; 4]}
  ∧ ∃ row,
      PRCounter.setitem PRCounter.empty "Targets by token"
        (PRCounter.Triple (Z.of_nat (size ({[0; 1; 2; 3; 4]} : gset Z)))
                          ({[1; 2]} : gset Z) {[2; 3]})
      = Ok [("Targets by token"%string, row)]
      ∧ PRCounter.N row = Some 5.
Proof.
  assert (Hg : ({[1; 2]} : gset Z) ⊆ {[0; 1; 2; 3; 4]}) by decide_by_eval.
  assert (Hp : ({[2; 3]} : gset Z) ⊆ {[0; 1; 2; 3; 4]}) by decide_by_eval.
  split; [exact Hg|]. split; [exact Hp|].
  destruct (setitem_slots PRCounter.empty "Targets by token" _ _ _ Hg Hp)
    as (row & Hset & HN & _).
  exists row. split; [exact Hset | exact HN].
Defined.

(** ** Sentence scorer: the shape of the returned table *)

Lemma shaped_setitem {A} `{Countable A} (n : nat) (c c' : PRCounter.t)
    (k : string) (v : PRCounter.value A) :
  shaped n c → rows_all !! n = Some k →
  (is_Some (PRCounter.N_of v) ↔ k ∈ sized_labels) →
  PRCounter.setitem c k v = Ok c' → shaped (S n) c'.
Proof.
  intros (Hreach & Hlabels & Hsized) Hk Hv Hset. split; [|split].
  - by apply (reach_setitem c k v).
  - rewrite (setitem_labels _ _ _ _ Hset), Hlabels. symmetry. by apply take_S_r.
  - apply setitem_row_bounded in Hset as (row & -> & _ & HN).
    intros k' r [Hin|[= -> ->]%list_elem_of_singleton]%elem_of_app.
    + by apply Hsized.
    + by rewrite HN.
Qed.

Lemma sized_Pair {A} `{Countable A} (k : string) (g p : gset A) :
  k ∉ sized_labels → (is_Some (PRCounter.N_of (PRCounter.Pair g p)) ↔ k ∈ sized_labels).
Proof. intros Hk. simpl. split; [by intros [? ?] | done]. Qed.

Lemma sized_Triple {A} `{Countable A} (k : string) (n : Z) (g p : gset A) :
  k ∈ sized_labels → (is_Some (PRCounter.N_of (PRCounter.Triple n g p)) ↔ k ∈ sized_labels).
Proof. intros Hk. simpl. split; [done | by eexists]. Qed.

Lemma score_arguments_shaped stats cts ga pa (c : PRCounter.t) :
  shaped 4 stats → score_arguments stats cts ga pa = Ok c → shaped 8 c.
Proof.
  intros Hstats. unfold score_arguments. intros Hscore.
  apply bind_Ok in Hscore as (s1 & H1 & Hscore).
  apply bind_Ok in Hscore as (s2 & H2 & Hscore).
  apply bind_Ok in Hscore as (s3 & H3 & H4).
  eapply shaped_setitem in H1; [|exact Hstats|reflexivity|apply sized_Pair; decide_by_eval].
  eapply shaped_setitem in H2; [|exact H1|reflexivity|apply sized_Pair; decide_by_eval].
  eapply shaped_setitem in H3; [|exact H2|reflexivity|apply sized_Pair; decide_by_eval].
  eapply shaped_setitem in H4; [|exact H3|reflexivity|apply sized_Pair; decide_by_eval].
  exact H4.
Qed.

Lemma score_frames_shaped stats gf pf ga pa (c : PRCounter.t) :
  shaped 2 stats → score_frames stats gf pf ga pa = Ok c →
  shaped 4 c ∨ shaped 8 c.
Proof.
  intros Hstats. unfold score_frames. intros Hscore.
  apply bind_Ok in Hscore as (s1 & H1 & Hscore).
  destruct (negb _); [done|].
  apply bind_Ok in Hscore as (s2 & H2 & Hscore).
  eapply shaped_setitem in H1; [|exact Hstats|reflexivity|apply sized_Pair; decide_by_eval].
  eapply shaped_setitem in H2; [|exact H1|reflexivity|apply sized_Triple; decide_by_eval].
  destruct (any_args pa).
  - right. by eapply score_arguments_shaped.
  - left. by injection Hscore as <-.
Qed.

Lemma shaped_empty : shaped 0 PRCounter.empty.
Proof.
  split; [apply reach_empty|]. split; [done|].
  by intros k r ?%not_elem_of_nil.
Qed.

Lemma score_sentence_shaped gold predicted errors c errors' :
  score_sentence gold predicted errors = Ok (c, errors') →
  shaped 2 c ∨ shaped 4 c ∨ shaped 8 c.
Proof.
  unfold score_sentence. intros Hscore.
  apply bind_Ok in Hscore as ([[cov pf] pa] & Hget & Hscore).
  destruct (get_non_targets gold) as [[wsl_map excl] poses].
  apply bind_Ok in Hscore as (st & _ & Hscore).
  apply bind_Ok in Hscore as (stats1 & H1 & Hscore).
  apply bind_Ok in Hscore as (stats2 & H2 & Hscore).
  apply bind_Ok in Hscore as (miss' & _ & Hscore).
  apply bind_Ok in Hscore as (extra' & _ & Hscore).
  apply bind_Ok in Hscore as (stats3 & H3 & Hscore).
  injection Hscore as <- <-.
  eapply shaped_setitem in H1;
    [|exact shaped_empty|reflexivity|apply sized_Triple; decide_by_eval].
  eapply shaped_setitem in H2; [|exact H1|reflexivity|apply sized_Pair; decide_by_eval].
  destruct (any_name pf).
  - right. by eapply score_frames_shaped.
  - left. by injection H3 as <-.
Qed.

Lemma shaped_well_labeled (n : nat) (c : PRCounter.t) :
  shaped n c → well_labeled c.
Proof.
  intros (_ & Hlabels & Hsized). split; [|done].
  rewrite Hlabels. assert (Hall : NoDup rows_all) by decide_by_eval.
  rewrite <- (take_drop n rows_all) in Hall. by apply NoDup_app in Hall as [Hall _].
Qed.

(** X15. The table [score_sentence] returns carries the first two, the first
    four or all eight of its row labels, in the order of assignment; exactly
    the rows 'Targets by token' and 'Frames (correct targets only)' carry N. *)
Theorem score_sentence_shape gold predicted errors c errors' :
  score_sentence gold predicted errors = Ok (c, errors') →
  (PRCounter.labels c = rows_targets ∨ PRCounter.labels c = rows_frames
   ∨ PRCounter.labels c = rows_all)
  ∧ ∀ k r, (k, r) ∈ c →
           (is_Some (PRCounter.N r)
            ↔ k = "Targets by token"%string
              ∨ k = "Frames (correct targets only)"%string).
Proof.
  intros Hscore.
  assert (Hsized : ∀ k, k ∈ sized_labels
                        ↔ k = "Targets by token"%string
                          ∨ k = "Frames (correct targets only)"%string).
  { intros k. unfold sized_labels. rewrite !elem_of_cons, elem_of_nil. tauto. }
  destruct (score_sentence_shaped _ _ _ _ _ Hscore)
    as [(_ & Hl & Hs)|[(_ & Hl & Hs)|(_ & Hl & Hs)]].
  - split; [by left|]. intros k r Hin. by rewrite (Hs k r Hin).
  - split; [by right; left|]. intros k r Hin. by rewrite (Hs k r Hin).
  - split; [by right; right|]. intros k r Hin. by rewrite (Hs k r Hin).
Qed.

Lemma score_sentence_shape_witness :
  ∃ c e, score_sentence gold_motion pred_motion no_errors = Ok (c, e)
         ∧ (PRCounter.labels c = rows_targets ∨ PRCounter.labels c = rows_frames
            ∨ PRCounter.labels c = rows_all).
Proof.
  destruct (score_sentence gold_motion pred_motion no_errors) as [[c e]|err] eqn:Hscore.
  - exists c, e. split; [reflexivity|].
    exact (proj1 (score_sentence_shape _ _ _ _ _ Hscore)).
  - exfalso. vm_compute in Hscore. discriminate Hscore.
Defined.

(** ** The main program: merging the tables of the sentences *)

Lemma well_labeled_same_sizing (a b : PRCounter.t) :
  well_labeled a → well_labeled b → same_sizing a b.
Proof.
  intros [_ Ha] [_ Hb] k x y Hx%get_Some_elem Hy%get_Some_elem.
  by rewrite (Ha k x Hx), (Hb k y Hy).
Qed.

Lemma add_row_N (x y z : PRCounter.Row) :
  PRCounter.add_row x y = Ok z →
  (is_Some (PRCounter.N z) ↔ is_Some (PRCounter.N x))
  ∧ (is_Some (PRCounter.N z) ↔ is_Some (PRCounter.N y)).
Proof.
  unfold PRCounter.add_row. intros (n & Hn & [= <-])%bind_Ok. simpl.
  destruct (PRCounter.N x) as [nx|], (PRCounter.N y) as [ny|];
    simpl in Hn; try done; injection Hn as <-; split; split; intros [? ?]; by eexists.
Qed.

Lemma fill_row_N (x : PRCounter.Row) :
  is_Some (PRCounter.N (PRCounter.fill_row x)) ↔ is_Some (PRCounter.N x).
Proof. simpl. destruct (PRCounter.N x); split; intros [? ?]; by eexists. Qed.

Lemma well_labeled_add (a b c : PRCounter.t) :
  well_labeled a → well_labeled b → merged a b = Ok c → well_labeled c.
Proof.
  intros [Hnda Ha] [Hndb Hb] Hadd. split; [by apply (NoDup_add a b)|].
  intros k r Hin. unfold merged in Hadd.
  apply bind_Ok in Hadd as (nd & Hnd & Hadd). injection Hadd as <-.
  apply list_elem_of_fmap in Hin as ([k1 z] & [= -> ->] & Hin).
  destruct (df_add_elem _ _ _ _ _ Hnd Hin) as (x & y & Hx & Hy & Hz).
  destruct (add_row_N x y z Hz) as [HNx HNy].
  change (PRCounter.N (ratios z)) with (PRCounter.N z).
  apply elem_of_fill in Hx as [Hx|(x0 & Hx0 & ->)].
  - rewrite HNx. by apply Ha.
  - rewrite HNx, fill_row_N. by apply Hb.
Qed.

Lemma foldM_Err_invariant {A S} (I : S → Prop) (f : S → A → result S)
    (l : list A) :
  (∀ s x s', x ∈ l → I s → f s x = Ok s' → I s') →
  ∀ s e, I s → foldM f s l = Err e → ∃ s0 x, x ∈ l ∧ I s0 ∧ f s0 x = Err e.
Proof.
  induction l as [|x l IH]; intros Hstep s e Hs; simpl; [done|].
  intros [Hx|(s' & Hx & Hrest)]%bind_Err.
  - exists s, x. split; [apply list_elem_of_here | done].
  - destruct (IH (fun s x' s' Hin => Hstep s x' s' (list_elem_of_further _ _ _ Hin))
                s' e (Hstep s x s' (list_elem_of_here _ _) Hs Hx) Hrest)
      as (s0 & x0 & Hin & Hs0 & Hf).
    exists s0, x0. split; [by apply list_elem_of_further | done].
Qed.

Lemma shaped_labels (n : nat) (c : PRCounter.t) :
  shaped n c → PRCounter.labels c ⊆ rows_all.
Proof.
  intros (_ & Hlabels & _) k Hk. rewrite Hlabels in Hk.
  rewrite <- (take_drop n rows_all). apply elem_of_app. by left.
Qed.

Lemma main_step_inv (st st' : option PRCounter.t * Errors)
    (lines : Sentence * Sentence) :
  main_inv st → main_step st lines = Ok st' → main_inv st'.
Proof.
  intros Hst. unfold main_step. intros ([c e] & Hscore & Hstep)%bind_Ok.
  assert (Hc : well_labeled c ∧ reachable c ∧ PRCounter.labels c ⊆ rows_all).
  { destruct (score_sentence_shaped _ _ _ _ _ Hscore) as [Hc|[Hc|Hc]];
      (split; [exact (shaped_well_labeled _ _ Hc) |
               split; [exact (proj1 Hc) | exact (shaped_labels _ _ Hc)]]). }
  destruct Hc as (Hcwl & Hcreach & Hclabels).
  destruct st as [[scores|] errors]; simpl in Hstep.
  - apply bind_Ok in Hstep as (sum & Hsum & [= <-]).
    intros c' [= <-]. destruct (Hst scores eq_refl) as (Hwl & Hreach & Hlabels).
    pose proof (proj1 (proj1 (add_merged_Ok scores c sum) Hsum)) as Hmerged.
    split; [|split].
    + by apply (well_labeled_add scores c).
    + by apply (reach_add scores c).
    + destruct (add_Ok scores c sum Hmerged) as [Hsumlabels _].
      rewrite Hsumlabels, labels_fill. intros k [Hk|Hk]%elem_of_app.
      * by apply Hlabels.
      * apply list_elem_of_filter in Hk as [_ Hk]. by apply Hclabels.
  - injection Hstep as <-. by intros c' [= <-].
Qed.

(** A row with [N = 0] of a merged table comes from a row with [N = 0] of
    one of the operands *)
Lemma merged_zero_N (a b m : PRCounter.t) (k : string) (r : PRCounter.Row) :
  (∀ k x, (k, x) ∈ a → bounded x) → (∀ k y, (k, y) ∈ b → bounded y) →
  merged a b = Ok m → (k, r) ∈ m → PRCounter.N r = Some 0 →
  (∃ x, (k, x) ∈ a ∧ PRCounter.N x = Some 0)
  ∨ (∃ y, (k, y) ∈ b ∧ PRCounter.N y = Some 0).
Proof.
  intros Ha Hb Hm Hin HN. unfold merged in Hm.
  apply bind_Ok in Hm as (nd & Hnd & [= <-]).
  apply list_elem_of_fmap in Hin as ([k1 z] & [= -> ->] & Hin).
  destruct (df_add_elem _ _ _ _ _ Hnd Hin) as (x & y & Hx & Hy & Hz).
  change (PRCounter.N (ratios z)) with (PRCounter.N z) in HN.
  unfold PRCounter.add_row in Hz. apply bind_Ok in Hz as (n & Hn & [= <-]).
  simpl in HN. subst n.
  apply elem_of_fill_fresh in Hx as [Hx|(x0 & Hx0 & Hfresh & ->)];
    apply elem_of_fill_fresh in Hy as [Hy|(y0 & Hy0 & Hfresh' & ->)].
  - pose proof (Ha _ _ Hx) as (_ & _ & Hbx). pose proof (Hb _ _ Hy) as (_ & _ & Hby).
    destruct (PRCounter.N x) as [nx|] eqn:HNx, (PRCounter.N y) as [ny|]; try done.
    destruct (PRCounter.T x), (PRCounter.T y); try done.
    simpl in Hn. injection Hn as Hn. left. exists x. split; [done|].
    rewrite HNx. f_equal. lia.
  - pose proof (Ha _ _ Hx) as (_ & _ & Hbx). simpl in Hn.
    destruct (PRCounter.N x) as [nx|] eqn:HNx, (PRCounter.N y0) as [ny|]; try done.
    simpl in Hn. injection Hn as Hn. left. exists x. split; [done|].
    rewrite HNx. f_equal. lia.
  - pose proof (Hb _ _ Hy) as (_ & _ & Hby). simpl in Hn.
    destruct (PRCounter.N x0) as [nx|], (PRCounter.N y) as [ny|] eqn:HNy; try done.
    simpl in Hn. injection Hn as Hn. right. exists y. split; [done|].
    rewrite HNy. f_equal. lia.
  - exfalso. apply Hfresh. by apply (elem_of_labels _ _ y0).
Qed.

Lemma zero_division_elem (m : PRCounter.t) :
  zero_division m = true → ∃ k r, (k, r) ∈ m ∧ PRCounter.N r = Some 0.
Proof.
  unfold zero_division. intros [_ Hz]%andb_true_iff.
  apply existsb_exists in Hz as ([k r] & Hin%list_elem_of_In & Hr).
  exists k, r. split; [done|]. unfold zero_row in Hr. simpl in Hr.
  destruct (PRCounter.T r), (PRCounter.N r) as [n|]; try done.
  apply Z.eqb_eq in Hr. by subst n.
Qed.

Lemma main_step_Err (st : option PRCounter.t * Errors)
    (lines : Sentence * Sentence) (e : error) :
  main_inv st → main_step st lines = Err e →
  score_sentence lines.1 lines.2 st.2 = Err e
  ∨ (e = ZeroDivisionError
     ∧ ∃ scores c errors' k r,
         st.1 = Some scores
         ∧ score_sentence lines.1 lines.2 st.2 = Ok (c, errors')
         ∧ ((k, r) ∈ scores ∨ (k, r) ∈ c) ∧ PRCounter.N r = Some 0).
Proof.
  intros Hst. unfold main_step. intros [Hscore|([c errs] & Hscore & Hstep)]%bind_Err;
    [by left|]. right.
  destruct st as [[scores|] errors]; simpl in Hstep; [|done].
  apply bind_Err in Hstep as [Hadd|(sum & _ & Hsum)]; [|done].
  destruct (Hst scores eq_refl) as (Hwl & Hreach & _).
  assert (Hc : well_labeled c ∧ reachable c).
  { destruct (score_sentence_shaped _ _ _ _ _ Hscore) as [Hc|[Hc|Hc]];
      (split; [exact (shaped_well_labeled _ _ Hc) | exact (proj1 Hc)]). }
  destruct Hc as [Hcwl Hcreach].
  apply add_merged_Err in Hadd as [Hadd|(-> & m & Hm & Hzero)].
  { exfalso. destruct (add_is_Ok scores c) as [sum Hsum];
      [by destruct Hwl | by destruct Hcwl | by apply well_labeled_same_sizing|].
    congruence. }
  split; [done|]. apply zero_division_elem in Hzero as (k & r & Hin & HN).
  destruct (merged_zero_N scores c m k r
              (reachable_rows_bounded scores Hreach)
              (reachable_rows_bounded c Hcreach) Hm Hin HN)
    as [(x & Hx & HNx)|(y & Hy & HNy)].
  - exists scores, c, errs, k, x. simpl. split; [done|]. split; [done|].
    split; [by left | done].
  - exists scores, c, errs, k, y. simpl. split; [done|]. split; [done|].
    split; [by right | done].
Qed.

Lemma main_inv_init : main_inv (None, no_errors).
Proof. by intros c. Qed.

(** X16. The main loop fails only when scoring one of the sentence pairs
    fails, with that exception, or when merging the scores so far with the
    table of the next sentence divides by zero; a merge never raises another
    exception, and it divides by zero only when the table of some sentence
    pair holds a row whose N is 0. *)
Theorem main_fails_in_score_sentence (gold_lines pred_lines : list Sentence)
    (e : error) :
  main gold_lines pred_lines = Err e →
  (∃ gold predicted errors,
     (gold, predicted) ∈ zip gold_lines pred_lines
     ∧ score_sentence gold predicted errors = Err e)
  ∨ (e = ZeroDivisionError
     ∧ ∃ gold predicted errors c errors' k r,
         (gold, predicted) ∈ zip gold_lines pred_lines
         ∧ score_sentence gold predicted errors = Ok (c, errors')
         ∧ (k, r) ∈ c ∧ PRCounter.N r = Some 0).
Proof.
  unfold main. intros Hmain.
  set (pairs := zip gold_lines pred_lines) in *.
  set (zero_from (st : option PRCounter.t * Errors) :=
         ∀ scores k r, st.1 = Some scores → (k, r) ∈ scores →
                       PRCounter.N r = Some 0 →
                       ∃ gold predicted errors c errors' r',
                         (gold, predicted) ∈ pairs
                         ∧ score_sentence gold predicted errors = Ok (c, errors')
                         ∧ (k, r') ∈ c ∧ PRCounter.N r' = Some 0).
  assert (Hstep : ∀ st x st', x ∈ pairs → main_inv st ∧ zero_from st →
                              main_step st x = Ok st' → main_inv st' ∧ zero_from st').
  { intros st [gold predicted] st' Hx [Hinv Hzero] Hst'.
    split; [by apply (main_step_inv st st' (gold, predicted))|].
    unfold main_step in Hst'. apply bind_Ok in Hst' as ([c errs] & Hscore & Hst').
    simpl in Hscore.
    assert (Hcreach : reachable c).
    { destruct (score_sentence_shaped _ _ _ _ _ Hscore) as [Hc|[Hc|Hc]];
        exact (proj1 Hc). }
    destruct st as [[scores|] errors]; simpl in Hst'.
    - apply bind_Ok in Hst' as (sum & Hsum & [= <-]).
      intros scores' k r [= <-] Hin HN.
      destruct (Hinv scores eq_refl) as (_ & Hreach & _).
      apply add_merged_Ok in Hsum as [Hsum _].
      destruct (merged_zero_N scores c sum k r
                  (reachable_rows_bounded scores Hreach)
                  (reachable_rows_bounded c Hcreach) Hsum Hin HN)
        as [(x & Hx' & HNx)|(y & Hy & HNy)].
      + by apply (Hzero scores k x).
      + by exists gold, predicted, errors, c, errs, y.
    - injection Hst' as <-. intros scores' k r [= <-] Hin HN.
      by exists gold, predicted, errors, c, errs, r. }
  assert (Hinit : main_inv (None, no_errors) ∧ zero_from (None, no_errors)).
  { split; [apply main_inv_init | by intros scores k r]. }
  destruct (foldM_Err_invariant (fun st => main_inv st ∧ zero_from st) main_step
              pairs Hstep _ e Hinit Hmain)
    as (st & [gold predicted] & Hin & [Hst Hzero] & Herr).
  destruct (main_step_Err st (gold, predicted) e Hst Herr)
    as [Hscore|(-> & scores & c & errs & k & r & Hscores & Hscore & Hrow & HN)].
  - left. by exists gold, predicted, st.2.
  - right. split; [done|]. destruct Hrow as [Hrow|Hrow].
    + destruct (Hzero scores k r Hscores Hrow HN)
        as (gold' & predicted' & errors' & c' & errs' & r' & Hin' & Hscore' & Hrow' & HN').
      by exists gold', predicted', errors', c', errs', k, r'.
    + by exists gold, predicted, st.2, c, errs, k, r.
Qed.

Lemma main_fails_in_score_sentence_witness :
  main [gold_motion; gold_motion] [pred_elsewhere; pred_elsewhere]
  = Err ZeroDivisionError
  ∧ ((∃ gold predicted errors,
        (gold, predicted) ∈ zip [gold_motion; gold_motion]
                                [pred_elsewhere; pred_elsewhere]
        ∧ score_sentence gold predicted errors = Err ZeroDivisionError)
     ∨ (ZeroDivisionError = ZeroDivisionError
        ∧ ∃ gold predicted errors c errors' k r,
            (gold, predicted) ∈ zip [gold_motion; gold_motion]
                                    [pred_elsewhere; pred_elsewhere]
            ∧ score_sentence gold predicted errors = Ok (c, errors')
            ∧ (k, r) ∈ c ∧ PRCounter.N r = Some 0)).
Proof.
  assert (Hmain : main [gold_motion; gold_motion] [pred_elsewhere; pred_elsewhere]
                  = Err ZeroDivisionError) by (vm_compute; reflexivity).
  split; [exact Hmain|].
  exact (main_fails_in_score_sentence _ _ _ Hmain).
Defined.

(** X17. When the main loop ends without an exception, there are no scores
    exactly when there was no pair of lines; otherwise the scores are a table
    built by row assignments and merges, with distinct labels, all of them
    labels of [score_sentence], and with N exactly under 'Targets by token'
    and 'Frames (correct targets only)'. *)
Theorem main_scores (gold_lines pred_lines : list Sentence)
    (scores : option PRCounter.t) (errors : Errors) :
  main gold_lines pred_lines = Ok (scores, errors) →
  (scores = None ↔ zip gold_lines pred_lines = [])
  ∧ ∀ c, scores = Some c →
         reachable c ∧ NoDup (PRCounter.labels c)
         ∧ PRCounter.labels c ⊆ rows_all
         ∧ ∀ k r, (k, r) ∈ c →
                  (is_Some (PRCounter.N r)
                   ↔ k = "Targets by token"%string
                     ∨ k = "Frames (correct targets only)"%string).
Proof.
  unfold main. intros Hmain. split.
  - destruct (zip gold_lines pred_lines) as [|x l] using rev_ind.
    + simpl in Hmain. by injection Hmain as <- <-.
    + rewrite foldM_app in Hmain. apply bind_Ok in Hmain as (st & _ & Hstep).
      simpl in Hstep. apply bind_Ok in Hstep as (st' & Hstep & [= ->]).
      unfold main_step in Hstep. apply bind_Ok in Hstep as ([c e] & _ & Hstep).
      split; [|by destruct l].
      intros ->. destruct st.1; [|done].
      by apply bind_Ok in Hstep as (sum & _ & [=]).
  - intros c ->.
    destruct (foldM_invariant main_inv main_step _
                (fun s x s' _ Hs Hstep => main_step_inv s s' x Hs Hstep)
                _ _ main_inv_init Hmain c eq_refl)
      as ([Hnd Hsized] & Hreach & Hlabels).
    split; [done|]. split; [done|]. split; [done|].
    intros k r Hin. rewrite (Hsized k r Hin).
    unfold sized_labels. rewrite !elem_of_cons, elem_of_nil. tauto.
Qed.

Lemma main_scores_witness :
  ∃ c e, main [gold_motion; gold_motion] [pred_motion; pred_twice] = Ok (Some c, e)
         ∧ reachable c ∧ NoDup (PRCounter.labels c).
Proof.
  destruct (main [gold_motion; gold_motion] [pred_motion; pred_twice])
    as [[[c|] e]|err] eqn:Hmain.
  - exists c, e. split; [reflexivity|].
    destruct (proj2 (main_scores _ _ _ _ Hmain) c eq_refl) as (Hreach & Hnd & _).
    split; [exact Hreach | exact Hnd].
  - exfalso. vm_compute in Hmain. discriminate Hmain.
  - exfalso. vm_compute in Hmain. discriminate Hmain.
Defined.

(** ** Sentence scorer: the error tallies *)

Lemma same_outcome_bind {A A' B B'} (r1 : result A) (r2 : result A')
    (f1 : A → result B) (f2 : A' → result B') :
  same_outcome r1 r2 →
  (∀ a a', r1 = Ok a → r2 = Ok a' → same_outcome (f1 a) (f2 a')) →
  same_outcome (bind r1 f1) (bind r2 f2).
Proof. destruct r1, r2; simpl; try done. intros _ Hf. by apply Hf. Qed.

Lemma tally_outcome (toks : list string) (poses : gmap Span.t string)
    (c1 c2 : gmap string Z) (sp : Span.t) :
  same_outcome (tally toks poses c1 sp) (tally toks poses c2 sp).
Proof.
  unfold tally. destruct (Span.len sp =? 1);
    by destruct (Span.call_str sp toks).
Qed.

Lemma foldM_tally_outcome (toks : list string) (poses : gmap Span.t string)
    (l : list Span.t) (c1 c2 : gmap string Z) :
  same_outcome (foldM (tally toks poses) c1 l) (foldM (tally toks poses) c2 l).
Proof.
  revert c1 c2. induction l as [|sp l IH]; intros c1 c2; simpl; [done|].
  apply same_outcome_bind; [apply tally_outcome|]. intros a a' _ _. apply IH.
Qed.

Lemma score_sentence_indep (gold predicted : Sentence)
    (errors1 errors2 : Errors) :
  match score_sentence gold predicted errors1,
        score_sentence gold predicted errors2 with
  | Ok (c1, _), Ok (c2, _) => c1 = c2
  | Err e1, Err e2 => e1 = e2
  | _, _ => False
  end.
Proof.
  unfold score_sentence.
  destruct (get_predictions_by_span (frames predicted)) as [[[cov pf] pa]|e];
    [|done].
  cbn [bind]. destruct (get_non_targets gold) as [[wsl_map excl] poses].
  destruct (foldM _ _ (frames gold)) as [st|e]; [|done]. cbn [bind].
  match goal with
  | |- context [PRCounter.setitem ?c ?k ?v] =>
      destruct (PRCounter.setitem c k v) as [stats1|e]; [|done]
  end. cbn [bind].
  match goal with
  | |- context [PRCounter.setitem ?c ?k ?v] =>
      destruct (PRCounter.setitem c k v) as [stats2|e]; [|done]
  end. cbn [bind].
  match goal with
  | |- context [foldM (tally ?t ?p) (miss errors1) ?l] =>
      pose proof (foldM_tally_outcome t p l (miss errors1) (miss errors2)) as Hmiss;
      destruct (foldM (tally t p) (miss errors1) l) as [m1|e1],
               (foldM (tally t p) (miss errors2) l) as [m2|e2]; try done
  end. cbn [bind].
  match goal with
  | |- context [foldM (tally ?t ?p) (extra errors1) ?l] =>
      pose proof (foldM_tally_outcome t p l (extra errors1) (extra errors2)) as Hextra;
      destruct (foldM (tally t p) (extra errors1) l) as [x1|e1],
               (foldM (tally t p) (extra errors2) l) as [x2|e2]; try done
  end. cbn [bind].
  by destruct (if any_name pf then _ else _).
Qed.

(** X18. Neither the table [score_sentence] returns nor the exception it
    raises depends on the error tallies it is given: the tallies are only
    added to. *)
Theorem score_sentence_errors_indep (gold predicted : Sentence)
    (errors1 errors2 : Errors) :
  match score_sentence gold predicted errors1,
        score_sentence gold predicted errors2 with
  | Ok (c1, _), Ok (c2, _) => c1 = c2
  | Err e1, Err e2 => e1 = e2
  | _, _ => False
  end.
Proof. apply score_sentence_indep. Qed.


Lemma incr_le (m : gmap string Z) (k : string) : tallies_le m (incr m k).
Proof.
  intros k'. unfold incr. destruct (decide (k = k')) as [->|Hne].
  - rewrite lookup_insert_eq. simpl. lia.
  - rewrite lookup_insert_ne by done. lia.
Qed.

Lemma tallies_le_trans (m1 m2 m3 : gmap string Z) :
  tallies_le m1 m2 → tallies_le m2 m3 → tallies_le m1 m3.
Proof. intros H12 H23 k. specialize (H12 k). specialize (H23 k). lia. Qed.

Lemma tally_le (toks : list string) (poses : gmap Span.t string)
    (m m' : gmap string Z) (sp : Span.t) :
  tally toks poses m sp = Ok m' → tallies_le m m'.
Proof.
  unfold tally. destruct (Span.len sp =? 1);
    intros (text & _ & [= <-])%bind_Ok.
  - eapply tallies_le_trans; apply incr_le.
  - apply incr_le.
Qed.

Lemma foldM_tally_le (toks : list string) (poses : gmap Span.t string)
    (l : list Span.t) (m m' : gmap string Z) :
  foldM (tally toks poses) m l = Ok m' → tallies_le m m'.
Proof.
  apply (foldM_invariant (tallies_le m)); [|by intros k].
  intros m1 sp m2 _ Hm1 Hstep. eapply tallies_le_trans; [exact Hm1|].
  by eapply tally_le.
Qed.

(** X19. Scoring a sentence only adds to the error tallies: no tally of
    missed or extra targets is lower afterwards than before. *)
Theorem score_sentence_tallies_grow (gold predicted : Sentence)
    (errors errors' : Errors) (c : PRCounter.t) :
  score_sentence gold predicted errors = Ok (c, errors') →
  tallies_le (miss errors) (miss errors')
  ∧ tallies_le (extra errors) (extra errors').
Proof.
  unfold score_sentence. intros Hscore.
  apply bind_Ok in Hscore as ([[cov pf] pa] & Hget & Hscore).
  destruct (get_non_targets gold) as [[wsl_map excl] poses].
  apply bind_Ok in Hscore as (st & _ & Hscore).
  apply bind_Ok in Hscore as (stats1 & H1 & Hscore).
  apply bind_Ok in Hscore as (stats2 & H2 & Hscore).
  apply bind_Ok in Hscore as (miss' & Hmiss & Hscore).
  apply bind_Ok in Hscore as (extra' & Hextra & Hscore).
  apply bind_Ok in Hscore as (stats3 & H3 & Hscore).
  injection Hscore as <- <-. simpl.
  split; by eapply foldM_tally_le.
Qed.

Lemma score_sentence_tallies_grow_witness :
  ∃ c e, score_sentence gold_motion pred_unnamed no_errors = Ok (c, e)
         ∧ tallies_le (miss no_errors) (miss e)
         ∧ miss e !! "c_VB"%string = Some 1.
Proof.
  destruct (score_sentence gold_motion pred_unnamed no_errors) as [[c e]|err] eqn:Hscore.
  - exists c, e. split; [reflexivity|].
    split; [exact (proj1 (score_sentence_tallies_grow _ _ _ _ _ Hscore))|].
    vm_compute in Hscore. injection Hscore as _ <-. reflexivity.
  - exfalso. vm_compute in Hscore. discriminate Hscore.
Defined.

(** ** The main program: the totals *)

Lemma add_count_sum (a b c : PRCounter.t) (k : string) :
  merged a b = Ok c →
  count PRCounter.Numer c k = count PRCounter.Numer a k + count PRCounter.Numer b k
  ∧ count PRCounter.PDenom c k
    = count PRCounter.PDenom a k + count PRCounter.PDenom b k
  ∧ count PRCounter.RDenom c k
    = count PRCounter.RDenom a k + count PRCounter.RDenom b k.
Proof.
  intros Hadd. destruct (PRCounter.get c k) as [r|] eqn:Hr.
  - destruct (add_counts a b c k r Hadd Hr) as (H1 & H2 & H3 & _).
    unfold count at 1 4 7. rewrite Hr. simpl. done.
  - apply add_Ok in Hadd as [_ Hsum]. specialize (Hsum k). rewrite Hr in Hsum.
    unfold count. rewrite Hr.
    by destruct (PRCounter.get a k), (PRCounter.get b k).
Qed.

Lemma score_sentence_table (lines : Sentence * Sentence) (errors errors' : Errors)
    (c : PRCounter.t) :
  score_sentence lines.1 lines.2 errors = Ok (c, errors') →
  sentence_table lines = c.
Proof.
  intros Hscore. unfold sentence_table.
  pose proof (score_sentence_indep lines.1 lines.2 no_errors errors) as Hindep.
  rewrite Hscore in Hindep.
  by destruct (score_sentence lines.1 lines.2 no_errors) as [[c' e']|e'].
Qed.

Lemma main_fold_totals (l : list (Sentence * Sentence)) :
  ∀ (c0 : PRCounter.t) (e0 : Errors) (c : PRCounter.t) (e : Errors),
    foldM main_step (Some c0, e0) l = Ok (Some c, e) →
    ∀ k,
      count PRCounter.Numer c k
      = count PRCounter.Numer c0 k + total PRCounter.Numer k l
      ∧ count PRCounter.PDenom c k
        = count PRCounter.PDenom c0 k + total PRCounter.PDenom k l
      ∧ count PRCounter.RDenom c k
        = count PRCounter.RDenom c0 k + total PRCounter.RDenom k l.
Proof.
  induction l as [|x l IH]; intros c0 e0 c e Hfold k; simpl in Hfold.
  - injection Hfold as <- <-. simpl. lia.
  - apply bind_Ok in Hfold as (st & Hstep & Hfold).
    unfold main_step in Hstep. apply bind_Ok in Hstep as ([t e1] & Hscore & Hstep).
    simpl in Hstep. apply bind_Ok in Hstep as (c1 & Hadd & [= <-]).
    destruct (IH c1 e1 c e Hfold k) as (H1 & H2 & H3).
    apply add_merged_Ok in Hadd as [Hadd _].
    destruct (add_count_sum c0 t c1 k Hadd) as (H4 & H5 & H6).
    simpl. rewrite (score_sentence_table x e0 e1 t Hscore). lia.
Qed.

(** X20. When the main loop ends with scores, each row of the final table
    holds, in Numer, PDenom and RDenom, the sums over all sentence pairs of the
    counts their tables hold under that label (a table without the label
    counts zero), and its P and R are the quotients of these sums. *)
Theorem main_totals (gold_lines pred_lines : list Sentence)
    (c : PRCounter.t) (errors : Errors) (k : string) (r : PRCounter.Row) :
  main gold_lines pred_lines = Ok (Some c, errors) →
  PRCounter.get c k = Some r →
  PRCounter.Numer r = total PRCounter.Numer k (zip gold_lines pred_lines)
  ∧ PRCounter.PDenom r = total PRCounter.PDenom k (zip gold_lines pred_lines)
  ∧ PRCounter.RDenom r = total PRCounter.RDenom k (zip gold_lines pred_lines)
  ∧ PRCounter.P r
    = truediv (total PRCounter.Numer k (zip gold_lines pred_lines))
              (total PRCounter.PDenom k (zip gold_lines pred_lines))
  ∧ PRCounter.R r
    = truediv (total PRCounter.Numer k (zip gold_lines pred_lines))
              (total PRCounter.RDenom k (zip gold_lines pred_lines)).
Proof.
  unfold main. intros Hmain Hr.
  assert (Hok : row_ok r).
  { destruct (foldM_invariant main_inv main_step _
                (fun s x s' _ Hs Hstep => main_step_inv s s' x Hs Hstep)
                _ _ main_inv_init Hmain c eq_refl) as (_ & Hreach & _).
    apply (reachable_rows_ok c Hreach k). by apply get_Some_elem. }
  assert (Hcounts :
            count PRCounter.Numer c k
            = total PRCounter.Numer k (zip gold_lines pred_lines)
            ∧ count PRCounter.PDenom c k
              = total PRCounter.PDenom k (zip gold_lines pred_lines)
            ∧ count PRCounter.RDenom c k
              = total PRCounter.RDenom k (zip gold_lines pred_lines)).
  { destruct (zip gold_lines pred_lines) as [|x l]; simpl in Hmain; [done|].
    apply bind_Ok in Hmain as (st & Hstep & Hfold).
    unfold main_step in Hstep. apply bind_Ok in Hstep as ([t e1] & Hscore & Hstep).
    simpl in Hstep. injection Hstep as <-.
    destruct (main_fold_totals l t e1 c errors Hfold k) as (H1 & H2 & H3).
    simpl. by rewrite (score_sentence_table x no_errors e1 t Hscore). }
  unfold count in Hcounts. rewrite Hr in Hcounts. simpl in Hcounts.
  destruct Hcounts as (H1 & H2 & H3).
  destruct Hok as (_ & _ & _ & _ & _ & HP & HR & _).
  rewrite HP, HR, H1, H2, H3. done.
Qed.

Lemma main_totals_witness :
  ∃ c e r,
    main [gold_motion; gold_motion] [pred_motion; pred_twice] = Ok (Some c, e)
    ∧ PRCounter.get c "Targets by token" = Some r
    ∧ PRCounter.Numer r
      = total PRCounter.Numer "Targets by token"
              (zip [gold_motion; gold_motion] [pred_motion; pred_twice]).
Proof.
  destruct (main [gold_motion; gold_motion] [pred_motion; pred_twice])
    as [[[c|] e]|err] eqn:Hmain.
  - destruct (PRCounter.get c "Targets by token") as [r|] eqn:Hr.
    + exists c, e, r. split; [reflexivity|]. split; [exact Hr|].
      exact (proj1 (main_totals _ _ _ _ _ _ Hmain Hr)).
    + exfalso. vm_compute in Hmain. injection Hmain as <- _.
      vm_compute in Hr. discriminate Hr.
  - exfalso. vm_compute in Hmain. discriminate Hmain.
  - exfalso. vm_compute in Hmain. discriminate Hmain.
Defined.

(** ** Sentence scorer: the rows that carry N *)

Lemma setitem_Triple_row {A} `{Countable A} (c c' : PRCounter.t) (k : string)
    (n : Z) (g p : gset A) :
  PRCounter.setitem c k (PRCounter.Triple n g p) = Ok c' →
  ∃ row, c' = c ++ [(k, row)]
    ∧ PRCounter.N row = Some n
    ∧ PRCounter.Numer row = Z.of_nat (size (g ∩ p))
    ∧ PRCounter.PDenom row = Z.of_nat (size p)
    ∧ PRCounter.RDenom row = Z.of_nat (size g)
    ∧ (Z.of_nat (size g) = Z.of_nat (size p) → Z.of_nat (size p) = n →
       PRCounter.T row = Some (Z.of_nat (size (g ∩ p)))).
Proof.
  rewrite setitem_Triple. destruct (decide _) as [|Hok]; [done|].
  destruct (decide _) as [|Ht]; [done|]. intros [= <-].
  eexists. split; [reflexivity|]. simpl. repeat split.
  intros Hgp Hpn. by rewrite decide_True.
Qed.

Lemma size_items {V} `{Countable V} (d : gmap Span.t V) : size (items d) = size d.
Proof.
  unfold items. rewrite size_list_to_set by apply NoDup_map_to_list.
  apply length_map_to_list.
Qed.

Lemma score_arguments_extends stats cts ga pa (c : PRCounter.t) :
  score_arguments stats cts ga pa = Ok c → ∃ rest, c = stats ++ rest.
Proof.
  unfold score_arguments. intros Hscore.
  apply bind_Ok in Hscore as (s1 & H1 & Hscore).
  apply bind_Ok in Hscore as (s2 & H2 & Hscore).
  apply bind_Ok in Hscore as (s3 & H3 & H4).
  apply setitem_row_bounded in H1 as (r1 & -> & _).
  apply setitem_row_bounded in H2 as (r2 & -> & _).
  apply setitem_row_bounded in H3 as (r3 & -> & _).
  apply setitem_row_bounded in H4 as (r4 & -> & _).
  rewrite <- !app_assoc. by eexists.
Qed.

(** The coverage left after the excluded spans are taken out *)
Lemma coverage_subseteq (X : gset Z) (excluded : gset Span.t) :
  set_fold (fun span acc => acc ∖ Span.to_set span) X excluded ⊆ X.
Proof.
  apply (set_fold_ind_L (fun acc _ => acc ⊆ X)); [done|].
  intros span Y acc _ Hacc i [Hi _]%elem_of_difference. by apply Hacc.
Qed.

Lemma size_range_set (n : nat) :
  size (list_to_set (Span.range 0 (Z.of_nat n)) : gset Z) = n.
Proof.
  rewrite size_list_to_set by apply sorted_lt_NoDup, range_sorted.
  apply Nat2Z.inj. rewrite length_range. lia.
Qed.

Lemma sized_rows (gold predicted : Sentence) (errors errors' : Errors)
    (c : PRCounter.t) :
  score_sentence gold predicted errors = Ok (c, errors') →
  (∃ r, ("Targets by token"%string, r) ∈ c
        ∧ PRCounter.N r = Some (Z.of_nat (length (tokens gold)))
        ∧ PRCounter.RDenom r ≤ Z.of_nat (length (tokens gold)))
  ∧ (∀ r, ("Frames (correct targets only)"%string, r) ∈ c →
          ∃ n, PRCounter.N r = Some n ∧ PRCounter.PDenom r = n
               ∧ PRCounter.RDenom r = n ∧ PRCounter.T r = Some (PRCounter.Numer r)).
Proof.
  intros Hscore.
  assert (Hnd : NoDup (PRCounter.labels c)).
  { destruct (score_sentence_shaped _ _ _ _ _ Hscore) as [Hc|[Hc|Hc]];
      exact (proj1 (shaped_well_labeled _ _ Hc)). }
  unfold score_sentence in Hscore.
  apply bind_Ok in Hscore as ([[cov pf] pa] & Hget & Hscore).
  destruct (get_non_targets gold) as [[wsl_map excl] poses].
  apply bind_Ok in Hscore as (st & _ & Hscore).
  apply bind_Ok in Hscore as (stats1 & H1 & Hscore).
  apply bind_Ok in Hscore as (stats2 & H2 & Hscore).
  apply bind_Ok in Hscore as (miss' & _ & Hscore).
  apply bind_Ok in Hscore as (extra' & _ & Hscore).
  apply bind_Ok in Hscore as (stats3 & H3 & Hscore).
  injection Hscore as <- <-.
  apply setitem_Triple_row in H1 as (r1 & -> & HN1 & _ & _ & HR1 & _).
  apply setitem_row_bounded in H2 as (r2 & -> & _ & HN2).
  assert (Hr1 : PRCounter.RDenom r1 ≤ Z.of_nat (length (tokens gold))).
  { rewrite HR1. apply inj_le.
    rewrite <- (size_range_set (length (tokens gold))) at 2.
    apply subseteq_size, coverage_subseteq. }
  destruct (any_name pf).
  - unfold score_frames in H3.
    apply bind_Ok in H3 as (s1 & H4 & H3).
    destruct (negb _) eqn:Hsizes; [done|].
    apply negb_false_iff, andb_true_iff in Hsizes as [Hs1 Hs2].
    apply bool_decide_eq_true in Hs1, Hs2.
    apply bind_Ok in H3 as (s2 & H5 & H3).
    apply setitem_row_bounded in H4 as (r3 & -> & _ & _).
    apply setitem_Triple_row in H5 as (r4 & -> & HN4 & HNu4 & HP4 & HR4 & HT4).
    rewrite !size_items in HP4. rewrite !size_items in HR4.
    rewrite !size_items in HT4.
    assert (Hrest : ∃ rest, stats3 = (((PRCounter.empty
                ++ [("Targets by token"%string, r1)])
                ++ [("Targets by span"%string, r2)])
                ++ [("Frames with correct targets (ignore P)"%string, r3)])
                ++ [("Frames (correct targets only)"%string, r4)] ++ rest).
    { destruct (any_args pa).
      - apply score_arguments_extends in H3 as [rest ->].
        exists rest. by rewrite <- !app_assoc.
      - injection H3 as <-. exists []. by rewrite app_nil_r. }
    destruct Hrest as [rest ->]. simpl. split.
    + exists r1. split; [apply list_elem_of_here | done].
    + intros r Hin. apply (get_NoDup _ _ _ Hnd) in Hin.
      rewrite (get_NoDup _ "Frames (correct targets only)" r4 Hnd) in Hin
        by (do 3 apply list_elem_of_further; apply list_elem_of_here).
      injection Hin as <-.
      exists (Z.of_nat (size (dom (gold_frames st) ∩ dom pf))).
      split; [done|]. split; [by rewrite HP4, Hs2|].
      split; [by rewrite HR4, Hs1, Hs2|].
      rewrite HNu4. apply HT4; [by rewrite Hs1 | by rewrite Hs2].
  - injection H3 as <-. simpl. split.
    + exists r1. split; [apply list_elem_of_here | done].
    + intros r Hin. exfalso.
      apply elem_of_cons in Hin as [[=]|Hin].
      apply elem_of_cons in Hin as [[=]|Hin].
      by apply not_elem_of_nil in Hin.
Qed.

(** X21. In the table [score_sentence] returns, the row 'Targets by token' has
    the number of gold tokens as N and at most that many in RDenom; the row
    'Frames (correct targets only)', when recorded, has PDenom = RDenom = N
    and T = Numer. *)
Theorem score_sentence_sized_rows (gold predicted : Sentence)
    (errors errors' : Errors) (c : PRCounter.t) :
  score_sentence gold predicted errors = Ok (c, errors') →
  (∃ r, PRCounter.get c "Targets by token" = Some r
        ∧ PRCounter.N r = Some (Z.of_nat (length (tokens gold)))
        ∧ PRCounter.RDenom r ≤ Z.of_nat (length (tokens gold)))
  ∧ (∀ r, PRCounter.get c "Frames (correct targets only)" = Some r →
          ∃ n, PRCounter.N r = Some n ∧ PRCounter.PDenom r = n
               ∧ PRCounter.RDenom r = n ∧ PRCounter.T r = Some (PRCounter.Numer r)).
Proof.
  intros Hscore. destruct (sized_rows _ _ _ _ _ Hscore) as [(r & Hin & Hr) Hframes].
  assert (Hnd : NoDup (PRCounter.labels c)).
  { destruct (score_sentence_shaped _ _ _ _ _ Hscore) as [Hc|[Hc|Hc]];
      exact (proj1 (shaped_well_labeled _ _ Hc)). }
  split.
  - exists r. split; [by apply get_NoDup | done].
  - intros r' Hr'. by apply Hframes, get_Some_elem.
Qed.

Lemma score_sentence_sized_rows_witness :
  ∃ c e r, score_sentence gold_motion pred_motion no_errors = Ok (c, e)
           ∧ PRCounter.get c "Targets by token" = Some r
           ∧ PRCounter.N r = Some 3.
Proof.
  destruct (score_sentence gold_motion pred_motion no_errors) as [[c e]|err] eqn:Hscore.
  - destruct (proj1 (score_sentence_sized_rows _ _ _ _ _ Hscore)) as (r & Hr & HN & _).
    exists c, e, r. split; [reflexivity|]. split; [exact Hr | exact HN].
  - exfalso. vm_compute in Hscore. discriminate Hscore.
Defined.

(** ** Prediction indexer: what the three results hold *)

Lemma get_predictions_step_Ok (acc res : predictions) (frame : Frame) :
  get_predictions_step acc frame = Ok res →
  ∃ sp args,
    target_span frame = Ok sp
    ∧ res = (acc.1.1 ∪ Span.to_set sp,
             <[sp := t_name (target frame)]> acc.1.2,
             <[sp := args]> acc.2).
Proof.
  destruct acc as [[cov pf] pa]. unfold get_predictions_step.
  intros (sp & Hsp & Hrest)%bind_Ok.
  apply bind_Ok in Hrest as (args & _ & [= <-]). by exists sp, args.
Qed.

Lemma get_predictions_fold (frames : list Frame) :
  ∀ acc res : predictions,
    foldM get_predictions_step acc frames = Ok res →
    (dom acc.1.2 = dom acc.2 → dom res.1.2 = dom res.2)
    ∧ (∀ sp, sp ∈ dom res.1.2
             ↔ sp ∈ dom acc.1.2
               ∨ ∃ frame, frame ∈ frames ∧ target_span frame = Ok sp)
    ∧ (∀ i, i ∈ res.1.1
            ↔ i ∈ acc.1.1
              ∨ ∃ frame sp, frame ∈ frames ∧ target_span frame = Ok sp
                            ∧ i ∈ Span.to_set sp)
    ∧ (∀ sp name, res.1.2 !! sp = Some name →
                  acc.1.2 !! sp = Some name
                  ∨ ∃ frame, frame ∈ frames ∧ target_span frame = Ok sp
                             ∧ t_name (target frame) = name).
Proof.
  induction frames as [|frame frames IH]; intros acc res; simpl.
  { intros [= <-]. split; [done|]. split; [|split].
    - intros sp. split; [by left|]. intros [Hsp|(frame & Hin & _)]; [done|].
      by apply not_elem_of_nil in Hin.
    - intros i. split; [by left|]. intros [Hi|(frame & sp & Hin & _)]; [done|].
      by apply not_elem_of_nil in Hin.
    - intros sp name Hname. by left. }
  intros (mid & Hstep & Hfold)%bind_Ok.
  apply get_predictions_step_Ok in Hstep as (sp0 & args & Hsp0 & ->).
  destruct (IH _ _ Hfold) as (Hdom & Hkeys & Hcov & Hnames). simpl in *.
  split; [|split; [|split]].
  - intros Hacc. apply Hdom. by rewrite !dom_insert_L, Hacc.
  - intros sp. rewrite Hkeys, dom_insert_L, elem_of_union, elem_of_singleton. split.
    + intros [[->|Hsp]|(frame' & Hin & Hsp)].
      * right. exists frame. split; [apply list_elem_of_here | done].
      * by left.
      * right. exists frame'. split; [by apply list_elem_of_further | done].
    + intros [Hsp|(frame' & [->|Hin]%elem_of_cons & Hsp)].
      * left. by right.
      * left. left. congruence.
      * right. by exists frame'.
  - intros i. rewrite Hcov, elem_of_union. split.
    + intros [[Hi|Hi]|(frame' & sp & Hin & Hsp & Hi)].
      * by left.
      * right. exists frame, sp0. split; [apply list_elem_of_here | done].
      * right. exists frame', sp. split; [by apply list_elem_of_further | done].
    + intros [Hi|(frame' & sp & [->|Hin]%elem_of_cons & Hsp & Hi)].
      * left. by left.
      * left. right. congruence.
      * right. by exists frame', sp.
  - intros sp name Hname. destruct (Hnames sp name Hname) as [Hmid|(frame' & Hin & Hsp & Hn)].
    + destruct (decide (sp0 = sp)) as [->|Hne].
      * rewrite lookup_insert_eq in Hmid. injection Hmid as <-.
        right. exists frame. split; [apply list_elem_of_here | done].
      * rewrite lookup_insert_ne in Hmid by done. by left.
    + right. exists frame'. split; [by apply list_elem_of_further | done].
Qed.

(** X22. When the prediction indexer succeeds, the name map and the argument
    map have the same keys, namely the target spans of the frames; every name
    in the name map is the name of a frame with that target span; and the
    coverage is the set of all indices of these spans. *)
Theorem get_predictions_spec (frames : list Frame) (cov : gset Z)
    (pf : gmap Span.t (option string)) (pa : gmap Span.t (gmap Span.t string)) :
  get_predictions_by_span frames = Ok (cov, pf, pa) →
  dom pf = dom pa
  ∧ (∀ sp, sp ∈ dom pf ↔ ∃ frame, frame ∈ frames ∧ target_span frame = Ok sp)
  ∧ (∀ sp name, pf !! sp = Some name →
                ∃ frame, frame ∈ frames ∧ target_span frame = Ok sp
                         ∧ t_name (target frame) = name)
  ∧ (∀ i, i ∈ cov ↔ ∃ sp, sp ∈ dom pf ∧ i ∈ Span.to_set sp).
Proof.
  unfold get_predictions_by_span. intros Hfold.
  destruct (get_predictions_fold frames _ _ Hfold) as (Hdom & Hkeys & Hcov & Hnames).
  simpl in *. split; [by apply Hdom|]. split; [|split].
  - intros sp. rewrite Hkeys. split; [|by right].
    intros [Hsp|Hsp]; [|done]. by rewrite dom_empty_L in Hsp.
  - intros sp name Hname. destruct (Hnames sp name Hname) as [Hempty|Hframe]; [|done].
    by rewrite lookup_empty in Hempty.
  - intros i. rewrite Hcov. split.
    + intros [Hi|(frame & sp & Hin & Hsp & Hi)]; [done|].
      exists sp. split; [|done]. apply Hkeys. right. by exists frame.
    + intros (sp & Hsp & Hi). right.
      apply Hkeys in Hsp as [Hsp|(frame & Hin & Hsp)];
        [by rewrite dom_empty_L in Hsp|].
      by exists frame, sp.
Qed.

Lemma get_predictions_spec_witness :
  ∃ cov pf pa,
    get_predictions_by_span (frames pred_twice) = Ok (cov, pf, pa)
    ∧ dom pf = dom pa.
Proof.
  destruct (get_predictions_by_span (frames pred_twice)) as [[[cov pf] pa]|err] eqn:Hget.
  - exists cov, pf, pa. split; [reflexivity|].
    exact (proj1 (get_predictions_spec _ _ _ _ Hget)).
  - exfalso. vm_compute in Hget. discriminate Hget.
Defined.

(** ** Sentence scorer: the exceptions it raises *)

Lemma raises_only_Ok {A} (L : list error) (a : A) : raises_only L (Ok a).
Proof. by intros e. Qed.

Lemma raises_only_mono {A} (L L' : list error) (r : result A) :
  L ⊆ L' → raises_only L r → raises_only L' r.
Proof. intros Hsub Hr e He. by apply Hsub, Hr. Qed.

Lemma raises_only_bind {A B} (L : list error) (r : result A) (f : A → result B) :
  raises_only L r → (∀ a, r = Ok a → raises_only L (f a)) →
  raises_only L (bind r f).
Proof.
  intros Hr Hf e [He|(a & Ha & He)]%bind_Err; [by apply Hr | by apply (Hf a)].
Qed.

Lemma raises_only_foldM {A S} (L : list error) (f : S → A → result S)
    (l : list A) (s : S) :
  (∀ s x, x ∈ l → raises_only L (f s x)) → raises_only L (foldM f s l).
Proof. intros Hf e (s0 & x & Hin & He)%foldM_Err. by apply (Hf s0 x). Qed.

Lemma init_Err (args : list Z) : raises_only [InvalidSpan] (Span.init args).
Proof.
  intros e. unfold Span.init. rewrite list_elem_of_singleton.
  destruct (bool_decide (args = []) || negb (Nat.even (length args)));
    [congruence|].
  destruct (Span.sorted (Span.zip (Span.stride2 args) (Span.stride2 (tail args))))
    as [|[start stop] ps]; [done|].
  simpl.
  destruct (Span.init_loop [(start, stop)] false ps) as [s|e'] eqn:Hloop; [done|].
  simpl. intros [= <-]. by apply (init_loop_Err ps [(start, stop)]).
Qed.

Lemma call_str_Err (sp : Span.t) (toks : list string) :
  raises_only [IndexError; UnicodeEncodeError] (Span.call_str sp toks).
Proof.
  unfold Span.call_str. apply raises_only_bind.
  - intros e (i & _ & Hi)%mapM_Err. apply elem_of_cons. left.
    destruct (decide (- Z.of_nat (length toks) ≤ i < Z.of_nat (length toks)))
      as [Hin|Hni].
    + destruct (proj1 (getitem_spec toks i) Hin) as (x' & Hx' & _). congruence.
    + rewrite (proj2 (getitem_spec toks i) Hni) in Hi. congruence.
  - intros texts _ e. unfold Span.str. destruct (Span.all_ascii _); [done|].
    intros [= <-]. apply list_elem_of_further, list_elem_of_here.
Qed.

Lemma args_by_span_Err (fes : list FrameElement) :
  raises_only [InvalidSpan] (args_by_span fes).
Proof.
  unfold args_by_span. apply raises_only_foldM. intros m fe _.
  apply raises_only_bind; [apply init_Err | intros; apply raises_only_Ok].
Qed.

Lemma first_frameElements_Err (sets : list AnnotationSet) :
  raises_only [IndexError] (first_frameElements sets).
Proof. destruct sets; intros e [= <-]. apply list_elem_of_here. Qed.

(** A list of exceptions within a longer list *)
Ltac within :=
  let e := fresh "e" in
  let He := fresh "He" in
  intros e He; rewrite ?elem_of_cons, ?elem_of_nil in He;
  rewrite ?elem_of_cons, ?elem_of_nil; tauto.

Lemma get_predictions_Err (frames : list Frame) :
  raises_only [InvalidSpan; IndexError] (get_predictions_by_span frames).
Proof.
  unfold get_predictions_by_span. apply raises_only_foldM.
  intros [[cov pf] pa] frame _. unfold get_predictions_step.
  apply raises_only_bind.
  { eapply raises_only_mono; [|apply init_Err]. within. }
  intros sp _. apply raises_only_bind; [|intros; apply raises_only_Ok].
  destruct (annotationSets frame) as [sets|]; [|apply raises_only_Ok].
  apply raises_only_bind.
  - eapply raises_only_mono; [|apply first_frameElements_Err]. within.
  - intros fes _. eapply raises_only_mono; [|apply args_by_span_Err]. within.
Qed.

Lemma overlap_diagnostics_Err (toks : list string) (sp : Span.t)
    (excluded : gset Span.t) :
  raises_only [IndexError; UnicodeEncodeError] (overlap_diagnostics toks sp excluded).
Proof.
  unfold overlap_diagnostics. apply raises_only_foldM. intros [] sp' _.
  destruct (Span.overlaps sp sp'); [|apply raises_only_Ok].
  apply raises_only_bind; [apply call_str_Err|]. intros _ _.
  apply raises_only_bind; [apply call_str_Err | intros; apply raises_only_Ok].
Qed.

Lemma gold_step_Err (toks : list string) (wsl_map : gmap Span.t (string * string))
    (st : gold_state) (frame : Frame) :
  raises_only [InvalidSpan; IndexError; KeyError; UnicodeEncodeError]
              (gold_step toks wsl_map st frame).
Proof.
  assert (Hinvalid : ∀ A (r : result A),
            raises_only [InvalidSpan] r
            → raises_only [InvalidSpan; IndexError; KeyError; UnicodeEncodeError] r).
  { intros A r. apply raises_only_mono. within. }
  assert (Hindex : ∀ A (r : result A),
            raises_only [IndexError] r
            → raises_only [InvalidSpan; IndexError; KeyError; UnicodeEncodeError] r).
  { intros A r. apply raises_only_mono. within. }
  assert (Hstr : ∀ A (r : result A),
            raises_only [IndexError; UnicodeEncodeError] r
            → raises_only [InvalidSpan; IndexError; KeyError; UnicodeEncodeError] r).
  { intros A r. apply raises_only_mono. within. }
  assert (Hkey : ∀ A, raises_only [InvalidSpan; IndexError; KeyError; UnicodeEncodeError]
                        (Err KeyError : result A)).
  { intros A e [= <-]. do 2 apply list_elem_of_further. apply list_elem_of_here. }
  unfold gold_step.
  apply raises_only_bind; [apply Hinvalid, init_Err|]. intros sp _.
  apply raises_only_bind; [destruct (t_name (target frame)); [apply raises_only_Ok | apply Hkey]|].
  intros name _.
  apply raises_only_bind; [destruct (annotationSets frame); [apply raises_only_Ok | apply Hkey]|].
  intros sets _.
  apply raises_only_bind; [apply Hindex, first_frameElements_Err|]. intros fes _.
  apply raises_only_bind; [apply Hinvalid, args_by_span_Err|]. intros args _.
  apply raises_only_bind; [|intros; apply raises_only_Ok].
  destruct (bool_decide (sp ∈ excluded_spans st)).
  - destruct (bool_decide (sp ∈ dom wsl_map)); [|apply raises_only_Ok].
    apply raises_only_bind; [apply Hstr, call_str_Err | intros; apply raises_only_Ok].
  - destruct (1 <? Span.len sp); [|apply raises_only_Ok].
    apply raises_only_bind; [apply Hstr, overlap_diagnostics_Err |
                             intros; apply raises_only_Ok].
Qed.

Lemma tally_Err (toks : list string) (poses : gmap Span.t string)
    (counter : gmap string Z) (sp : Span.t) :
  raises_only [IndexError; UnicodeEncodeError] (tally toks poses counter sp).
Proof.
  unfold tally. destruct (Span.len sp =? 1);
    (apply raises_only_bind; [apply call_str_Err | intros; apply raises_only_Ok]).
Qed.

Lemma setitem_Pair_Ok {A} `{Countable A} (c : PRCounter.t) (k : string)
    (g p : gset A) :
  ∃ c', PRCounter.setitem c k (PRCounter.Pair g p) = Ok c'.
Proof. rewrite setitem_Pair. by eexists. Qed.

(** A row with [N] whose gold and predicted sets both have [N] items *)
Lemma setitem_Triple_full {A} `{Countable A} (c : PRCounter.t) (k : string)
    (g p : gset A) :
  size g = size p →
  ∃ c', PRCounter.setitem c k (PRCounter.Triple (Z.of_nat (size p)) g p) = Ok c'.
Proof.
  intros Hgp. rewrite setitem_Triple.
  destruct (decide ((g ≠ ∅ ∨ p ≠ ∅) ∧ Z.of_nat (size p) ≤ 0)) as [[Hne Hn]|_].
  { exfalso. assert (size p = 0%nat) as Hp by lia.
    assert (p = ∅) as -> by (by apply leibniz_equiv, size_empty_iff).
    assert (g = ∅) as -> by (apply leibniz_equiv, size_empty_iff; lia).
    by destruct Hne. }
  destruct (decide (Z.of_nat (size g) = Z.of_nat (size p)
                    ∧ Z.of_nat (size p) = Z.of_nat (size p))) as [_|Hne];
    [|exfalso; apply Hne; split; [by rewrite Hgp | done]].
  destruct (decide (Z.of_nat (size (g ∩ p)) < 0)) as [Hneg|_]; [lia|]. by eexists.
Qed.

Lemma score_arguments_Ok stats cts ga pa :
  ∃ c, score_arguments stats cts ga pa = Ok c.
Proof.
  unfold score_arguments.
  destruct (setitem_Pair_Ok stats "Argument spans with correct targets"
              (arg_spans ga) (arg_spans pa)) as [s1 ->]. cbn [bind].
  destruct (setitem_Pair_Ok s1 "Arguments, labeled, with correct targets"
              (labeled_args ga) (labeled_args pa)) as [s2 ->]. cbn [bind].
  destruct (setitem_Pair_Ok s2 "Argument spans (correct targets only)"
              (arg_spans (restrict cts ga)) (arg_spans (restrict cts pa)))
    as [s3 ->]. cbn [bind].
  apply setitem_Pair_Ok.
Qed.

Lemma score_frames_Ok stats gf pf ga pa :
  ∃ c, score_frames stats gf pf ga pa = Ok c.
Proof.
  unfold score_frames.
  destruct (setitem_Pair_Ok stats "Frames with correct targets (ignore P)"
              (items gf) (items pf)) as [s1 ->]. cbn [bind].
  assert (Hg : size (restrict (dom gf ∩ dom pf) gf) = size (dom gf ∩ dom pf)).
  { apply restrict_size. intros sp [Hsp _]%elem_of_intersection. done. }
  assert (Hp : size (restrict (dom gf ∩ dom pf) pf) = size (dom gf ∩ dom pf)).
  { apply restrict_size. intros sp [_ Hsp]%elem_of_intersection. done. }
  rewrite !bool_decide_eq_true_2 by congruence. cbn [negb andb].
  rewrite <- Hp.
  destruct (setitem_Triple_full s1 "Frames (correct targets only)"
              (items (restrict (dom gf ∩ dom pf) gf))
              (items (restrict (dom gf ∩ dom pf) pf))) as [s2 Hs2].
  { rewrite !size_items. congruence. }
  rewrite size_items in Hs2. rewrite Hs2. cbn [bind].
  destruct (any_args pa); [apply score_arguments_Ok | by eexists].
Qed.

Lemma not_subseteq_elem (X Y : gset Z) : ¬ X ⊆ Y → ∃ i, i ∈ X ∧ i ∉ Y.
Proof.
  intros Hn. destruct (decide (X ∖ Y = ∅)) as [He|Hne].
  - exfalso. apply Hn. intros i Hi. destruct (decide (i ∈ Y)) as [|Hni]; [done|].
    exfalso. apply (not_elem_of_empty (C := gset Z) i). rewrite <- He.
    by apply elem_of_difference.
  - apply set_choose_L in Hne as [i Hi]. apply elem_of_difference in Hi.
    by exists i.
Qed.

Lemma score_sentence_Err (gold predicted : Sentence) (errors : Errors) (e : error) :
  score_sentence gold predicted errors = Err e →
  e ∈ [InvalidSpan; IndexError; KeyError; UnicodeEncodeError]
  ∨ ((e = AssertNPositive ∨ e = AssertTNonNegative)
     ∧ ∃ cov pf pa i,
         get_predictions_by_span (frames predicted) = Ok (cov, pf, pa)
         ∧ i ∈ cov ∧ ¬ (0 ≤ i < Z.of_nat (length (tokens gold)))).
Proof.
  assert (Hpred : ∀ A (r : result A),
            raises_only [InvalidSpan; IndexError] r
            → raises_only [InvalidSpan; IndexError; KeyError; UnicodeEncodeError] r).
  { intros A r. apply raises_only_mono. within. }
  assert (Hindex : ∀ A (r : result A),
            raises_only [IndexError; UnicodeEncodeError] r
            → raises_only [InvalidSpan; IndexError; KeyError; UnicodeEncodeError] r).
  { intros A r. apply raises_only_mono. within. }
  unfold score_sentence.
  intros [Hget|([[cov pf] pa] & Hget & Hscore)]%bind_Err.
  { left. exact (Hpred _ _ (get_predictions_Err (frames predicted)) e Hget). }
  destruct (get_non_targets gold) as [[wsl_map excl] poses].
  apply bind_Err in Hscore as [Hgold|(st & _ & Hscore)].
  { left. revert Hgold. apply raises_only_foldM. intros s x _. apply gold_step_Err. }
  apply bind_Err in Hscore as [Htokens|(stats1 & _ & Hscore)].
  { right. split; [by apply setitem_Err in Htokens|].
    destruct (decide (cov ⊆ list_to_set (Span.range 0 (Z.of_nat (length (tokens gold))))))
      as [Hsub|Hnsub].
    - exfalso.
      destruct (setitem_slots_row PRCounter.empty "Targets by token"
                  (list_to_set (Span.range 0 (Z.of_nat (length (tokens gold)))))
                  (set_fold (fun span acc => acc ∖ Span.to_set span)
                     (list_to_set (Span.range 0 (Z.of_nat (length (tokens gold)))))
                     (excluded_spans st)) cov (coverage_subseteq _ _) Hsub)
        as (row & Hrow & _).
      rewrite size_range_set in Hrow. congruence.
    - exists cov, pf, pa.
      destruct (not_subseteq_elem cov
                  (list_to_set (Span.range 0 (Z.of_nat (length (tokens gold)))))
                  Hnsub) as (i & Hi & Hni).
      exists i. split; [done|]. split; [done|].
      intros Hrange. apply Hni, elem_of_list_to_set, elem_of_range. lia. }
  apply bind_Err in Hscore as [Hspans|(stats2 & _ & Hscore)].
  { exfalso. match type of Hspans with
             | PRCounter.setitem ?c ?k (PRCounter.Pair ?g ?p) = _ =>
                 destruct (setitem_Pair_Ok c k g p) as [c' Hc']
             end. congruence. }
  apply bind_Err in Hscore as [Hmiss|(miss' & _ & Hscore)].
  { left. revert Hmiss. apply Hindex, raises_only_foldM.
    intros s x _. apply tally_Err. }
  apply bind_Err in Hscore as [Hextra|(extra' & _ & Hscore)].
  { left. revert Hextra. apply Hindex, raises_only_foldM.
    intros s x _. apply tally_Err. }
  apply bind_Err in Hscore as [Hframes|(stats3 & _ & Hscore)]; [|done].
  exfalso. destruct (any_name pf); [|done].
  match type of Hframes with
  | score_frames ?s ?gf ?pf ?ga ?pa = _ =>
      destruct (score_frames_Ok s gf pf ga pa) as [c' Hc']
  end. congruence.
Qed.

(** X23. The frame rows and the argument rows are always recorded without an
    exception: [score_frames] never fails, whatever the maps it is given. *)
Theorem score_frames_never_fails (stats : PRCounter.t)
    (gold_frames pred_frames : gmap Span.t (option string))
    (gold_args pred_args : gmap Span.t (gmap Span.t string)) :
  ∃ c, score_frames stats gold_frames pred_frames gold_args pred_args = Ok c.
Proof. apply score_frames_Ok. Qed.

(** X24. The only exceptions [score_sentence] raises are those of a bad span
    (InvalidSpan), of an index out of range (IndexError), of a missing name or
    annotation set in a gold frame (KeyError), of a text with a character
    above 127 given to [str] (UnicodeEncodeError), and the two assertions of
    the row 'Targets by token'; an assertion fails only when a predicted
    target holds an index that is not a token index of the gold sentence. *)
Theorem score_sentence_raises (gold predicted : Sentence) (errors : Errors)
    (e : error) :
  score_sentence gold predicted errors = Err e →
  e ∈ [InvalidSpan; IndexError; KeyError; UnicodeEncodeError]
  ∨ ((e = AssertNPositive ∨ e = AssertTNonNegative)
     ∧ ∃ cov pf pa i,
         get_predictions_by_span (frames predicted) = Ok (cov, pf, pa)
         ∧ i ∈ cov ∧ ¬ (0 ≤ i < Z.of_nat (length (tokens gold)))).
Proof. apply score_sentence_Err. Qed.

Lemma score_sentence_raises_witness :
  score_sentence gold_accent gold_accent no_errors = Err UnicodeEncodeError
  ∧ score_sentence gold_no_tokens pred_unnamed no_errors = Err AssertNPositive
  ∧ ∃ cov pf pa i,
      get_predictions_by_span (frames pred_unnamed) = Ok (cov, pf, pa)
      ∧ i ∈ cov ∧ ¬ (0 ≤ i < Z.of_nat (length (tokens gold_no_tokens))).
Proof.
  assert (Hscore : score_sentence gold_no_tokens pred_unnamed no_errors
                   = Err AssertNPositive) by (vm_compute; reflexivity).
  split; [vm_compute; reflexivity|]. split; [exact Hscore|].
  destruct (score_sentence_raises _ _ _ _ Hscore) as [Hin|[_ Hcov]].
  - exfalso. revert Hin. rewrite !elem_of_cons, elem_of_nil.
    intros [Heq|[Heq|[Heq|[Heq|[]]]]]; discriminate Heq.
  - exact Hcov.
Defined.

(** ** The span of an annotation element *)

Lemma stride2_cons (x : Z) (l : list Z) :
  Span.stride2 (x :: l) = x :: Span.stride2 (tail l).
Proof. by destruct l. Qed.

Lemma pairs_of_spans (spans : list Range) :
  pairs_of (flat_map (fun sp => [start sp; end_ sp]) spans)
  = (fun sp => (start sp, end_ sp)) <$> spans.
Proof.
  unfold pairs_of. induction spans as [|r spans IH]; [done|].
  cbn [flat_map app tail]. rewrite !stride2_cons. cbn [tail Span.zip].
  by rewrite IH.
Qed.

Lemma cover_count_spans (i : Z) (spans : list Range) :
  cover_count i ((fun sp => (start sp, end_ sp)) <$> spans)
  = length (filter (fun r => start r ≤ i < end_ r) spans).
Proof.
  induction spans as [|r spans IH]; [done|].
  rewrite fmap_cons, cover_count_cons, filter_cons, IH. unfold covers. simpl.
  by destruct (decide (start r ≤ i < end_ r)).
Qed.

Lemma init_forward_cases (args : list Z) :
  args ≠ [] → Nat.even (length args) = true → Forall forward (pairs_of args) →
  match Span.init args with
  | Ok sp =>
      (∀ i, i ∈ Span.iter sp ↔ ∃ p, p ∈ pairs_of args ∧ covers p i)
      ∧ (∀ i, (cover_count i (pairs_of args) ≤ 1)%nat)
  | Err e => ∃ i, (2 ≤ cover_count i (pairs_of args))%nat
  end.
Proof.
  intros Hne Hev Hfw. rewrite init_unfold by done.
  pose proof (init_loop_sorted (pairs_of args)
                (pairs_of_nonempty args Hne Hev) Hfw) as Hloop.
  destruct (Span.init_loop [] true (Span.sorted (pairs_of args))) as [s|e]; simpl.
  - by destruct Hloop as (_ & _ & Hmem & Hcount).
  - by destruct Hloop as [_ Hi].
Qed.

(** X25. For ranges with start <= end, the span of an annotation element is
    built without an exception exactly when the element has at least one
    range and no index lies in two of its ranges; the span then iterates over
    exactly the indices of the ranges. *)
Theorem span_from_element_spec (spans : list Range) :
  Forall (fun r => start r ≤ end_ r) spans →
  ((∃ sp, span_from_element spans = Ok sp)
   ↔ spans ≠ []
     ∧ ∀ i, (length (filter (fun r => (start r ≤ i < end_ r)%Z) spans) ≤ 1)%nat)
  ∧ ∀ sp, span_from_element spans = Ok sp →
          ∀ i, i ∈ Span.iter sp ↔ ∃ r, r ∈ spans ∧ start r ≤ i < end_ r.
Proof.
  intros Hfw. unfold span_from_element.
  destruct spans as [|r0 spans].
  { split; [|done]. split; [by intros [sp Hsp] | by intros [Hne _]]. }
  remember (r0 :: spans) as l eqn:Hl.
  assert (Hne : flat_map (fun sp => [start sp; end_ sp]) l ≠ []) by (by subst l).
  assert (Hev : Nat.even (length (flat_map (fun sp => [start sp; end_ sp]) l)) = true).
  { clear. induction l as [|r l IH]; [done|]. by cbn [flat_map app length Nat.even]. }
  assert (Hfw' : Forall forward (pairs_of (flat_map (fun sp => [start sp; end_ sp]) l))).
  { rewrite pairs_of_spans. apply Forall_fmap. eapply Forall_impl; [exact Hfw|].
    by intros r Hr. }
  pose proof (init_forward_cases _ Hne Hev Hfw') as Hcases.
  rewrite pairs_of_spans in Hcases.
  destruct (Span.init (flat_map (fun sp => [start sp; end_ sp]) l)) as [sp|e].
  - destruct Hcases as [Hmem Hcount]. split.
    + split; [|by exists sp]. intros _. split; [by subst l|].
      intros i. rewrite <- cover_count_spans. apply Hcount.
    + intros sp' [= <-] i. rewrite Hmem. split.
      * intros (p & (r & -> & Hr)%list_elem_of_fmap & Hc). by exists r.
      * intros (r & Hr & Hi). exists (start r, end_ r).
        split; [|done]. apply list_elem_of_fmap. by exists r.
  - destruct Hcases as [i Hi]. rewrite cover_count_spans in Hi. split; [|done].
    split; [by intros [sp Hsp]|]. intros [_ Hcount]. specialize (Hcount i). lia.
Qed.

Lemma span_from_element_spec_witness :
  Forall (fun r => start r ≤ end_ r) [mkRange 9 12; mkRange 3 6]
  ∧ ∃ sp, span_from_element [mkRange 9 12; mkRange 3 6] = Ok sp.
Proof.
  assert (Hfw : Forall (fun r => start r ≤ end_ r) [mkRange 9 12; mkRange 3 6])
    by (repeat constructor; simpl; lia).
  split; [exact Hfw|].
  apply (proj1 (span_from_element_spec _ Hfw)). split; [discriminate|].
  intros i. simpl. rewrite !filter_cons, filter_nil. simpl.
  destruct (decide (9 ≤ i < 12)), (decide (3 ≤ i < 6)); simpl; lia.
Defined.

(** ** Span: the stored ranges of a span built from non-empty ranges *)

Lemma init_loop_gapped (ps : list Span.slice) :
  ∀ s s' : list Span.slice,
    gapped s → Forall proper ps → StronglySorted by_start ps →
    (∀ r q, r ∈ s → q ∈ ps → by_start r q) →
    Span.init_loop s false ps = Ok s' → gapped s'.
Proof.
  induction ps as [|[start stop] ps IH]; intros s s' Hs Hps Hsorted Hstart; simpl.
  { by intros [= <-]. }
  apply Forall_cons in Hps as [Hp Hps]. unfold proper in Hp. simpl in Hp.
  apply StronglySorted_cons in Hsorted as [Hhd Hsorted].
  destruct (Span.overlaps (Span.mk s) (Span.single start stop)) eqn:Hov; [done|].
  assert (Hfree : ¬ start ∈ Span.iter (Span.mk s)).
  { intros Hin. assert (Span.overlaps (Span.mk s) (Span.single start stop) = true);
      [|congruence].
    apply overlaps_true. exists start. split; [done|].
    rewrite iter_single. apply elem_of_range. lia. }
  destruct (last s) as [l|] eqn:Hlast; [|done].
  apply last_Some in Hlast as [s0 ->]. destruct Hs as [Hgap Hproper].
  apply StronglySorted_app in Hgap as (Hs0l & Hs0 & _).
  apply Forall_app in Hproper as [Hproper0 Hl]. apply Forall_inv in Hl.
  unfold proper in Hl.
  assert (Hl1 : l.1 ≤ start).
  { apply (Hstart l (start, stop)); [|apply list_elem_of_here].
    apply elem_of_app. right. apply list_elem_of_here. }
  assert (Hl2 : l.2 ≤ start).
  { destruct (Z_le_gt_dec l.2 start) as [|Hgt]; [done|]. exfalso. apply Hfree.
    apply elem_of_iter. exists l. split; [|lia]. simpl.
    apply elem_of_app. right. apply list_elem_of_here. }
  destruct (Z.eqb_spec l.2 start) as [Heq|Hneq].
  - rewrite insert_last. apply IH; [|done|done|].
    + split.
      * apply StronglySorted_app. split; [|split; [done | repeat constructor]].
        intros p q Hp' ->%list_elem_of_singleton. unfold gap. simpl.
        apply (Hs0l p l Hp'), list_elem_of_here.
      * apply Forall_app. split; [done|]. apply Forall_singleton.
        unfold proper. simpl. lia.
    + intros r q [Hr| ->%list_elem_of_singleton]%elem_of_app Hq.
      * apply Hstart; [|by apply list_elem_of_further]. apply elem_of_app. by left.
      * unfold by_start. simpl.
        apply (Hstart l q); [|by apply list_elem_of_further].
        apply elem_of_app. right. apply list_elem_of_here.
  - apply IH; [|done|done|].
    + split.
      * apply StronglySorted_app. split; [|split; [|repeat constructor]].
        -- intros p q [Hp'| ->%list_elem_of_singleton]%elem_of_app
                  ->%list_elem_of_singleton; unfold gap; simpl.
           ++ pose proof (Hs0l p l Hp' (list_elem_of_here _ _)) as Hpl.
              unfold gap in Hpl. lia.
           ++ lia.
        -- apply StronglySorted_app. split; [done|]. split; [done | repeat constructor].
      * apply Forall_app. split; [|by apply Forall_singleton].
        apply Forall_app. split; [done | by apply Forall_singleton].
    + intros r q [Hr| ->%list_elem_of_singleton]%elem_of_app Hq.
      * apply Hstart; [done | by apply list_elem_of_further].
      * by apply (proj1 (Forall_forall _ _) Hhd).
Qed.

Lemma init_gapped (args : list Z) (sp : Span.t) :
  Forall proper (pairs_of args) → Span.init args = Ok sp → gapped (Span._s sp).
Proof.
  intros Hproper Hinit. destruct (init_Ok_args _ _ Hinit) as [Hne Hev].
  rewrite init_unfold in Hinit by done.
  apply bind_Ok in Hinit as (s & Hloop & [= <-]). simpl.
  pose proof (sorted_by_start (pairs_of args)) as Hsorted.
  rewrite <- (sorted_perm (pairs_of args)) in Hproper.
  destruct (Span.sorted (pairs_of args)) as [|[start stop] ps]; simpl in Hloop.
  { injection Hloop as <-. split; constructor. }
  apply Forall_cons in Hproper as [Hp Hps].
  apply StronglySorted_cons in Hsorted as [Hhd Hsorted].
  apply (init_loop_gapped ps [(start, stop)] s); [|done|done| |done].
  - split; [repeat constructor | by apply Forall_singleton].
  - intros r q ->%list_elem_of_singleton Hq. by apply (proj1 (Forall_forall _ _) Hhd).
Qed.

Lemma gapped_head_least (p : Span.slice) (s : list Span.slice) (i : Z) :
  gapped (p :: s) → i ∈ Span.iter (Span.mk (p :: s)) →
  p.1 ≤ i ∧ (i < p.2 ∨ (p.2 < i ∧ i ∈ Span.iter (Span.mk s))).
Proof.
  intros [Hgap Hproper] (q & [->|Hq]%elem_of_cons & Hi)%elem_of_iter.
  - lia.
  - apply StronglySorted_cons in Hgap as [Hhd _].
    apply Forall_inv in Hproper. unfold proper in Hproper.
    pose proof (proj1 (Forall_forall _ _) Hhd q Hq) as Hpq. unfold gap in Hpq.
    split; [lia|]. right. split; [lia|]. apply elem_of_iter. by exists q.
Qed.

Lemma gapped_head_in (p : Span.slice) (s : list Span.slice) (i : Z) :
  p.1 ≤ i < p.2 → i ∈ Span.iter (Span.mk (p :: s)).
Proof. intros Hi. apply elem_of_iter. exists p. split; [apply list_elem_of_here | done]. Qed.

(** Ranges with gaps between them are determined by the indices they hold *)
Lemma gapped_unique (s1 : list Span.slice) :
  ∀ s2 : list Span.slice,
    gapped s1 → gapped s2 →
    (∀ i, i ∈ Span.iter (Span.mk s1) ↔ i ∈ Span.iter (Span.mk s2)) →
    s1 = s2.
Proof.
  induction s1 as [|p s1 IH]; intros [|q s2] H1 H2 Hiter; [done| | |].
  - exfalso. pose proof (Forall_inv (proj2 H2)) as Hq. unfold proper in Hq.
    assert (Hin : q.1 ∈ Span.iter (Span.mk [])) by (apply Hiter, gapped_head_in; lia).
    by apply not_elem_of_nil in Hin.
  - exfalso. pose proof (Forall_inv (proj2 H1)) as Hp. unfold proper in Hp.
    assert (Hin : p.1 ∈ Span.iter (Span.mk [])) by (apply Hiter, gapped_head_in; lia).
    by apply not_elem_of_nil in Hin.
  - pose proof (Forall_inv (proj2 H1)) as Hp. unfold proper in Hp.
    pose proof (Forall_inv (proj2 H2)) as Hq. unfold proper in Hq.
    assert (Hstart : p.1 = q.1).
    { assert (q.1 ≤ p.1)
        by (apply (gapped_head_least q s2 p.1 H2), Hiter, gapped_head_in; lia).
      assert (p.1 ≤ q.1)
        by (apply (gapped_head_least p s1 q.1 H1), Hiter, gapped_head_in; lia).
      lia. }
    assert (Hstop : p.2 = q.2).
    { destruct (Z.lt_trichotomy p.2 q.2) as [Hlt|[Heq|Hgt]]; [|done|]; exfalso.
      - destruct (gapped_head_least p s1 p.2 H1) as [_ [Hin|[Hin _]]]; [|lia|lia].
        apply Hiter, gapped_head_in. lia.
      - destruct (gapped_head_least q s2 q.2 H2) as [_ [Hin|[Hin _]]]; [|lia|lia].
        apply Hiter, gapped_head_in. lia. }
    assert (p = q) as <- by (destruct p, q; simpl in *; congruence).
    f_equal. apply IH.
    + destruct H1 as [Hg Hf]. apply StronglySorted_cons in Hg as [_ Hg].
      apply Forall_cons in Hf as [_ Hf]. by split.
    + destruct H2 as [Hg Hf]. apply StronglySorted_cons in Hg as [_ Hg].
      apply Forall_cons in Hf as [_ Hf]. by split.
    + intros i. split; intros Hi.
      * assert (Hgt : p.2 ≤ i).
        { apply elem_of_iter in Hi as (r & Hr & Hi). simpl in Hr.
          destruct H1 as [Hg _]. apply StronglySorted_cons in Hg as [Hhd _].
          pose proof (proj1 (Forall_forall _ _) Hhd r Hr) as Hpr.
          unfold gap in Hpr. lia. }
        destruct (gapped_head_least p s2 i H2) as [_ [Hin|[_ Hin]]]; [|lia|done].
        apply Hiter. apply elem_of_iter in Hi as (r & Hr & Hi).
        apply elem_of_iter. exists r. split; [by apply list_elem_of_further | done].
      * assert (Hgt : p.2 ≤ i).
        { apply elem_of_iter in Hi as (r & Hr & Hi). simpl in Hr.
          destruct H2 as [Hg _]. apply StronglySorted_cons in Hg as [Hhd _].
          pose proof (proj1 (Forall_forall _ _) Hhd r Hr) as Hpr.
          unfold gap in Hpr. lia. }
        destruct (gapped_head_least p s1 i H1) as [_ [Hin|[_ Hin]]]; [|lia|done].
        apply Hiter. apply elem_of_iter in Hi as (r & Hr & Hi).
        apply elem_of_iter. exists r. split; [by apply list_elem_of_further | done].
Qed.

(** X26. Two spans built from ranges with start < stop are equal exactly when
    they hold the same indices: the constructor stores the maximal runs of
    indices, whatever the ranges they were given as. *)
Theorem eq_by_indices (args args' : list Z) (a b : Span.t) :
  Forall proper (pairs_of args) → Forall proper (pairs_of args') →
  Span.init args = Ok a → Span.init args' = Ok b →
  (Span.eq a b = true ↔ Span.to_set a = Span.to_set b).
Proof.
  intros Hargs Hargs' Ha Hb. rewrite eq_iff_Leibniz. split; [by intros ->|].
  intros Hset. destruct a as [s1], b as [s2]. f_equal.
  apply gapped_unique.
  - exact (init_gapped _ _ Hargs Ha).
  - exact (init_gapped _ _ Hargs' Hb).
  - intros i. unfold Span.to_set in Hset.
    rewrite <- !(elem_of_list_to_set (C := gset Z)). by rewrite Hset.
Qed.

Lemma eq_by_indices_witness :
  Forall proper (pairs_of [6; 9; 3; 6])
  ∧ Forall proper (pairs_of [3; 5; 5; 9])
  ∧ ∃ a b, Span.init [6; 9; 3; 6] = Ok a ∧ Span.init [3; 5; 5; 9] = Ok b
           ∧ Span.eq a b = true.
Proof.
  assert (H1 : Forall proper (pairs_of [6; 9; 3; 6]))
    by (repeat constructor; unfold proper; simpl; lia).
  assert (H2 : Forall proper (pairs_of [3; 5; 5; 9]))
    by (repeat constructor; unfold proper; simpl; lia).
  split; [exact H1|]. split; [exact H2|].
  exists (Span.single 3 9), (Span.single 3 9).
  split; [reflexivity|]. split; [reflexivity|].
  apply (proj2 (eq_by_indices _ _ _ _ H1 H2 eq_refl eq_refl)). reflexivity.
Defined.

(** ** Span: the ordering of constructed spans *)

(** X27. Comparing two constructed spans with [<] never raises (each has a
    stored range, so the least start and the greatest stop are defined), and
    no constructed span is less than itself. *)
Theorem lt_constructed (args args' : list Z) (a b : Span.t) :
  Span.init args = Ok a → Span.init args' = Ok b →
  (∃ r, Span.lt a b = Ok r) ∧ Span.lt a a = Ok false.
Proof.
  intros Ha Hb.
  destruct (bounds_nonempty a (init_nonempty _ _ Ha)) as (ma & xa & Hma & Hxa & _).
  destruct (bounds_nonempty b (init_nonempty _ _ Hb)) as (mb & xb & Hmb & Hxb & _).
  split.
  - eexists. by apply (lt_spec a b ma mb xa xb).
  - rewrite (lt_spec a a ma ma xa xa) by done. by rewrite !Z.ltb_irrefl.
Qed.

Lemma lt_constructed_witness :
  Span.init [0; 10] = Ok (Span.single 0 10)
  ∧ Span.init [1; 5] = Ok (Span.single 1 5)
  ∧ Span.lt (Span.single 0 10) (Span.single 0 10) = Ok false.
Proof.
  assert (Ha : Span.init [0; 10] = Ok (Span.single 0 10)) by reflexivity.
  assert (Hb : Span.init [1; 5] = Ok (Span.single 1 5)) by reflexivity.
  split; [exact Ha|]. split; [exact Hb|].
  exact (proj2 (lt_constructed _ _ _ _ Ha Hb)).
Defined.
